(** * Collision engine of p5.play: a shallow embedding and its properties

    The development follows [src/p5.play.js]: the [p5.Vector] extensions,
    [p5.Transform2D], the [p5.CollisionShape] family with its separating-axis
    test, the [Sprite] collision resolver and the [Quadtree]; then the speed
    and direction methods of [Sprite], [Group] with the removal of sprites,
    and the key states.

    Numbers.  JavaScript numbers are modelled by the real numbers of the
    Standard Library: every arithmetic operation is exact.  The places where
    the program relies on the special IEEE values are written out case by
    case ([Infinity] as the initial smallest overlap, a division by zero in
    [isParallel] and in the sub-step size), and so are the two behaviours of
    [p5.Vector] that the resolver meets: [div] leaves a vector as it is
    when asked to divide by zero, and the constructor stores zero for a
    coordinate that is not a number.  The one place where the sign of a
    rounding error shows is the cosine of a quarter turn in the scale
    cached for a swept box ([sweptScale]).  Vectors are the two-dimensional
    part of [p5.Vector]; the third coordinate is zero throughout this code. *)

From Stdlib Require Import Reals Lra Lia List Bool Arith.
Import ListNotations.

Open Scope R_scope.

(** ** Comparisons of numbers as booleans *)

Definition Rltb (x y : R) : bool := if Rlt_dec x y then true else false.
Definition Rleb (x y : R) : bool := if Rle_dec x y then true else false.
Definition Reqb (x y : R) : bool := if Req_dec_T x y then true else false.

(** ** p5.Vector *)

Record Vec : Type := mkVec { vx : R; vy : R }.

Module Vector.

Definition zero : Vec := mkVec 0 0.

Definition add (a b : Vec) : Vec := mkVec (vx a + vx b) (vy a + vy b).
Definition sub (a b : Vec) : Vec := mkVec (vx a - vx b) (vy a - vy b).
Definition mult (a : Vec) (n : R) : Vec := mkVec (vx a * n) (vy a * n).
(** [div] warns and leaves the vector as it is when [n] is zero. *)
Definition div (a : Vec) (n : R) : Vec :=
  if Reqb n 0 then a else mkVec (vx a / n) (vy a / n).
Definition dot (a b : Vec) : R := vx a * vx b + vy a * vy b.
Definition magSq (a : Vec) : R := vx a * vx a + vy a * vy a.
Definition mag (a : Vec) : R := sqrt (magSq a).

(** The third coordinate of [p5.Vector.cross]; it is zero exactly when the
    two vectors lie on one line. *)
Definition cross (a b : Vec) : R := vx a * vy b - vy a * vx b.

(** [v.x === 0 && v.y === 0] *)
Definition isZero (a : Vec) : bool := Reqb (vx a) 0 && Reqb (vy a) 0.

(** [normalize] leaves a vector of length zero alone. *)
Definition normalize (a : Vec) : Vec :=
  let len := mag a in
  if Reqb len 0 then a else mult a (1 / len).

Definition setMag (a : Vec) (n : R) : Vec := mult (normalize a) n.

(** [p5.Vector.project(a, b)]: the orthogonal projection of [a] on the
    line of [b].  Every caller passes a vector [b] that is not zero. *)
Definition project (a b : Vec) : Vec := mult b (dot a b / dot b b).

(** The default tolerance of [isParallel], [1e-14]. *)
Definition default_tolerance : R := / 10 ^ 14.

(** [this.isParallel(v2, tolerance)].  In the third test a division by a
    zero coordinate of [v2] gives an infinite or undefined quotient, and the
    comparison with the tolerance is then false. *)
Definition isParallel (this v2 : Vec) (tolerance : R) : bool :=
  (Rltb (Rabs (vx this)) tolerance && Rltb (Rabs (vx v2)) tolerance)
  || (Rltb (Rabs (vy this)) tolerance && Rltb (Rabs (vy v2)) tolerance)
  || (negb (Reqb (vx v2) 0) && negb (Reqb (vy v2) 0)
      && Rltb (Rabs (vx this / vx v2 - vy this / vy v2)) tolerance).

End Vector.

(** ** p5.Transform2D

    The six stored entries of the matrix
    [[t0 t1 t2] [t3 t4 t5] [0 0 1]]. *)

Record Transform2D : Type := mkTransform {
  t0 : R; t1 : R; t2 : R;
  t3 : R; t4 : R; t5 : R
}.

Module Transform.

Definition identity : Transform2D := mkTransform 1 0 0 0 1 0.

(** [p5.Transform2D.mult(t1, t2)] *)
Definition mult (a b : Transform2D) : Transform2D :=
  mkTransform
    (t0 a * t0 b + t1 a * t3 b)
    (t0 a * t1 b + t1 a * t4 b)
    (t0 a * t2 b + t1 a * t5 b + t2 a)
    (t3 a * t0 b + t4 a * t3 b)
    (t3 a * t1 b + t4 a * t4 b)
    (t3 a * t2 b + t4 a * t5 b + t5 a).

(** The mutating methods multiply on the left: the new map is applied
    after the one already stored. *)
Definition translate (x y : R) (t : Transform2D) : Transform2D :=
  mult (mkTransform 1 0 x 0 1 y) t.

Definition translateV (v : Vec) (t : Transform2D) : Transform2D :=
  translate (vx v) (vy v) t.

Definition scale (sx sy : R) (t : Transform2D) : Transform2D :=
  mult (mkTransform sx 0 0 0 sy 0) t.

Definition rotate (radians : R) (t : Transform2D) : Transform2D :=
  let sinR := sin radians in
  let cosR := cos radians in
  mult (mkTransform cosR (- sinR) 0 sinR cosR 0) t.

(** [sign(x)]: -1, 0 or 1. *)
Definition sign (x : R) : R :=
  if Reqb x 0 then 0 else if Rltb 0 x then 1 else -1.

Definition getScale (t : Transform2D) : Vec :=
  let a := t0 t in let b := t1 t in
  let c := t3 t in let d := t4 t in
  mkVec (sign a * sqrt (a * a + b * b)) (sign d * sqrt (c * c + d * d)).

Definition getTranslation (t : Transform2D) : Vec := mkVec (t2 t) (t5 t).

(** [p5.Vector.prototype.transform] *)
Definition apply (t : Transform2D) (v : Vec) : Vec :=
  mkVec (t0 t * vx v + t1 t * vy v + t2 t)
        (t3 t * vx v + t4 t * vy v + t5 t).

End Transform.

(** ** p5.CollisionShape and its subclasses

    A shape stores its two transforms and the values recomputed from them by
    [_onTransformChanged]: the world-space centre, the local offset and
    scale, and per subclass the scaled radius (circle), the two half
    diagonals (boxes) and the two face normals (oriented box).  The cached
    [_rotation] is read only by the [rotation] and [scale] accessors, which
    are not part of this development, and is left out. *)

Inductive ShapeExt : Type :=
| PointCollider
| CircleCollider (radius _scaledRadius : R)
| AxisAlignedBoundingBoxCollider (_width _height : R) (hd0 hd1 : Vec)
| OrientedBoundingBoxCollider (_width _height : R) (hd0 hd1 : Vec)
                              (ax0 ax1 : Vec).

Record CollisionShape : Type := mkShape {
  _localTransform : Transform2D;
  _parentTransform : Transform2D;
  _center : Vec;
  _offset : Vec;
  _scale : Vec;
  getsDimensionsFromSprite : bool;
  ext : ShapeExt
}.

Module Shape.

Definition X_AXIS : Vec := mkVec 1 0.
Definition Y_AXIS : Vec := mkVec 0 1.
Definition WORLD_AXES : list Vec := [X_AXIS; Y_AXIS].

(** The [center] getter. *)
Definition center (s : CollisionShape) : Vec := _center s.

Definition isBox (s : CollisionShape) : bool :=
  match ext s with
  | AxisAlignedBoundingBoxCollider _ _ _ _ => true
  | OrientedBoundingBoxCollider _ _ _ _ _ _ => true
  | _ => false
  end.

Definition isCircle (s : CollisionShape) : bool :=
  match ext s with CircleCollider _ _ => true | _ => false end.

(** The [halfDiagonals] getter of the two box classes. *)
Definition halfDiagonals (s : CollisionShape) : Vec * Vec :=
  match ext s with
  | AxisAlignedBoundingBoxCollider _ _ hd0 hd1 => (hd0, hd1)
  | OrientedBoundingBoxCollider _ _ hd0 hd1 _ _ => (hd0, hd1)
  | _ => (Vector.zero, Vector.zero)
  end.

(** *** Recomputing the cached values *)

(** The three corners of the untransformed rectangle that the boxes send
    through the composed transform. *)
Definition corners (w h : R) : Vec * Vec * Vec :=
  (mkVec (w / 2) (- h / 2), mkVec (w / 2) (h / 2), mkVec (- w / 2) (h / 2)).

Definition _computeScaledRadius (l p : Transform2D) (c : Vec) (radius : R) : R :=
  Vector.mag
    (Vector.sub (Transform.apply p (Transform.apply l (mkVec radius 0))) c).

Definition _computeHalfDiagonals (l p : Transform2D) (c : Vec) (w h : R)
  : Vec * Vec :=
  let composedTransform := Transform.mult p l in
  let '(v0, v1, v2) := corners w h in
  let d0 := Vector.sub (Transform.apply composedTransform v0) c in
  let d1 := Vector.sub (Transform.apply composedTransform v1) c in
  let d2 := Vector.sub (Transform.apply composedTransform v2) c in
  let halfWidth := Rmax (Rabs (vx d0)) (Rabs (vx d1)) in
  let halfHeight := Rmax (Rabs (vy d1)) (Rabs (vy d2)) in
  (mkVec halfWidth (- halfHeight), mkVec halfWidth halfHeight).

Definition _onTransformChanged (s : CollisionShape) : CollisionShape :=
  let l := _localTransform s in
  let p := _parentTransform s in
  let scale := Transform.getScale l in
  let offset := Transform.apply l Vector.zero in
  let c := Transform.apply p offset in
  let ext' :=
    match ext s with
    | PointCollider => PointCollider
    | CircleCollider radius _ =>
        CircleCollider radius (_computeScaledRadius l p c radius)
    | AxisAlignedBoundingBoxCollider w h _ _ =>
        let '(hd0, hd1) := _computeHalfDiagonals l p c w h in
        AxisAlignedBoundingBoxCollider w h hd0 hd1
    | OrientedBoundingBoxCollider w h _ _ _ _ =>
        let composedTransform := Transform.mult p l in
        let '(v0, v1, v2) := corners w h in
        let tv0 := Transform.apply composedTransform v0 in
        let tv1 := Transform.apply composedTransform v1 in
        let tv2 := Transform.apply composedTransform v2 in
        OrientedBoundingBoxCollider w h
          (Vector.sub tv0 c) (Vector.sub tv1 c)
          (Vector.sub tv1 tv2) (Vector.sub tv1 tv0)
    end in
  mkShape l p c offset scale (getsDimensionsFromSprite s) ext'.

(** [setParentTransform(parent)] for a [p5.Transform2D] argument. *)
Definition setParentTransform (parent : Transform2D) (s : CollisionShape)
  : CollisionShape :=
  _onTransformChanged
    (mkShape (_localTransform s) parent (_center s) (_offset s) (_scale s)
             (getsDimensionsFromSprite s) (ext s)).

(** Moving the owner of a shape by [v] and refreshing the shape, as the
    resolver does with [position.add(displacement)] and
    [collider.updateFromSprite(this)]: the translation comes on top of the
    parent transform. *)
Definition translateBy (v : Vec) (s : CollisionShape) : CollisionShape :=
  setParentTransform (Transform.translateV v (_parentTransform s)) s.

(** The cached values of a shape are those of its transforms and
    dimensions, as after any call of [_onTransformChanged]. *)
Definition upToDate (s : CollisionShape) : Prop := _onTransformChanged s = s.

(** The base constructor [p5.CollisionShape(center, rotation)] followed by
    the fields of the subclass; [e] carries the dimensions, its cached
    values are recomputed. *)
Definition construct (center : Vec) (rotation : R) (e : ShapeExt)
  : CollisionShape :=
  let l0 := Transform.identity in
  let l1 := if Reqb rotation 0 then l0 else Transform.rotate rotation l0 in
  let l2 := Transform.translateV center l1 in
  _onTransformChanged
    (mkShape l2 Transform.identity Vector.zero Vector.zero (mkVec 1 1)
             false e).

Definition newPointCollider (center : Vec) : CollisionShape :=
  construct center 0 PointCollider.

Definition newCircleCollider (center : Vec) (radius : R) : CollisionShape :=
  construct center 0 (CircleCollider radius 0).

Definition newAxisAlignedBoundingBoxCollider (center : Vec) (w h : R)
  : CollisionShape :=
  construct center 0
    (AxisAlignedBoundingBoxCollider w h Vector.zero Vector.zero).

Definition newOrientedBoundingBoxCollider (center : Vec) (w h rotation : R)
  : CollisionShape :=
  construct center rotation
    (OrientedBoundingBoxCollider w h Vector.zero Vector.zero
                                 Vector.zero Vector.zero).

(** *** The separating-axis test *)

(** The vertex loop of [p5.CircleCollider.prototype._getCandidateAxes]: the
    first of the four vectors whose squared length is the smallest. *)
Definition closer (best v : Vec) : Vec :=
  if Rltb (Vector.magSq v) (Vector.magSq best) then v else best.

Definition axisToClosestVertex (this other : CollisionShape) : Vec :=
  let '(hd0, hd1) := halfDiagonals other in
  let w0 := Vector.sub (Vector.add (center other) hd0) (center this) in
  let w1 := Vector.sub (Vector.add (center other) hd1) (center this) in
  let w2 := Vector.sub (Vector.sub (center other) hd0) (center this) in
  let w3 := Vector.sub (Vector.sub (center other) hd1) (center this) in
  closer (closer (closer w0 w1) w2) w3.

Definition _getCandidateAxes (this other : CollisionShape) : list Vec :=
  match ext this with
  | PointCollider => []
  | CircleCollider _ _ =>
      if isBox other then [axisToClosestVertex this other]
      else [Vector.sub (center other) (center this)]
  | AxisAlignedBoundingBoxCollider _ _ _ _ => WORLD_AXES
  | OrientedBoundingBoxCollider _ _ _ _ ax0 ax1 => [ax0; ax1]
  end.

Definition _getRadiusOnAxis (this : CollisionShape) (axis : Vec) : R :=
  match ext this with
  | PointCollider => 0
  | CircleCollider _ scaledRadius => scaledRadius
  | AxisAlignedBoundingBoxCollider _ _ hd0 hd1
  | OrientedBoundingBoxCollider _ _ hd0 hd1 _ _ =>
      Rmax (Vector.mag (Vector.project hd0 axis))
           (Vector.mag (Vector.project hd1 axis))
  end.

Definition _getMinRadius (this : CollisionShape) : R :=
  match ext this with
  | PointCollider => 0
  | CircleCollider _ scaledRadius => scaledRadius
  | AxisAlignedBoundingBoxCollider w h _ _
  | OrientedBoundingBoxCollider w h _ _ _ _ => Rmin w h
  end.

(** [deduplicateParallelVectors]: an entry is dropped when a later entry
    is parallel to it. *)
Fixpoint deduplicateParallelVectors (array : list Vec) : list Vec :=
  match array with
  | [] => []
  | item :: rest =>
      if existsb (fun other => Vector.isParallel item other
                                 Vector.default_tolerance) rest
      then deduplicateParallelVectors rest
      else item :: deduplicateParallelVectors rest
  end.

Definition replaceZeroAxis (axis : Vec) : Vec :=
  if Vector.isZero axis then X_AXIS else axis.

Definition _getCandidateAxesForShapes (shape1 shape2 : CollisionShape)
  : list Vec :=
  deduplicateParallelVectors
    (map replaceZeroAxis
         (_getCandidateAxes shape1 shape2 ++ _getCandidateAxes shape2 shape1)).

(** The overlap of the two projections on one axis. *)
Definition overlapOnAxis (deltaOfCenters : Vec)
           (displacee displacer : CollisionShape) (axis : Vec) : R :=
  let deltaOfCentersOnAxis := Vector.project deltaOfCenters axis in
  let distanceOfCentersOnAxis := Vector.mag deltaOfCentersOnAxis in
  let r1 := _getRadiusOnAxis displacee axis in
  let r2 := _getRadiusOnAxis displacer axis in
  r1 + r2 - distanceOfCentersOnAxis.

(** The direction kept with a new smallest overlap. *)
Definition directionOnAxis (deltaOfCenters axis : Vec) : Vec :=
  let deltaOfCentersOnAxis := Vector.project deltaOfCenters axis in
  if Vector.isZero deltaOfCentersOnAxis then axis else deltaOfCentersOnAxis.

(** [smallest] is the pair [(smallestOverlap, smallestOverlapAxis)], which
    the loop assigns together; [None] is the initial [(Infinity, null)]. *)
Definition isSmaller (overlap : R) (smallest : option (R * Vec)) : bool :=
  match smallest with
  | None => true
  | Some (smallestOverlap, _) => Rltb overlap smallestOverlap
  end.

(** The loop of [collide] over the candidate axes and its last line.  The
    result [None] is the [TypeError] of [smallestOverlapAxis.copy()] on
    [null]. *)
Fixpoint collideLoop (deltaOfCenters : Vec)
         (displacee displacer : CollisionShape)
         (candidateAxes : list Vec) (smallest : option (R * Vec))
  : option Vec :=
  match candidateAxes with
  | [] =>
      match smallest with
      | None => None
      | Some (smallestOverlap, smallestOverlapAxis) =>
          Some (Vector.setMag smallestOverlapAxis (- smallestOverlap))
      end
  | axis :: rest =>
      let overlap := overlapOnAxis deltaOfCenters displacee displacer axis in
      if Rleb overlap 0 then Some Vector.zero
      else if isSmaller overlap smallest
      then collideLoop deltaOfCenters displacee displacer rest
             (Some (overlap, directionOnAxis deltaOfCenters axis))
      else collideLoop deltaOfCenters displacee displacer rest smallest
  end.

Definition collide (this other : CollisionShape) : option Vec :=
  let displacee := this in
  let displacer := other in
  let deltaOfCenters := Vector.sub (center displacer) (center displacee) in
  let candidateAxes := _getCandidateAxesForShapes displacee displacer in
  collideLoop deltaOfCenters displacee displacer candidateAxes None.

Definition overlap (this other : CollisionShape) : option bool :=
  match collide this other with
  | None => None
  | Some displacement => Some (negb (Vector.isZero displacement))
  end.

Record BoundingBox : Type := mkBoundingBox {
  top : R; bottom : R; left : R; right : R; width : R; height : R
}.

Definition getBoundingBox (this : CollisionShape) : BoundingBox :=
  let radiusOnX := _getRadiusOnAxis this X_AXIS in
  let radiusOnY := _getRadiusOnAxis this Y_AXIS in
  mkBoundingBox
    (vy (center this) - radiusOnY) (vy (center this) + radiusOnY)
    (vx (center this) - radiusOnX) (vx (center this) + radiusOnX)
    (radiusOnX * 2) (radiusOnY * 2).

End Shape.

(** ** Results of operations that can fail

    [TypeError]: the program dereferences [null] or [undefined].
    [NotFinite]: plain arithmetic on a quotient by zero, whose result is
    not a number (in [limitSpeed]).  [OutOfFuel]: the bound given to a loop of the
    model was too small (the theorems below show which bound is enough). *)

Inductive outcome (A : Type) : Type :=
| Done (a : A)
| TypeError
| NotFinite
| OutOfFuel.

Arguments Done {A} a.
Arguments TypeError {A}.
Arguments NotFinite {A}.
Arguments OutOfFuel {A}.

Definition bind {A B : Type} (m : outcome A) (k : A -> outcome B) : outcome B :=
  match m with
  | Done a => k a
  | TypeError => TypeError
  | NotFinite => NotFinite
  | OutOfFuel => OutOfFuel
  end.

Notation "'let*' x ':=' m 'in' k" := (bind m (fun x => k))
  (at level 10, x pattern, m at level 200, k at level 200).

Definition ofOption {A : Type} (o : option A) : outcome A :=
  match o with Some a => Done a | None => TypeError end.

(** ** Sprite: the state the collision code reads and writes

    Sprites without the rendering, input and group bookkeeping.  [animation]
    is the frame size of the current animation when there is one;
    [fixedFrameSizes] is the sketch-wide flag
    [_fixedSpriteAnimationFrameSizes]. *)

Record Touching : Type := mkTouching {
  t_left : bool; t_right : bool; t_top : bool; t_bottom : bool
}.

(** [_sweptCollider]: [undefined] until [setCollider] runs, then an oriented
    box whose [_width] and [_height] are undefined until its first
    [updateSweptColliderFromSprite] ([sweptReady = false]). *)
Inductive SweptCollider : Type :=
| SweptUndefined
| SweptBox (sweptReady : bool) (box : CollisionShape).

Record Sprite : Type := mkSprite {
  position : Vec;
  previousPosition : Vec;
  newPosition : Vec;
  velocity : Vec;
  mass : R;
  immovable : bool;
  restitution : R;
  rotation : R;
  scale : R;
  _internalWidth : R;
  _internalHeight : R;
  _horizontalStretch : R;
  _verticalStretch : R;
  animation : option (R * R);
  fixedFrameSizes : bool;
  removed : bool;
  touching : Touching;
  collider : option CollisionShape;
  _sweptCollider : SweptCollider
}.

Inductive CollisionType : Type :=
| overlap | collide | displace | bounce | bounceOff | isTouching.

Definition CollisionType_eqb (a b : CollisionType) : bool :=
  match a, b with
  | overlap, overlap | collide, collide | displace, displace
  | bounce, bounce | bounceOff, bounceOff | isTouching, isTouching => true
  | _, _ => false
  end.

Module SpriteOps.

(** Field updates. *)
Definition setPosition (p : Vec) (s : Sprite) : Sprite :=
  mkSprite p (previousPosition s) (newPosition s) (velocity s) (mass s)
    (immovable s) (restitution s) (rotation s) (scale s) (_internalWidth s)
    (_internalHeight s) (_horizontalStretch s) (_verticalStretch s)
    (animation s) (fixedFrameSizes s) (removed s) (touching s) (collider s)
    (_sweptCollider s).

Definition setPreviousAndNewPosition (p : Vec) (s : Sprite) : Sprite :=
  mkSprite (position s) p p (velocity s) (mass s)
    (immovable s) (restitution s) (rotation s) (scale s) (_internalWidth s)
    (_internalHeight s) (_horizontalStretch s) (_verticalStretch s)
    (animation s) (fixedFrameSizes s) (removed s) (touching s) (collider s)
    (_sweptCollider s).

Definition setVelocity (v : Vec) (s : Sprite) : Sprite :=
  mkSprite (position s) (previousPosition s) (newPosition s) v (mass s)
    (immovable s) (restitution s) (rotation s) (scale s) (_internalWidth s)
    (_internalHeight s) (_horizontalStretch s) (_verticalStretch s)
    (animation s) (fixedFrameSizes s) (removed s) (touching s) (collider s)
    (_sweptCollider s).

Definition setMass (m : R) (s : Sprite) : Sprite :=
  mkSprite (position s) (previousPosition s) (newPosition s) (velocity s) m
    (immovable s) (restitution s) (rotation s) (scale s) (_internalWidth s)
    (_internalHeight s) (_horizontalStretch s) (_verticalStretch s)
    (animation s) (fixedFrameSizes s) (removed s) (touching s) (collider s)
    (_sweptCollider s).

Definition setTouching (t : Touching) (s : Sprite) : Sprite :=
  mkSprite (position s) (previousPosition s) (newPosition s) (velocity s)
    (mass s) (immovable s) (restitution s) (rotation s) (scale s)
    (_internalWidth s) (_internalHeight s) (_horizontalStretch s)
    (_verticalStretch s) (animation s) (fixedFrameSizes s) (removed s) t
    (collider s) (_sweptCollider s).

Definition setColliders (c : option CollisionShape) (sw : SweptCollider)
           (s : Sprite) : Sprite :=
  mkSprite (position s) (previousPosition s) (newPosition s) (velocity s)
    (mass s) (immovable s) (restitution s) (rotation s) (scale s)
    (_internalWidth s) (_internalHeight s) (_horizontalStretch s)
    (_verticalStretch s) (animation s) (fixedFrameSizes s) (removed s)
    (touching s) c sw.

Definition setColliderShape (c : CollisionShape) (s : Sprite) : Sprite :=
  setColliders (Some c) (_sweptCollider s) s.

(** [radians(degrees)] and [degrees(radians)] of p5. *)
Definition radians (deg : R) : R := deg * PI / 180.
Definition degrees (rad : R) : R := rad * 180 / PI.

(** [Math.atan2(y, x)], up to the sign of its zero results. *)
Definition atan2 (y x : R) : R :=
  if Rltb 0 x then atan (y / x)
  else if Rltb x 0 then
         (if Rleb 0 y then atan (y / x) + PI else atan (y / x) - PI)
  else if Rltb 0 y then PI / 2
  else if Rltb y 0 then - PI / 2
  else 0.

Definition getDirection (s : Sprite) : R :=
  degrees (atan2 (vy (velocity s)) (vx (velocity s))).

Definition _getScaleX (s : Sprite) : R :=
  if fixedFrameSizes s then scale s * _horizontalStretch s else scale s.

Definition _getScaleY (s : Sprite) : R :=
  if fixedFrameSizes s then scale s * _verticalStretch s else scale s.

(** The [width] and [height] getters. *)
Definition width (s : Sprite) : R :=
  match animation s with
  | Some _ => if fixedFrameSizes s
              then _internalWidth s * _horizontalStretch s
              else _internalWidth s
  | None => _internalWidth s
  end.

Definition height (s : Sprite) : R :=
  match animation s with
  | Some _ => if fixedFrameSizes s
              then _internalHeight s * _verticalStretch s
              else _internalHeight s
  | None => _internalHeight s
  end.

(** The size a collider adopts when [getsDimensionsFromSprite] is set. *)
Definition adoptedSize (s : Sprite) : R * R :=
  match animation s with
  | Some (w, h) => (w, h)
  | None => (width s, height s)
  end.

(** [setParentTransform(sprite)]: the sprite's scale, rotation and
    position; a circle takes the larger of the two scales for both axes. *)
Definition parentTransformOf (circle : bool) (s : Sprite) : Transform2D :=
  let sx := if circle then Rmax (_getScaleX s) (_getScaleY s)
            else _getScaleX s in
  let sy := if circle then Rmax (_getScaleX s) (_getScaleY s)
            else _getScaleY s in
  Transform.translateV (position s)
    (Transform.rotate (radians (rotation s))
       (Transform.scale sx sy Transform.identity)).

Definition setParentTransformFromSprite (s : Sprite) (c : CollisionShape)
  : CollisionShape :=
  Shape.setParentTransform (parentTransformOf (Shape.isCircle c) s) c.

Definition withExt (e : ShapeExt) (c : CollisionShape) : CollisionShape :=
  mkShape (_localTransform c) (_parentTransform c) (_center c) (_offset c)
          (_scale c) (getsDimensionsFromSprite c) e.

Definition withGetsDimensions (b : bool) (c : CollisionShape)
  : CollisionShape :=
  mkShape (_localTransform c) (_parentTransform c) (_center c) (_offset c)
          (_scale c) b (ext c).

(** [updateFromSprite(sprite)] of the four classes. *)
Definition updateFromSprite (s : Sprite) (c : CollisionShape)
  : CollisionShape :=
  let c1 :=
    if getsDimensionsFromSprite c then
      let '(w, h) := adoptedSize s in
      match ext c with
      | PointCollider => c
      | CircleCollider _ sr => withExt (CircleCollider (Rmax w h / 2) sr) c
      | AxisAlignedBoundingBoxCollider _ _ hd0 hd1 =>
          withExt (AxisAlignedBoundingBoxCollider w h hd0 hd1) c
      | OrientedBoundingBoxCollider _ _ hd0 hd1 ax0 ax1 =>
          withExt (OrientedBoundingBoxCollider w h hd0 hd1 ax0 ax1) c
      end
    else c in
  setParentTransformFromSprite s c1.

(** [createFromSprite] of the circle and of the oriented box; [None] for a
    dimension stands for an argument that is not a number. *)
Definition createCircleFromSprite (s : Sprite) (offset : Vec)
           (radius : option R) : CollisionShape :=
  let shape := Shape.newCircleCollider offset
                 (match radius with Some r => r | None => 1 end) in
  updateFromSprite s
    (withGetsDimensions (match radius with Some _ => false | None => true end)
                        shape).

Definition createOBBFromSprite (s : Sprite) (offset : Vec)
           (size : option (R * R)) (rotation : R) : CollisionShape :=
  let box := Shape.newOrientedBoundingBoxCollider offset
               (match size with Some (w, _) => w | None => 1 end)
               (match size with Some (_, h) => h | None => 1 end)
               rotation in
  updateFromSprite s
    (withGetsDimensions (match size with Some _ => false | None => true end)
                        box).

(** [new p5.OrientedBoundingBoxCollider()]: identity transforms and
    undefined dimensions.  The corners [_onTransformChanged] builds from
    them are [new p5.Vector(NaN, NaN)], which stores zeros, so the cached
    half diagonals and axes are those of a box of width and height 0 at the
    origin; the dimensions themselves are not read before the first
    [updateSweptColliderFromSprite] sets them. *)
Definition freshSweptBox : CollisionShape :=
  Shape.newOrientedBoundingBoxCollider Vector.zero 0 0 0.

(** [setCollider("circle", offsetX, offsetY, radius)] *)
Definition setColliderCircle (offset : Vec) (radius : option R) (s : Sprite)
  : Sprite :=
  setColliders (Some (createCircleFromSprite s offset radius))
               (SweptBox false freshSweptBox) s.

(** [setDefaultCollider()]: nothing while the animation is still a 1x1
    placeholder, else [setCollider("rectangle")], an oriented box of the
    sprite's size. *)
Definition animationStillLoading (s : Sprite) : bool :=
  match animation s with
  | Some (w, h) => Reqb w 1 && Reqb h 1
  | None => false
  end.

Definition setDefaultCollider (s : Sprite) : Sprite :=
  if animationStillLoading s then s
  else setColliders (Some (createOBBFromSprite s Vector.zero None 0))
                    (SweptBox false freshSweptBox) s.

Definition withScale (v : Vec) (c : CollisionShape) : CollisionShape :=
  mkShape (_localTransform c) (_parentTransform c) (_center c) (_offset c)
          v (getsDimensionsFromSprite c) (ext c).

(** The scale that [_onTransformChanged] caches for the swept box: the
    [getScale] of the local transform [l], whose entries [a] and [d] are
    the old scale factors times the cosine of [newRotation].  For a
    velocity that is exactly vertical the rotation is a quarter turn, where
    the cosine of the reals is zero while [Math.cos] of the floating-point
    angle is a small positive number; the signs that [getScale] takes are
    then those of the old scale factors, and the box keeps its scale. *)
Definition sweptScale (newRotation : R) (oldScale : Vec) (l : Transform2D)
  : Vec :=
  if Reqb (cos newRotation) 0 then
    mkVec (Transform.sign (vx oldScale) * Rabs (vy oldScale))
          (Transform.sign (vy oldScale) * Rabs (vx oldScale))
  else Transform.getScale l.

(** [updateSweptColliderFromSprite(sprite)] on the swept box [this]. *)
Definition updateSweptColliderFromSprite (this : CollisionShape) (s : Sprite)
  : option CollisionShape :=
  match collider s with
  | None => None
  | Some c =>
      let vMagnitude := Vector.mag (velocity s) in
      let vPerpendicular := mkVec (vy (velocity s)) (- vx (velocity s)) in
      let w := vMagnitude + 2 * Shape._getRadiusOnAxis c (velocity s) in
      let h := 2 * Shape._getRadiusOnAxis c vPerpendicular in
      let newRotation := radians (getDirection s) in
      let newCenter := mkVec (vx (newPosition s) + 0.5 * vx (velocity s))
                             (vy (newPosition s) + 0.5 * vy (velocity s)) in
      let l :=
        Transform.translateV newCenter
          (Transform.translateV (Vector.mult (_center this) (-1))
             (Transform.translateV (_offset this)
                (Transform.rotate newRotation
                   (Transform.scale (vx (_scale this)) (vy (_scale this))
                      Transform.identity)))) in
      Some (withScale (sweptScale newRotation (_scale this) l)
              (Shape._onTransformChanged
                 (mkShape l (_parentTransform this) (_center this)
                    (_offset this) (_scale this)
                    (getsDimensionsFromSprite this)
                    (OrientedBoundingBoxCollider w h Vector.zero Vector.zero
                       Vector.zero Vector.zero))))
  end.

(** The first lines of [update()]: the swept box follows a moving sprite. *)
Definition updateSwept (s : Sprite) : outcome Sprite :=
  match _sweptCollider s with
  | SweptUndefined => Done s
  | SweptBox _ box =>
      if Rltb 0 (Vector.magSq (velocity s)) then
        let* box' := ofOption (updateSweptColliderFromSprite box s) in
        Done (setColliders (collider s) (SweptBox true box') s)
      else Done s
  end.

(** [_getBroadPhaseCollider()]; [None] when the result is [undefined].  A
    moving sprite answers with its swept box whether or not that box has
    been updated yet. *)
Definition _getBroadPhaseCollider (s : Sprite) : option CollisionShape :=
  if Rltb 0 (Vector.magSq (velocity s)) then
    match _sweptCollider s with
    | SweptBox _ box => Some box
    | SweptUndefined => None
    end
  else collider s.

(** [_doSweptCollidersOverlap(target)]: a [TypeError] when a broad phase
    collider is [undefined] or when both are points. *)
Definition _doSweptCollidersOverlap (this target : Sprite) : outcome bool :=
  let* a := ofOption (_getBroadPhaseCollider this) in
  let* b := ofOption (_getBroadPhaseCollider target) in
  let* displacement := ofOption (Shape.collide a b) in
  Done (negb (Vector.isZero displacement)).

(** [update()] for a sprite with the default friction, speed limit,
    rotation speed and life, no animation and no mouse handlers: the swept
    box follows the velocity, the position recorded by the last update is
    kept as the previous one, the sprite moves by its velocity and the
    collider follows. *)
Definition update (s : Sprite) : outcome Sprite :=
  if removed s then Done s
  else
    let* s1 := updateSwept s in
    let p := Vector.add (position s1) (velocity s1) in
    let s2 :=
      mkSprite p (newPosition s1) p (velocity s1) (mass s1) (immovable s1)
        (restitution s1) (rotation s1) (scale s1) (_internalWidth s1)
        (_internalHeight s1) (_horizontalStretch s1) (_verticalStretch s1)
        (animation s1) (fixedFrameSizes s1) (removed s1) (touching s1)
        (collider s1) (_sweptCollider s1) in
    match collider s2 with
    | Some c => Done (setColliderShape (updateFromSprite s2 c) s2)
    | None => Done s2
    end.

End SpriteOps.

(** ** The collision resolver of Sprite *)

Module Resolver.

Import SpriteOps.

(** [Math.max(0.015, radiusOnVelocityAxis / relativeVelocity)].  The
    relative speed is a length, so it is never negative; when it is zero
    the quotient is [Infinity], undefined or [-Infinity] according to the
    sign of the radius.  [None] stands for a sub-step size that is infinite
    or undefined, for which the test [timestep < 1] is false. *)
Definition floor_timestep : R := 15 / 1000.

Definition timestepOf (radiusOnVelocityAxis relativeVelocity : R) : option R :=
  if Reqb relativeVelocity 0 then
    if Rltb radiusOnVelocityAxis 0 then Some floor_timestep else None
  else Some (Rmax floor_timestep (radiusOnVelocityAxis / relativeVelocity)).

Definition subStepSize (this target : Sprite) : outcome (option R) :=
  let* c1 := ofOption (collider this) in
  let* c2 := ofOption (collider target) in
  let radiusOnVelocityAxis :=
    Rmax (Shape._getMinRadius c1) (Shape._getMinRadius c2) in
  let relativeVelocity :=
    Vector.mag (Vector.sub (velocity this) (velocity target)) in
  Done (timestepOf radiusOnVelocityAxis relativeVelocity).

(** The sub-step size as the specification words it, with the smaller of
    the two minimum radii; it is compared with [subStepSize] below. *)
Definition subStepSize_spec (this target : Sprite) : outcome (option R) :=
  let* c1 := ofOption (collider this) in
  let* c2 := ofOption (collider target) in
  let radiusOnVelocityAxis :=
    Rmin (Shape._getMinRadius c1) (Shape._getMinRadius c2) in
  let relativeVelocity :=
    Vector.mag (Vector.sub (velocity this) (velocity target)) in
  Done (timestepOf radiusOnVelocityAxis relativeVelocity).

(** [this.collider.updateFromSprite(this)] *)
Definition refreshCollider (s : Sprite) : outcome Sprite :=
  let* c := ofOption (collider s) in
  Done (setColliderShape (updateFromSprite s c) s).

(** The loop [for (i = timestep; i < 1; i += timestep)].  It returns the
    displacement of the first sub-step in which the colliders overlap, or
    [None] when it runs to its end. *)
Fixpoint subSteps (fuel : nat) (i timestep : R) (thisDelta targetDelta : Vec)
         (thisOriginalPosition targetOriginalPosition : Vec)
         (this target : Sprite) : outcome (option Vec * Sprite * Sprite) :=
  match fuel with
  | O => OutOfFuel
  | S fuel' =>
      if Rltb i 1 then
        let this1 := setPosition (Vector.add (position this) thisDelta) this in
        let target1 :=
          setPosition (Vector.add (position target) targetDelta) target in
        let* this2 := refreshCollider this1 in
        let* target2 := refreshCollider target1 in
        let* c1 := ofOption (collider this2) in
        let* c2 := ofOption (collider target2) in
        let* displacement := ofOption (Shape.collide c1 c2) in
        if negb (Vector.isZero displacement) then
          let this3 := if immovable this2
                       then setPosition thisOriginalPosition this2
                       else this2 in
          let target3 := if immovable target2
                         then setPosition targetOriginalPosition target2
                         else target2 in
          Done (Some displacement, this3, target3)
        else
          subSteps fuel' (i + timestep) timestep thisDelta targetDelta
                   thisOriginalPosition targetOriginalPosition this2 target2
      else Done (None, this, target)
  end.

(** The last lines of [_findDisplacement]: one test at the current
    positions. *)
Definition finalCheck (this target : Sprite) : outcome (Vec * Sprite * Sprite) :=
  let* this1 := refreshCollider this in
  let* target1 := refreshCollider target in
  let* c1 := ofOption (collider this1) in
  let* c2 := ofOption (collider target1) in
  let* displacement := ofOption (Shape.collide c1 c2) in
  Done (displacement, this1, target1).

(** [this._findDisplacement(target)]: the displacement and the two sprites
    as the call leaves them. *)
Definition _findDisplacement (fuel : nat) (this target : Sprite)
  : outcome (Vec * Sprite * Sprite) :=
  let* swept := _doSweptCollidersOverlap this target in
  if swept then
    let* timestep := subStepSize this target in
    match timestep with
    | Some timestep =>
        if Rltb timestep 1 then
          let thisOriginalPosition := position this in
          let targetOriginalPosition := position target in
          let this0 := setPosition (previousPosition this) this in
          let target0 := setPosition (previousPosition target) target in
          let thisDelta :=
            Vector.mult (Vector.sub thisOriginalPosition
                                    (previousPosition this)) timestep in
          let targetDelta :=
            Vector.mult (Vector.sub targetOriginalPosition
                                    (previousPosition target)) timestep in
          let* r := subSteps fuel timestep timestep thisDelta targetDelta
                      thisOriginalPosition targetOriginalPosition
                      this0 target0 in
          match r with
          | (Some displacement, this1, target1) =>
              Done (displacement, this1, target1)
          | (None, this1, target1) =>
              finalCheck (setPosition thisOriginalPosition this1)
                         (setPosition targetOriginalPosition target1)
          end
        else finalCheck this target
    | None => finalCheck this target
    end
  else finalCheck this target.

(** A bound on the number of sub-steps that is always enough. *)
Definition maxSubSteps : nat := 67.

(** The caller's callback is code of the sketch; the model records each of
    its calls with the references of the two sprites it receives. *)
Definition CallLog : Type := list (nat * nat).

Definition touchingAfter (displacement : Vec) (t : Touching) : Touching :=
  mkTouching
    (if Rltb 0 (vx displacement) then true else t_left t)
    (if Rltb (vx displacement) 0 then true else t_right t)
    (if Rltb 0 (vy displacement) then true else t_top t)
    (if Rltb (vy displacement) 0 then true else t_bottom t).

(** The velocity response of a bounce along [displacement]; [otherImmovable]
    and [otherRestitution] are the values in force during the computation.
    When the two masses add up to zero [div] leaves both sums undivided. *)
Definition bounceVelocities (displacement : Vec) (this other : Sprite)
           (otherImmovable : bool) (otherRestitution : R)
  : outcome (Vec * Vec) :=
  let thisInitialVelocity := Vector.project (velocity this) displacement in
  let otherInitialVelocity := Vector.project (velocity other) displacement in
  let thisMass := if immovable this then 1
                  else if otherImmovable then 0 else mass this in
  let otherMass := if immovable this then 0
                   else if otherImmovable then 1 else mass other in
  let combinedMass := thisMass + otherMass in
  let coefficientOfRestitution := restitution this * otherRestitution in
  let initialMomentum :=
    Vector.add (Vector.mult thisInitialVelocity thisMass)
               (Vector.mult otherInitialVelocity otherMass) in
  let thisFinalVelocity :=
    Vector.div
      (Vector.add
         (Vector.mult (Vector.sub otherInitialVelocity thisInitialVelocity)
                      (otherMass * coefficientOfRestitution))
         initialMomentum)
      combinedMass in
  let otherFinalVelocity :=
    Vector.div
      (Vector.add
         (Vector.mult (Vector.sub thisInitialVelocity otherInitialVelocity)
                      (thisMass * coefficientOfRestitution))
         initialMomentum)
      combinedMass in
  Done (Vector.add (Vector.sub (velocity this) thisInitialVelocity)
                   thisFinalVelocity,
        Vector.add (Vector.sub (velocity other) otherInitialVelocity)
                   otherFinalVelocity).

Definition movesCaller (type : CollisionType) : bool :=
  match type with
  | collide | bounce | bounceOff => true
  | _ => false
  end.

(** The displacement out of the collision: [displace] moves the other
    sprite, [collide], [bounce] and [bounceOff] move the caller. *)
Definition displaceOut (type : CollisionType) (displacement : Vec)
           (this other : Sprite) : outcome (Sprite * Sprite) :=
  if CollisionType_eqb type displace && negb (immovable other)
  then Done (this,
             setPosition (Vector.sub (position other) displacement) other)
  else if movesCaller type && negb (immovable this)
  then
    let p := Vector.add (position this) displacement in
    let* this' :=
      refreshCollider (setPreviousAndNewPosition p (setPosition p this)) in
    Done (this', other)
  else Done (this, other).

(** The velocity response.  [collide] and [bounceOff] are computed as a
    bounce with the other sprite immovable for the time of the computation,
    [collide] also with its restitution at zero. *)
Definition velocityResponse (type : CollisionType) (displacement : Vec)
           (this other : Sprite) : outcome (Sprite * Sprite) :=
  let isBounce := match type with
                  | collide | bounce | bounceOff => true
                  | _ => false
                  end in
  let otherImmovable := match type with
                        | collide | bounceOff => true
                        | _ => immovable other
                        end in
  let otherRestitution := match type with
                          | collide => 0
                          | _ => restitution other
                          end in
  if isBounce then
    let* vs := bounceVelocities displacement this other
                 otherImmovable otherRestitution in
    Done (setVelocity (fst vs) this, setVelocity (snd vs) other)
  else Done (this, other).

(** The call of the callback at the end of [_collideWithOne]. *)
Definition callCallback (type : CollisionType) (callback : bool)
           (thisRef otherRef : nat) (log : CallLog) : CallLog :=
  if callback && negb (CollisionType_eqb type isTouching)
  then log ++ [(thisRef, otherRef)] else log.

Definition withDefaultCollider (s : Sprite) : Sprite :=
  match collider s with
  | None => setDefaultCollider s
  | Some _ => s
  end.

(** The body of [_collideWithOne] for two different sprites; [thisRef] and
    [otherRef] are their references, [callback] tells whether the caller
    passed a function. *)
Definition collideWithOther (fuel : nat) (type : CollisionType)
           (thisRef otherRef : nat) (this other : Sprite) (callback : bool)
           (log : CallLog)
  : outcome (bool * Sprite * Sprite * CallLog) :=
  if removed other then Done (false, this, other, log)
  else
    let this1 := withDefaultCollider this in
    let other1 := withDefaultCollider other in
    match collider this1, collider other1 with
    | Some _, Some _ =>
        let* r := _findDisplacement fuel this1 other1 in
        let '(displacement, this2, other2) := r in
        if Vector.isZero displacement then Done (false, this2, other2, log)
        else
          let this3 :=
            setTouching (touchingAfter displacement (touching this2)) this2 in
          let* moved := displaceOut type displacement this3 other2 in
          let* bounced :=
            velocityResponse type displacement (fst moved) (snd moved) in
          Done (true, fst bounced, snd bounced,
                callCallback type callback thisRef otherRef log)
    | _, _ => Done (false, this1, other1, log)
    end.

(** The sprites of the sketch by reference, and the calls made so far. *)
Record World : Type := mkWorld {
  sprites : nat -> Sprite;
  calls : CallLog
}.

Definition store (ref : nat) (s : Sprite) (f : nat -> Sprite) : nat -> Sprite :=
  fun r => if Nat.eqb r ref then s else f r.

(** [this._collideWithOne(type, other, callback)] *)
Definition _collideWithOne (fuel : nat) (type : CollisionType)
           (this other : nat) (callback : bool) (w : World)
  : outcome (bool * World) :=
  if Nat.eqb other this then Done (false, w)
  else
    let* r := collideWithOther fuel type this other
                (sprites w this) (sprites w other) callback (calls w) in
    let '(result, this', other', log') := r in
    Done (result,
          mkWorld (store other other' (store this this' (sprites w))) log').

Definition clearTouching (s : Sprite) : Sprite :=
  setTouching (mkTouching false false false false) s.

(** The loop of [_collideWith] over the candidates. *)
Fixpoint collideWithAll (fuel : nat) (type : CollisionType) (this : nat)
         (others : list nat) (callback : bool) (result : bool) (w : World)
  : outcome (bool * World) :=
  match others with
  | [] => Done (result, w)
  | other :: rest =>
      let* r := _collideWithOne fuel type this other callback w in
      collideWithAll fuel type this rest callback (fst r || result) (snd r)
  end.

(** The target of a query: one sprite, or a group.  For a group
    [retrieved] is what the quadtree gave for it (nothing when the quadtree
    is switched off), and the whole group is used when that is empty. *)
Inductive Target : Type :=
| TargetSprite (ref : nat)
| TargetGroup (group retrieved : list nat).

Definition _collideWith (fuel : nat) (type : CollisionType) (this : nat)
           (target : Target) (callback : bool) (w : World)
  : outcome (bool * World) :=
  let w1 := mkWorld (store this (clearTouching (sprites w this)) (sprites w))
                    (calls w) in
  if removed (sprites w this) then Done (false, w1)
  else
    let others := match target with
                  | TargetSprite ref => [ref]
                  | TargetGroup group retrieved =>
                      match retrieved with
                      | [] => group
                      | _ => retrieved
                      end
                  end in
    collideWithAll fuel type this others callback false w1.

(** The public entry points.  [isTouching] is the same function object as
    [overlap]. *)
Definition Sprite_overlap fuel this target callback w :=
  _collideWith fuel overlap this target callback w.
Definition Sprite_isTouching := Sprite_overlap.
Definition Sprite_collide fuel this target callback w :=
  _collideWith fuel collide this target callback w.
Definition Sprite_displace fuel this target callback w :=
  _collideWith fuel displace this target callback w.
Definition Sprite_bounce fuel this target callback w :=
  _collideWith fuel bounce this target callback w.
Definition Sprite_bounceOff fuel this target callback w :=
  _collideWith fuel bounceOff this target callback w.

End Resolver.

(** ** Quadtree

    The tree holds references to sprites.  A reference is a number;
    [boxOf ref] is [pRect.collider.getBoundingBox()] for the sprite behind it,
    or [None] when that sprite has no collider.  A node has either no
    sub-nodes or the four that [split] creates. *)

Module Quadtree.

Record Bounds : Type := mkBounds {
  b_x : R; b_y : R; b_width : R; b_height : R
}.

Inductive Quadtree : Type :=
| Leaf (bounds : Bounds) (max_objects max_levels level : nat)
       (objects : list nat)
| Branch (bounds : Bounds) (max_objects max_levels level : nat)
         (objects : list nat) (n0 n1 n2 n3 : Quadtree).

Definition bounds (t : Quadtree) : Bounds :=
  match t with Leaf b _ _ _ _ => b | Branch b _ _ _ _ _ _ _ _ => b end.
Definition max_objects (t : Quadtree) : nat :=
  match t with Leaf _ m _ _ _ => m | Branch _ m _ _ _ _ _ _ _ => m end.
Definition max_levels (t : Quadtree) : nat :=
  match t with Leaf _ _ m _ _ => m | Branch _ _ m _ _ _ _ _ _ => m end.
Definition level (t : Quadtree) : nat :=
  match t with Leaf _ _ _ l _ => l | Branch _ _ _ l _ _ _ _ _ => l end.
Definition objects (t : Quadtree) : list nat :=
  match t with Leaf _ _ _ _ o => o | Branch _ _ _ _ o _ _ _ _ => o end.

Record Nodes : Type := mkNodes {
  node0 : Quadtree; node1 : Quadtree; node2 : Quadtree; node3 : Quadtree
}.

(** [new Quadtree(bounds, max_objects, max_levels, level)]: a zero for
    either limit is replaced by the default. *)
Definition newQuadtree (b : Bounds) (max_objects max_levels level : nat)
  : Quadtree :=
  Leaf b (if Nat.eqb max_objects 0 then 10%nat else max_objects)
         (if Nat.eqb max_levels 0 then 4%nat else max_levels)
         level [].

(** [Math.round] *)
Definition round (x : R) : R := IZR (Int_part (x + / 2)).

(** The four sub-nodes made by [split]. *)
Definition split (b : Bounds) (max_objects max_levels level : nat) : Nodes :=
  let nextLevel := S level in
  let subWidth := round (b_width b / 2) in
  let subHeight := round (b_height b / 2) in
  let x := round (b_x b) in
  let y := round (b_y b) in
  mkNodes
    (newQuadtree (mkBounds (x + subWidth) y subWidth subHeight)
                 max_objects max_levels nextLevel)
    (newQuadtree (mkBounds x y subWidth subHeight)
                 max_objects max_levels nextLevel)
    (newQuadtree (mkBounds x (y + subHeight) subWidth subHeight)
                 max_objects max_levels nextLevel)
    (newQuadtree (mkBounds (x + subWidth) (y + subHeight) subWidth subHeight)
                 max_objects max_levels nextLevel).

Definition nodeAt (index : Z) (ns : Nodes) : Quadtree :=
  match index with
  | 0%Z => node0 ns
  | 1%Z => node1 ns
  | 2%Z => node2 ns
  | _ => node3 ns
  end.

Definition setNodeAt (index : Z) (n : Quadtree) (ns : Nodes) : Nodes :=
  match index with
  | 0%Z => mkNodes n (node1 ns) (node2 ns) (node3 ns)
  | 1%Z => mkNodes (node0 ns) n (node2 ns) (node3 ns)
  | 2%Z => mkNodes (node0 ns) (node1 ns) n (node3 ns)
  | _ => mkNodes (node0 ns) (node1 ns) (node2 ns) n
  end.

Definition indexOf (obj : nat) (l : list nat) : bool :=
  existsb (Nat.eqb obj) l.

Section WithBoxes.

Variable boxOf : nat -> option Shape.BoundingBox.

(** [getIndex(pRect)]: the quadrant that holds the whole box, or -1. *)
Definition getIndex (b : Bounds) (pRect : nat) : Z :=
  match boxOf pRect with
  | None => (-1)%Z
  | Some colliderBounds =>
      let verticalMidpoint := b_x b + b_width b / 2 in
      let horizontalMidpoint := b_y b + b_height b / 2 in
      let topQuadrant :=
        Rltb (Shape.top colliderBounds) horizontalMidpoint
        && Rltb (Shape.bottom colliderBounds) horizontalMidpoint in
      let bottomQuadrant :=
        Rltb horizontalMidpoint (Shape.top colliderBounds) in
      if Rltb (Shape.left colliderBounds) verticalMidpoint
         && Rltb (Shape.right colliderBounds) verticalMidpoint
      then (if topQuadrant then 1%Z
            else if bottomQuadrant then 2%Z else (-1)%Z)
      else if Rltb verticalMidpoint (Shape.left colliderBounds)
      then (if topQuadrant then 0%Z
            else if bottomQuadrant then 3%Z else (-1)%Z)
      else (-1)%Z
  end.

(** The [while] loop of [insert] that hands the objects of a node to its
    sub-nodes: [kept] are the objects already passed over, [ins] is
    [insert] on a sub-node. *)
Fixpoint redistribute (ins : Quadtree -> nat -> option Quadtree)
         (b : Bounds) (pending kept : list nat) (ns : Nodes)
  : option (list nat * Nodes) :=
  match pending with
  | [] => Some (kept, ns)
  | obj :: rest =>
      let index := getIndex b obj in
      if Z.eqb index (-1) then redistribute ins b rest (kept ++ [obj]) ns
      else
        match ins (nodeAt index ns) obj with
        | None => None
        | Some n => redistribute ins b rest kept (setNodeAt index n ns)
        end
  end.

(** [insert(obj)]; [None] when [fuel], the bound on the depth of the
    recursion, is used up. *)
Fixpoint insert (fuel : nat) (t : Quadtree) (obj : nat) : option Quadtree :=
  match fuel with
  | O => None
  | S fuel' =>
      if indexOf obj (objects t) then Some t
      else
        let pushed (ns : option Nodes) :=
          let b := bounds t in
          let objs := objects t ++ [obj] in
          if Nat.ltb (max_objects t) (length objs)
             && Nat.ltb (level t) (max_levels t)
          then
            let ns' := match ns with
                       | Some ns => ns
                       | None => split b (max_objects t) (max_levels t)
                                       (level t)
                       end in
            match redistribute (insert fuel') b objs [] ns' with
            | None => None
            | Some (kept, ns'') =>
                Some (Branch b (max_objects t) (max_levels t) (level t)
                             kept (node0 ns'') (node1 ns'') (node2 ns'')
                             (node3 ns''))
            end
          else
            Some (match ns with
                  | None => Leaf b (max_objects t) (max_levels t) (level t)
                                 objs
                  | Some ns =>
                      Branch b (max_objects t) (max_levels t) (level t)
                             objs (node0 ns) (node1 ns) (node2 ns)
                             (node3 ns)
                  end) in
        match t with
        | Leaf _ _ _ _ _ => pushed None
        | Branch b mo ml l objs n0 n1 n2 n3 =>
            let ns := mkNodes n0 n1 n2 n3 in
            let index := getIndex b obj in
            if Z.eqb index (-1) then pushed (Some ns)
            else
              match insert fuel' (nodeAt index ns) obj with
              | None => None
              | Some n =>
                  let ns' := setNodeAt index n ns in
                  Some (Branch b mo ml l objs (node0 ns') (node1 ns')
                               (node2 ns') (node3 ns'))
              end
        end
  end.

(** [retrieve(pRect)] *)
Fixpoint retrieve (t : Quadtree) (pRect : nat) : list nat :=
  match t with
  | Leaf _ _ _ _ objs => objs
  | Branch b _ _ _ objs n0 n1 n2 n3 =>
      let index := getIndex b pRect in
      if Z.eqb index (-1)
      then (((objs ++ retrieve n0 pRect) ++ retrieve n1 pRect)
              ++ retrieve n2 pRect) ++ retrieve n3 pRect
      else objs ++ retrieve (nodeAt index (mkNodes n0 n1 n2 n3)) pRect
  end.

Definition retrieveFromGroup (t : Quadtree) (pRect : nat)
           (group : list nat) : list nat :=
  filter (fun candidate => indexOf candidate group) (retrieve t pRect).

(** Inserting a list of objects one after the other. *)
Fixpoint insertAll (fuel : nat) (t : Quadtree) (objs : list nat)
  : option Quadtree :=
  match objs with
  | [] => Some t
  | obj :: rest =>
      match insert fuel t obj with
      | None => None
      | Some t' => insertAll fuel t' rest
      end
  end.

End WithBoxes.

(** [getAll()] *)
Fixpoint getAll (t : Quadtree) : list nat :=
  match t with
  | Leaf _ _ _ _ objs => objs
  | Branch _ _ _ _ objs n0 n1 n2 n3 =>
      (((objs ++ getAll n0) ++ getAll n1) ++ getAll n2) ++ getAll n3
  end.

(** [clear()] *)
Definition clear (t : Quadtree) : Quadtree :=
  Leaf (bounds t) (max_objects t) (max_levels t) (level t) [].

(** [cleanup()] *)
Definition cleanup (boxOf : nat -> option Shape.BoundingBox) (fuel : nat)
           (t : Quadtree) : option Quadtree :=
  let objs := getAll t in
  insertAll boxOf fuel (clear t) objs.

(** Two bounding boxes that have a point in common. *)
Definition intersects (a b : Shape.BoundingBox) : Prop :=
  Shape.left a <= Shape.right b /\ Shape.left b <= Shape.right a
  /\ Shape.top a <= Shape.bottom b /\ Shape.top b <= Shape.bottom a.

(** The depth of recursion that [insert] can reach from a node up to the
    deepest level. *)
Definition depthBound (t : Quadtree) : nat := S (max_levels t - level t).

End Quadtree.

(** ** Predicates and scenarios used in the statements below *)

Module Scenario.

Import SpriteOps Resolver.

(** [createSprite(x, y)]: a sprite at rest with the default size, mass and
    restitution and no collider yet. *)
Definition createSprite (x y : R) : Sprite :=
  mkSprite (mkVec x y) (mkVec x y) (mkVec x y) Vector.zero 1 false 1 0 1
           100 100 1 1 None false false (mkTouching false false false false)
           None SweptUndefined.

(** A sprite created at [(x, y)] with a circle collider of radius [r] and
    velocity [(vx, vy)], before its first update. *)
Definition circleSprite (x y r vx vy : R) : Sprite :=
  setVelocity (mkVec vx vy)
    (setColliderCircle Vector.zero (Some r) (createSprite x y)).

(** The tunnelling scenario: a circle of radius 1 leaves (0,0) with velocity
    (100,0), a circle of radius 1 rests at (50,0). *)
Definition bullet0 : Sprite := circleSprite 0 0 1 100 0.
Definition wall0 : Sprite := circleSprite 50 0 1 0 0.

(** The same with a resting circle of radius 3. *)
Definition bigWall0 : Sprite := circleSprite 50 0 3 0 0.

(** A sprite after its next update. *)
Definition updated (s : Sprite) : Sprite :=
  match update s with Done s' => s' | _ => s end.

Definition bullet : Sprite := updated bullet0.
Definition wall : Sprite := updated wall0.
Definition bigWall : Sprite := updated bigWall0.

(** The tunnelling scenario with two sprites of mass 0. *)
Definition lightBullet : Sprite := setMass 0 bullet.
Definition lightWall : Sprite := setMass 0 wall.

(** The first query of a sprite that was just created and given a
    velocity: a circle sprite of radius 1 at the origin with velocity
    (100,0) and a resting one at the same place, neither updated yet, so
    that the swept box of the first is the fresh one of [setCollider]. *)
Definition newcomer : Sprite := circleSprite 0 0 1 100 0.
Definition host : Sprite := circleSprite 0 0 1 0 0.

(** Two circles of radius 1 at rest, one unit apart. *)
Definition restingA : Sprite := updated (circleSprite 0 0 1 0 0).
Definition restingB : Sprite := updated (circleSprite 1 0 1 0 0).

(** A world with [a] behind reference 0 and [b] behind every other
    reference. *)
Definition twoSprites (a b : Sprite) : World :=
  mkWorld (fun ref => if Nat.eqb ref 0 then a else b) [].

(** A pair on which the displacement of [collide] does not separate: an
    oriented box of width [2e-14] and height 2 at the origin, and a circle
    of radius 3 at (1, 0.5). *)
Definition thinBox : CollisionShape :=
  Shape.newOrientedBoundingBoxCollider
    (mkVec 0 0) (2 * Vector.default_tolerance) 2 0.

Definition bigCircle : CollisionShape :=
  Shape.newCircleCollider (mkVec 1 (1 / 2)) 3.

(** The circles of the example in the specification. *)
Definition circleA : CollisionShape := Shape.newCircleCollider (mkVec 0 0) 5.
Definition circleB : CollisionShape := Shape.newCircleCollider (mkVec 8 0) 4.

(** A pair in which no circle meets a box. *)
Definition noCircleOnBox (a b : CollisionShape) : Prop :=
  (Shape.isCircle a && Shape.isBox b) || (Shape.isBox a && Shape.isCircle b)
  = false.

(** Boxes for a quadtree example: the sprite behind reference [n] has the
    square box from [(n, n)] to [(n + 2, n + 2)]. *)
Definition exampleBoxes (n : nat) : option Shape.BoundingBox :=
  Some (Shape.mkBoundingBox (INR n) (INR n + 2) (INR n) (INR n + 2) 2 2).

Definition exampleRoot : Quadtree.Quadtree :=
  Quadtree.newQuadtree (Quadtree.mkBounds 0 0 100 100) 10 4 0.

End Scenario.

(** ** Notions used by the statements

    Abbreviations for states of the embedding that the properties below
    refer to; none of them is a function of the program. *)

Module Notions.

(** The vector from the centre of [a] to the centre of [b]. *)
Definition delta (a b : CollisionShape) : Vec :=
  Vector.sub (Shape.center b) (Shape.center a).

(** [a'] is [a] moved by [v]: the centre is translated and the cached
    values of the subclass are the same. *)
Definition movedBy (v : Vec) (a a' : CollisionShape) : Prop :=
  Shape.center a' = Vector.add (Shape.center a) v /\ ext a' = ext a.

(** The axis tested for two circles or points whose centres differ by
    [d]. *)
Definition central (d : Vec) : Vec :=
  if Vector.isZero d then Shape.X_AXIS else d.

(** Everything in a sprite but its position and its collider. *)
Definition body (s : Sprite) :=
  (previousPosition s, newPosition s, velocity s, mass s, immovable s,
   restitution s, rotation s, scale s, _internalWidth s, _internalHeight s,
   _horizontalStretch s, _verticalStretch s, animation s, fixedFrameSizes s,
   removed s, touching s, _sweptCollider s).

(** The dynamic attributes of a sprite. *)
Definition dynamics (s : Sprite) : Vec * R * bool * R :=
  (velocity s, mass s, immovable s, restitution s).

(** A sprite with no rotation and scale one. *)
Definition plainSprite (s : Sprite) : Prop :=
  rotation s = 0 /\ scale s = 1 /\ fixedFrameSizes s = false.

(** A circle collider of radius [r] at the centre of its sprite. *)
Definition plainCircle (r : R) (c : CollisionShape) : Prop :=
  _localTransform c = Transform.identity
  /\ getsDimensionsFromSprite c = false
  /\ exists sr, ext c = CircleCollider r sr.

(** A sprite whose collider is such a circle, already placed at the sprite's
    position. *)
Definition circleAt (r : R) (s : Sprite) : Prop :=
  plainSprite s
  /\ exists c, collider s = Some c /\ plainCircle r c.

(** The position after [j] sub-steps. *)
Definition after (p d : Vec) (j : nat) : Vec :=
  Vector.add p (Vector.mult d (INR j)).

(** The displacement of two circles of radii [r1] and [r2] placed at [p1]
    and [p2] that overlap. *)
Definition circleDisplacement (r1 r2 : R) (p1 p2 : Vec) : Vec :=
  let d := Vector.sub p2 p1 in
  Vector.setMag (if Vector.isZero d then Shape.X_AXIS else d)
                (- (Rabs r1 + Rabs r2 - Vector.mag d)).

(** What the lemmas use of the moving sprite of the tunnelling scenario,
    and of a circle sprite at rest at [(x, 0)]. *)
Definition bulletLike (a : Sprite) : Prop :=
  circleAt 1 a
  /\ position a = mkVec 100 0
  /\ previousPosition a = mkVec 0 0
  /\ velocity a = mkVec 100 0
  /\ immovable a = false
  /\ removed a = false
  /\ (exists c, collider a = Some c /\ Shape.center c = mkVec 100 0
                /\ ext c = CircleCollider 1 (Rabs 1))
  /\ (exists box, _sweptCollider a = SweptBox true box
                  /\ Shape.isBox box = true
                  /\ Shape.center box = mkVec 50 0).

Definition restingWith (m e x r : R) (s : Sprite) : Prop :=
  circleAt r s
  /\ position s = mkVec x 0
  /\ previousPosition s = mkVec x 0
  /\ velocity s = Vector.zero
  /\ immovable s = false /\ mass s = m /\ restitution s = e
  /\ removed s = false
  /\ (exists c, collider s = Some c /\ Shape.center c = mkVec x 0
                /\ ext c = CircleCollider r (Rabs r)).

Definition restingLike (x r : R) (s : Sprite) : Prop := restingWith 1 1 x r s.

(** The call returns or throws a [TypeError]: the loop of the model was
    given enough rounds and no result is an undefined number. *)
Definition returnsOrThrows {A : Type} (m : outcome A) : Prop :=
  match m with
  | Done _ | TypeError => True
  | NotFinite | OutOfFuel => False
  end.

(** The calls that a test with result [r] adds to the log. *)
Definition callsOf (type : CollisionType) (callback : bool) (this other : nat)
           (r : bool) : Resolver.CallLog :=
  if r && callback && negb (CollisionType_eqb type isTouching)
  then [(this, other)] else [].

(** The candidates of a query with the result of the test of each. *)
Definition hits (others : list nat) (results : list bool) : list nat :=
  map fst (filter snd (combine others results)).

(** The cached values of the thin box of the scenario, the placement of
    that box at [(px, 0)] facing the circle of radius 3 at [(1, 1/2)], the
    vector from the centre of the circle to the closest corner of the box,
    and the abscissa of the box after it is moved. *)
Definition thinExt : ShapeExt :=
  OrientedBoundingBoxCollider (2 * Vector.default_tolerance) 2
    (mkVec Vector.default_tolerance (-1)) (mkVec Vector.default_tolerance 1)
    (mkVec (2 * Vector.default_tolerance) 0) (mkVec 0 2).

Definition placed (px : R) (a b : CollisionShape) : Prop :=
  Shape.center a = mkVec px 0 /\ ext a = thinExt
  /\ Shape.center b = mkVec 1 (1 / 2) /\ ext b = CircleCollider 3 (Rabs 3).

Definition vertexAxis (px : R) : Vec :=
  mkVec (px + Vector.default_tolerance - 1) (1 / 2).

Definition movedCentre : R := - (2 + Vector.default_tolerance).

End Notions.

(** ** The invariant of the quadtree *)

Module QuadtreeInvariant.

Import Quadtree.

Section WithBoxes.

Variable boxOf : nat -> option Shape.BoundingBox.

(** What [insert] keeps true of a tree: sub-nodes exist only below the
    deepest level, they are one level down, and every object stored under
    sub-node [k] has index [k] in its parent. *)
Definition okChild (b : Bounds) (l ml : nat) (k : Z) (good : Prop)
           (n : Quadtree) : Prop :=
  level n = S l /\ max_levels n = ml
  /\ (forall x, In x (getAll n) -> getIndex boxOf b x = k)
  /\ good.

Fixpoint good (t : Quadtree) : Prop :=
  match t with
  | Leaf _ _ _ _ _ => True
  | Branch b _ ml l _ n0 n1 n2 n3 =>
      (l < ml)%nat
      /\ okChild b l ml 0 (good n0) n0 /\ okChild b l ml 1 (good n1) n1
      /\ okChild b l ml 2 (good n2) n2 /\ okChild b l ml 3 (good n3) n3
  end.

Definition nodesGood (b : Bounds) (l ml : nat) (ns : Nodes) : Prop :=
  okChild b l ml 0 (good (node0 ns)) (node0 ns)
  /\ okChild b l ml 1 (good (node1 ns)) (node1 ns)
  /\ okChild b l ml 2 (good (node2 ns)) (node2 ns)
  /\ okChild b l ml 3 (good (node3 ns)) (node3 ns).

(** What one call of [insert] does, as far as the statements need it. *)
Definition insertSpec (fuel : nat) : Prop :=
  forall t obj,
    good t -> (depthBound t <= fuel)%nat ->
    exists t',
      insert boxOf fuel t obj = Some t'
      /\ good t' /\ level t' = level t /\ max_levels t' = max_levels t
      /\ (forall x, In x (getAll t') <-> x = obj \/ In x (getAll t)).

End WithBoxes.

Definition nodesAll (ns : Nodes) : list nat :=
  ((getAll (node0 ns) ++ getAll (node1 ns)) ++ getAll (node2 ns))
    ++ getAll (node3 ns).

Definition inRange (k : Z) : Prop := k = 0%Z \/ k = 1%Z \/ k = 2%Z \/ k = 3%Z.

(** What an index says about the box. *)
Definition inQuadrant (b : Bounds) (k : Z) (box : Shape.BoundingBox) : Prop :=
  let verticalMidpoint := b_x b + b_width b / 2 in
  let horizontalMidpoint := b_y b + b_height b / 2 in
  ((k = 0%Z \/ k = 3%Z) -> verticalMidpoint < Shape.left box)
  /\ ((k = 1%Z \/ k = 2%Z) -> Shape.left box < verticalMidpoint
                              /\ Shape.right box < verticalMidpoint)
  /\ ((k = 0%Z \/ k = 1%Z) -> Shape.top box < horizontalMidpoint
                              /\ Shape.bottom box < horizontalMidpoint)
  /\ ((k = 2%Z \/ k = 3%Z) -> horizontalMidpoint < Shape.top box).

End QuadtreeInvariant.

(** * Further parts of the library *)

(** ** Further methods of p5.Transform2D *)

Module TransformMore.

(** [getRotation()]: [Math.atan2(-this[1], this[0])]. *)
Definition getRotation (t : Transform2D) : R :=
  SpriteOps.atan2 (- t1 t) (t0 t).

End TransformMore.

(** ** Further methods of Sprite: speed and direction

    As in [getDirection] above the sketch is in the angle mode [RADIANS],
    which is the one p5 starts in, so that [radians(angle)] is applied to
    every angle given in degrees and [cos], [sin] and [atan2] are the
    functions of [Math].  [rotateToDirection] is at its default [false]. *)

Module SpriteMotion.

Import SpriteOps.

Definition setRotation (r : R) (s : Sprite) : Sprite :=
  mkSprite (position s) (previousPosition s) (newPosition s) (velocity s)
    (mass s) (immovable s) (restitution s) r (scale s) (_internalWidth s)
    (_internalHeight s) (_horizontalStretch s) (_verticalStretch s)
    (animation s) (fixedFrameSizes s) (removed s) (touching s) (collider s)
    (_sweptCollider s).

(** [getSpeed()] *)
Definition getSpeed (s : Sprite) : R := Vector.mag (velocity s).

(** [limitSpeed(max)].  For a sprite at rest and a negative [max] the
    factor is [max / 0], and the products [0 * -Infinity] leave a velocity
    that is not a number. *)
Definition limitSpeed (max : R) (s : Sprite) : outcome Sprite :=
  let speed := getSpeed s in
  if Rltb max (Rabs speed) then
    if Reqb (Rabs speed) 0 then NotFinite
    else
      let k := max / Rabs speed in
      Done (setVelocity (mkVec (vx (velocity s) * k) (vy (velocity s) * k)) s)
  else Done s.

(** [setSpeed(speed, angle)]; [None] is a call without the angle. *)
Definition setSpeed (speed : R) (angle : option R) (s : Sprite) : Sprite :=
  let a :=
    match angle with
    | None =>
        if negb (Reqb (vx (velocity s)) 0) || negb (Reqb (vy (velocity s)) 0)
        then atan2 (vy (velocity s)) (vx (velocity s))
        else radians (rotation s)
    | Some angle => radians angle
    end in
  setVelocity (mkVec (cos a * speed) (sin a * speed)) s.

(** [attractionPoint(magnitude, pointX, pointY)] *)
Definition attractionPoint (magnitude pointX pointY : R) (s : Sprite)
  : Sprite :=
  let angle := atan2 (pointY - vy (position s)) (pointX - vx (position s)) in
  setVelocity (mkVec (vx (velocity s) + cos angle * magnitude)
                     (vy (velocity s) + sin angle * magnitude)) s.

(** [pointTo(x, y)] *)
Definition pointTo (x y : R) (s : Sprite) : Sprite :=
  let yDelta := y - vy (position s) in
  let xDelta := x - vx (position s) in
  if negb (Reqb xDelta 0) || negb (Reqb yDelta 0) then
    let radiansAngle := atan2 yDelta xDelta in
    setRotation (360 * radiansAngle / (2 * PI)) s
  else s.

(** [overlapPoint(pointX, pointY)]: the answer and the sprite, which may
    have received its default collider. *)
Definition overlapPoint (pointX pointY : R) (s : Sprite)
  : outcome (bool * Sprite) :=
  let s1 := Resolver.withDefaultCollider s in
  match collider s1 with
  | Some c =>
      let point := Shape.newPointCollider (mkVec pointX pointY) in
      let* r := ofOption (Shape.overlap c point) in
      Done (r, s1)
  | None => Done (false, s1)
  end.

End SpriteMotion.

(** ** Notions used by the further statements *)

Module FurtherNotions.

(** An axis-aligned box whose cached half diagonals are [(hw, -hh)] and
    [(hw, hh)]. *)
Definition symmetricBox (s : CollisionShape) (hw hh : R) : Prop :=
  0 <= hw /\ 0 <= hh
  /\ exists w h,
       ext s = AxisAlignedBoundingBoxCollider w h
                 (mkVec hw (- hh)) (mkVec hw hh).

(** One of the four [touching] flags is set. *)
Definition anyFlag (t : Touching) : bool :=
  t_left t || t_right t || t_top t || t_bottom t.

(** The coefficient of restitution that a collision of the given type
    uses. *)
Definition coefficientOf (type : CollisionType) (this other : Sprite) : R :=
  match type with
  | collide => 0
  | _ => restitution this * restitution other
  end.

End FurtherNotions.

(** ** Further methods of the Quadtree *)

Module QuadtreeRemoval.

Import Quadtree.

(** [objects.splice(objects.indexOf(obj), 1)], nothing when [obj] is not in
    the list. *)
Fixpoint spliceFirst (obj : nat) (objects : list nat) : list nat :=
  match objects with
  | [] => []
  | x :: rest => if Nat.eqb obj x then rest else x :: spliceFirst obj rest
  end.

Section WithBoxes.

Variable boxOf : nat -> option Shape.BoundingBox.

(** [getObjectNode(obj)]: the node in which [obj] is looked for. *)
Fixpoint getObjectNode (t : Quadtree) (obj : nat) : Quadtree :=
  match t with
  | Leaf _ _ _ _ _ => t
  | Branch b _ _ _ _ n0 n1 n2 n3 =>
      let index := getIndex boxOf b obj in
      if Z.eqb index (-1) then t
      else getObjectNode (nodeAt index (mkNodes n0 n1 n2 n3)) obj
  end.

(** [removeObject(obj)]: the tree after the change that the method makes
    to the list of the node that [getObjectNode] gives. *)
Fixpoint removeObject (t : Quadtree) (obj : nat) : Quadtree :=
  match t with
  | Leaf b mo ml l objs => Leaf b mo ml l (spliceFirst obj objs)
  | Branch b mo ml l objs n0 n1 n2 n3 =>
      let index := getIndex boxOf b obj in
      if Z.eqb index (-1)
      then Branch b mo ml l (spliceFirst obj objs) n0 n1 n2 n3
      else
        let ns := mkNodes n0 n1 n2 n3 in
        let ns' := setNodeAt index (removeObject (nodeAt index ns) obj) ns in
        Branch b mo ml l objs (node0 ns') (node1 ns') (node2 ns') (node3 ns')
  end.

End WithBoxes.

End QuadtreeRemoval.

(** ** Groups and the removal of sprites

    A group is the array of its sprites; every sprite keeps the array of
    the groups it belongs to.  Sprites and groups are named by numbers. *)

Module Groups.

Record Scene : Type := mkScene {
  sprites : nat -> Sprite;
  members : nat -> list nat;
  groupsOf : nat -> list nat;
  quadTree : Quadtree.Quadtree
}.

Definition update {A : Type} (key : nat) (v : A) (f : nat -> A) : nat -> A :=
  fun k => if Nat.eqb k key then v else f k.

(** [array.indexOf(item)]: sprites are compared by identity. *)
Fixpoint indexOf (item : nat) (array : list nat) : Z :=
  match array with
  | [] => (-1)%Z
  | x :: rest =>
      if Nat.eqb item x then 0%Z
      else let i := indexOf item rest in
           if Z.eqb i (-1) then (-1)%Z else (i + 1)%Z
  end.

(** [array.contains(sprite)] *)
Definition contains (group sprite : nat) (sc : Scene) : bool :=
  Z.ltb (-1) (indexOf sprite (members sc group)).

(** [array.size()] and [array.get(i)] *)
Definition size (group : nat) (sc : Scene) : nat := length (members sc group).
Definition get (group i : nat) (sc : Scene) : option nat :=
  nth_error (members sc group) i.

(** [array.add(s)] *)
Definition add (group s : nat) (sc : Scene) : Scene :=
  if Z.eqb (indexOf s (members sc group)) (-1) then
    mkScene (sprites sc)
            (update group (members sc group ++ [s]) (members sc))
            (update s (groupsOf sc s ++ [group]) (groupsOf sc))
            (quadTree sc)
  else sc.

(** [array.clear()]: the array is emptied, the sprites are not told. *)
Definition clear (group : nat) (sc : Scene) : Scene :=
  mkScene (sprites sc) (update group [] (members sc)) (groupsOf sc)
          (quadTree sc).

(** [array.remove(item)]: every occurrence of the sprite leaves the array,
    and if there was one every occurrence of the group leaves the sprite's
    list. *)
Definition remove (group item : nat) (sc : Scene) : bool * Scene :=
  let removed := existsb (Nat.eqb item) (members sc group) in
  if removed then
    (true,
     mkScene (sprites sc)
             (update group
                     (filter (fun x => negb (Nat.eqb x item))
                             (members sc group))
                     (members sc))
             (update item
                     (filter (fun g => negb (Nat.eqb g group))
                             (groupsOf sc item))
                     (groupsOf sc))
             (quadTree sc))
  else (false, sc).

Definition setRemoved (s : Sprite) : Sprite :=
  mkSprite (position s) (previousPosition s) (newPosition s) (velocity s)
    (mass s) (immovable s) (restitution s) (rotation s) (scale s)
    (_internalWidth s) (_internalHeight s) (_horizontalStretch s)
    (_verticalStretch s) (animation s) (fixedFrameSizes s) true (touching s)
    (collider s) (_sweptCollider s).

(** The bounding box that [getIndex] reads from a sprite. *)
Definition boxOf (sc : Scene) (ref : nat) : option Shape.BoundingBox :=
  match collider (sprites sc ref) with
  | Some c => Some (Shape.getBoundingBox c)
  | None => None
  end.

(** The loop [while (this.groups.length > 0) this.groups[0].remove(this)]
    of [Sprite.remove]; [fuel] bounds the number of its rounds. *)
Fixpoint leaveGroups (fuel : nat) (ref : nat) (sc : Scene) : outcome Scene :=
  match fuel with
  | O => OutOfFuel
  | S fuel' =>
      match groupsOf sc ref with
      | [] => Done sc
      | group :: _ => leaveGroups fuel' ref (snd (remove group ref sc))
      end
  end.

(** [Sprite.remove()], also [destroy()] and [removeSprite(sprite)]. *)
Definition Sprite_remove (fuel : nat) (ref : nat) (sc : Scene)
  : outcome Scene :=
  let sc1 :=
    mkScene (update ref (setRemoved (sprites sc ref)) (sprites sc))
            (members sc) (groupsOf sc)
            (QuadtreeRemoval.removeObject (boxOf sc) (quadTree sc) ref) in
  leaveGroups fuel ref sc1.

End Groups.

(** ** Key states

    The four states of a tracked key and their update before every frame.
    [keyIsDown] is the keyboard as p5 reports it; a key is named by its
    code. *)

Module Keys.

Inductive KeyState : Type :=
| KEY_IS_UP | KEY_WENT_DOWN | KEY_IS_DOWN | KEY_WENT_UP.

Definition KeyState_eqb (a b : KeyState) : bool :=
  match a, b with
  | KEY_IS_UP, KEY_IS_UP | KEY_WENT_DOWN, KEY_WENT_DOWN
  | KEY_IS_DOWN, KEY_IS_DOWN | KEY_WENT_UP, KEY_WENT_UP => true
  | _, _ => false
  end.

(** The object [keyStates]: [None] for a key that is not tracked yet. *)
Definition KeyStates : Type := nat -> option KeyState.

(** [_isKeyInState(key, state)] for a key code: the answer and the states,
    in which the key is tracked from now on. *)
Definition _isKeyInState (keyIsDown : nat -> bool) (keyCode : nat)
           (state : KeyState) (keyStates : KeyStates) : bool * KeyStates :=
  let keyStates' :=
    match keyStates keyCode with
    | None =>
        fun k => if Nat.eqb k keyCode
                 then Some (if keyIsDown keyCode then KEY_IS_DOWN
                            else KEY_IS_UP)
                 else keyStates k
    | Some _ => keyStates
    end in
  (match keyStates' keyCode with
   | Some st => KeyState_eqb st state
   | None => false
   end,
   keyStates').

Definition keyWentDown keyIsDown key keyStates :=
  _isKeyInState keyIsDown key KEY_WENT_DOWN keyStates.
Definition keyWentUp keyIsDown key keyStates :=
  _isKeyInState keyIsDown key KEY_WENT_UP keyStates.
Definition keyDown keyIsDown key keyStates :=
  _isKeyInState keyIsDown key KEY_IS_DOWN keyStates.

(** The round of [readPresses] for one tracked key. *)
Definition nextState (isDown : bool) (st : KeyState) : KeyState :=
  if isDown then
    match st with KEY_IS_UP => KEY_WENT_DOWN | _ => KEY_IS_DOWN end
  else
    match st with KEY_IS_DOWN => KEY_WENT_UP | _ => KEY_IS_UP end.

(** [readPresses()], the part on the keyboard. *)
Definition readPresses (keyIsDown : nat -> bool) (keyStates : KeyStates)
  : KeyStates :=
  fun key =>
    match keyStates key with
    | Some st => Some (nextState (keyIsDown key) st)
    | None => None
    end.

End Keys.

(** ** Notions on groups *)

Module SceneNotions.

Import Groups.

(** The arrays of the groups and of the sprites agree and hold nothing
    twice. *)
Definition consistent (sc : Scene) : Prop :=
  (forall g s, In g (groupsOf sc s) <-> In s (members sc g))
  /\ (forall g, NoDup (members sc g))
  /\ (forall s, NoDup (groupsOf sc s)).

(** A sketch with sprites and no group membership yet. *)
Definition emptyScene : Scene :=
  mkScene (fun _ => Scenario.createSprite 0 0) (fun _ => []) (fun _ => [])
          Scenario.exampleRoot.

End SceneNotions.

(** * Properties *)

Import Notions.

(** ** Numbers and vectors *)

Lemma Rltb_true x y : Rltb x y = true <-> x < y.
Proof. unfold Rltb; destruct (Rlt_dec x y); split; intros; try easy; lra. Qed.

Lemma Rltb_false x y : Rltb x y = false <-> y <= x.
Proof. unfold Rltb; destruct (Rlt_dec x y); split; intros; try easy; lra. Qed.

Lemma Rleb_true x y : Rleb x y = true <-> x <= y.
Proof. unfold Rleb; destruct (Rle_dec x y); split; intros; try easy; lra. Qed.

Lemma Rleb_false x y : Rleb x y = false <-> y < x.
Proof. unfold Rleb; destruct (Rle_dec x y); split; intros; try easy; lra. Qed.

Lemma Reqb_true x y : Reqb x y = true <-> x = y.
Proof. unfold Reqb; destruct (Req_dec_T x y); split; intros; try easy. Qed.

Lemma Reqb_false x y : Reqb x y = false <-> x <> y.
Proof. unfold Reqb; destruct (Req_dec_T x y); split; intros; try easy. Qed.

Ltac rbool :=
  repeat match goal with
  | H : Rltb _ _ = true |- _ => apply Rltb_true in H
  | H : Rltb _ _ = false |- _ => apply Rltb_false in H
  | H : Rleb _ _ = true |- _ => apply Rleb_true in H
  | H : Rleb _ _ = false |- _ => apply Rleb_false in H
  | H : Reqb _ _ = true |- _ => apply Reqb_true in H
  | H : Reqb _ _ = false |- _ => apply Reqb_false in H
  end.

Lemma Rltb_intro_true x y : x < y -> Rltb x y = true.
Proof. apply Rltb_true. Qed.

Lemma Rltb_intro_false x y : y <= x -> Rltb x y = false.
Proof. apply Rltb_false. Qed.

Lemma Rleb_intro_true x y : x <= y -> Rleb x y = true.
Proof. apply Rleb_true. Qed.

Lemma Rleb_intro_false x y : y < x -> Rleb x y = false.
Proof. apply Rleb_false. Qed.

Lemma Reqb_refl x : Reqb x x = true.
Proof. now apply Reqb_true. Qed.

Lemma Reqb_intro_false x y : x <> y -> Reqb x y = false.
Proof. apply Reqb_false. Qed.

Module VectorFacts.

Import Vector.

Lemma vec_eq (a b : Vec) : vx a = vx b -> vy a = vy b -> a = b.
Proof. destruct a, b; simpl; intros; subst; reflexivity. Qed.

Lemma magSq_nonneg v : 0 <= magSq v.
Proof. unfold magSq; nra. Qed.

Lemma mag_nonneg v : 0 <= mag v.
Proof. apply sqrt_pos. Qed.

Lemma magSq_zero_iff v : magSq v = 0 <-> v = zero.
Proof.
  split.
  - intros H. unfold magSq in H. apply vec_eq; simpl; nra.
  - intros ->. unfold magSq; simpl; lra.
Qed.

Lemma mag_zero_iff v : mag v = 0 <-> v = zero.
Proof.
  rewrite <- magSq_zero_iff. unfold mag. split.
  - intros H. apply sqrt_eq_0 in H; [assumption | apply magSq_nonneg].
  - intros ->. apply sqrt_0.
Qed.

Lemma mag_zero : mag zero = 0.
Proof. now apply mag_zero_iff. Qed.

Lemma mag_sq v : mag v * mag v = magSq v.
Proof. unfold mag. apply sqrt_sqrt, magSq_nonneg. Qed.

Lemma isZero_true v : isZero v = true <-> v = zero.
Proof.
  unfold isZero. rewrite andb_true_iff, !Reqb_true. split.
  - intros [H1 H2]. now apply vec_eq.
  - intros ->. now split.
Qed.

Lemma isZero_false v : isZero v = false <-> v <> zero.
Proof.
  rewrite <- isZero_true. destruct (isZero v); split; intros; congruence.
Qed.

Lemma mag_mult v k : mag (mult v k) = Rabs k * mag v.
Proof.
  unfold mag. replace (magSq (mult v k)) with (Rsqr k * magSq v)
    by (unfold magSq, mult, Rsqr; simpl; ring).
  rewrite sqrt_mult; [| apply Rle_0_sqr | apply magSq_nonneg].
  now rewrite sqrt_Rsqr_abs.
Qed.

Lemma mag_pos v : v <> zero -> 0 < mag v.
Proof.
  intros H. destruct (mag_nonneg v) as [Hlt | Heq]; [assumption |].
  symmetry in Heq. now apply mag_zero_iff in Heq.
Qed.

Lemma dot_self v : dot v v = magSq v.
Proof. reflexivity. Qed.

Lemma magSq_pos v : v <> zero -> 0 < magSq v.
Proof.
  intros H. destruct (magSq_nonneg v) as [Hlt | Heq]; [assumption |].
  symmetry in Heq. now apply magSq_zero_iff in Heq.
Qed.

Lemma mag_project a b :
  b <> zero -> mag (project a b) = Rabs (dot a b) / mag b.
Proof.
  intros Hb. unfold project. rewrite mag_mult, dot_self.
  pose proof (mag_pos b Hb) as Hm.
  rewrite <- (mag_sq b). unfold Rdiv.
  rewrite Rabs_mult, Rabs_inv, Rabs_mult, (Rabs_pos_eq (mag b)) by lra.
  field. lra.
Qed.

Lemma normalize_zero : normalize zero = zero.
Proof.
  unfold normalize. rewrite mag_zero, Reqb_refl. reflexivity.
Qed.

Lemma normalize_nonzero v :
  v <> zero -> normalize v = mult v (1 / mag v).
Proof.
  intros H. unfold normalize.
  rewrite Reqb_intro_false; [reflexivity |].
  intros E. now apply mag_zero_iff in E.
Qed.

Lemma mag_setMag v n : v <> zero -> mag (setMag v n) = Rabs n.
Proof.
  intros H. unfold setMag. rewrite normalize_nonzero by assumption.
  rewrite !mag_mult. pose proof (mag_pos v H) as Hm.
  rewrite (Rabs_pos_eq (1 / mag v)).
  - field. lra.
  - apply Rlt_le. apply Rdiv_lt_0_compat; lra.
Qed.

Lemma setMag_nonzero v n : v <> zero -> n <> 0 -> setMag v n <> zero.
Proof.
  intros Hv Hn E. apply mag_zero_iff in E.
  rewrite mag_setMag in E by assumption.
  now apply Rabs_no_R0 in E.
Qed.

(** [setMag] keeps the direction: the result is a multiple of the vector. *)
Lemma setMag_multiple v n :
  v <> zero -> setMag v n = mult v (n / mag v).
Proof.
  intros H. unfold setMag. rewrite normalize_nonzero by assumption.
  pose proof (mag_pos v H) as Hm.
  apply vec_eq; simpl; field; lra.
Qed.

Lemma project_zero_l b : project zero b = zero.
Proof.
  unfold project, dot, mult; simpl. apply vec_eq; simpl; unfold Rdiv; ring.
Qed.

End VectorFacts.

(** ** The separating-axis loop *)

Module ShapeFacts.

Import Vector VectorFacts Shape.

Lemma X_AXIS_nonzero : X_AXIS <> zero.
Proof. unfold X_AXIS, zero. intros E. inversion E. lra. Qed.

Lemma replaceZeroAxis_nonzero ax : replaceZeroAxis ax <> zero.
Proof.
  unfold replaceZeroAxis. destruct (isZero ax) eqn:E.
  - apply X_AXIS_nonzero.
  - now apply isZero_false.
Qed.

Lemma dedup_incl l ax : In ax (deduplicateParallelVectors l) -> In ax l.
Proof.
  induction l as [| item rest IH]; simpl; [easy |].
  destruct (existsb _ rest); simpl; intuition.
Qed.

Lemma dedup_nonempty l : l <> [] -> deduplicateParallelVectors l <> [].
Proof.
  induction l as [| item rest IH]; [easy |]. intros _. simpl.
  destruct (existsb _ rest) eqn:E.
  - apply IH. destruct rest; [discriminate | easy].
  - discriminate.
Qed.

Lemma candidateAxes_nonzero a b ax :
  In ax (_getCandidateAxesForShapes a b) -> ax <> zero.
Proof.
  unfold _getCandidateAxesForShapes. intros H. apply dedup_incl in H.
  apply in_map_iff in H. destruct H as [ax0 [<- _]].
  apply replaceZeroAxis_nonzero.
Qed.

Lemma project_on_nonzero_parallel d ax :
  vx (project d ax) * vy ax - vy (project d ax) * vx ax = 0.
Proof. unfold project, mult; simpl. ring. Qed.

Lemma directionOnAxis_nonzero d ax : ax <> zero -> directionOnAxis d ax <> zero.
Proof.
  intros H. unfold directionOnAxis.
  destruct (isZero (project d ax)) eqn:E; [assumption |].
  now apply isZero_false.
Qed.

Lemma directionOnAxis_parallel d ax :
  vx (directionOnAxis d ax) * vy ax - vy (directionOnAxis d ax) * vx ax = 0.
Proof.
  unfold directionOnAxis. destruct (isZero (project d ax)).
  - ring.
  - apply project_on_nonzero_parallel.
Qed.

(** One axis on which the projections do not overlap ends the loop with
    the zero vector. *)
Lemma collideLoop_separated d a b axes sm :
  Exists (fun ax => overlapOnAxis d a b ax <= 0) axes ->
  collideLoop d a b axes sm = Some zero.
Proof.
  intros H. revert sm. induction axes as [| ax rest IH]; intros sm.
  - inversion H.
  - simpl. destruct (Rleb (overlapOnAxis d a b ax) 0) eqn:E; [reflexivity |].
    rbool. inversion H; subst; [lra |].
    destruct (isSmaller _ sm); now apply IH.
Qed.

(** When the projections overlap on every axis the loop returns the
    direction kept with the least overlap, scaled to that overlap. *)
Lemma collideLoop_overlapping d a b axes sm :
  Forall (fun ax => 0 < overlapOnAxis d a b ax) axes ->
  (axes <> [] \/ sm <> None) ->
  exists ov dir,
    collideLoop d a b axes sm = Some (setMag dir (- ov))
    /\ Forall (fun ax => ov <= overlapOnAxis d a b ax) axes
    /\ ((exists ax, In ax axes /\ ov = overlapOnAxis d a b ax
                    /\ dir = directionOnAxis d ax)
        \/ sm = Some (ov, dir))
    /\ (forall ov0 dir0, sm = Some (ov0, dir0) -> ov <= ov0).
Proof.
  intros H. revert sm. induction axes as [| ax rest IH]; intros sm Hne.
  - destruct Hne as [Hne | Hne]; [easy |].
    destruct sm as [[ov dir] |]; [| easy].
    exists ov, dir. simpl. repeat split; auto.
    intros ov0 dir0 E. inversion E; subst. lra.
  - inversion H as [| ? ? Hpos Hrest]; subst. simpl.
    rewrite Rleb_intro_false by assumption.
    destruct (isSmaller (overlapOnAxis d a b ax) sm) eqn:Esm.
    + destruct (IH Hrest (Some (overlapOnAxis d a b ax, directionOnAxis d ax)))
        as (ov & dir & Hres & Hall & Hwho & Hle); [right; discriminate |].
      exists ov, dir. split; [assumption |].
      pose proof (Hle _ _ eq_refl) as Hle1.
      split; [constructor; assumption |].
      split.
      * left. destruct Hwho as [(ax' & Hin & E1 & E2) | E].
        -- exists ax'. simpl; auto.
        -- inversion E; subst. exists ax. simpl; auto.
      * intros ov0 dir0 E. subst sm. simpl in Esm. rbool. lra.
    + destruct sm as [[ov0 dir0] |]; [| discriminate].
      simpl in Esm. rbool.
      destruct (IH Hrest (Some (ov0, dir0)))
        as (ov & dir & Hres & Hall & Hwho & Hle); [right; discriminate |].
      exists ov, dir. split; [assumption |].
      pose proof (Hle _ _ eq_refl) as Hle1.
      split; [constructor; [lra | assumption] |].
      split.
      * destruct Hwho as [(ax' & Hin & E1 & E2) | E].
        -- left. exists ax'. simpl; auto.
        -- now right.
      * intros ov1 dir1 E. inversion E; subst. assumption.
Qed.

Lemma collideLoop_empty d a b : collideLoop d a b [] None = None.
Proof. reflexivity. Qed.

Lemma all_or_some d a b axes :
  Forall (fun ax => 0 < overlapOnAxis d a b ax) axes
  \/ Exists (fun ax => overlapOnAxis d a b ax <= 0) axes.
Proof.
  induction axes as [| ax rest [IH | IH]].
  - left; constructor.
  - destruct (Rle_dec (overlapOnAxis d a b ax) 0).
    + right; now constructor.
    + left; constructor; [lra | assumption].
  - right; now constructor 2.
Qed.

(** The three ways [collide] can end. *)
Lemma collide_cases a b :
  let axes := _getCandidateAxesForShapes a b in
  (axes = [] /\ collide a b = None)
  \/ (Exists (fun ax => overlapOnAxis (delta a b) a b ax <= 0) axes
      /\ collide a b = Some zero)
  \/ (axes <> []
      /\ Forall (fun ax => 0 < overlapOnAxis (delta a b) a b ax) axes
      /\ exists ov ax,
           In ax axes /\ ov = overlapOnAxis (delta a b) a b ax
           /\ Forall (fun ax' => ov <= overlapOnAxis (delta a b) a b ax') axes
           /\ collide a b
              = Some (setMag (directionOnAxis (delta a b) ax) (- ov))).
Proof.
  intros axes. unfold collide. fold (delta a b). fold axes.
  destruct axes as [| ax0 rest] eqn:E.
  - left. split; reflexivity.
  - right. rewrite <- E.
    destruct (all_or_some (delta a b) a b axes) as [Hall | Hex].
    + right. split; [rewrite E; discriminate |]. split; [assumption |].
      destruct (collideLoop_overlapping (delta a b) a b axes None Hall)
        as (ov & dir & Hres & Hmin & Hwho & _).
      { left. rewrite E; discriminate. }
      destruct Hwho as [(ax & Hin & E1 & E2) | Hbad]; [| discriminate].
      exists ov, ax. subst dir. auto.
    + left. split; [assumption |].
      now apply collideLoop_separated.
Qed.

Lemma mtv_nonzero d ax ov :
  ax <> zero -> 0 < ov -> setMag (directionOnAxis d ax) (- ov) <> zero.
Proof.
  intros Hax Hov. apply setMag_nonzero.
  - now apply directionOnAxis_nonzero.
  - lra.
Qed.

Lemma mtv_mag d ax ov :
  ax <> zero -> 0 < ov -> mag (setMag (directionOnAxis d ax) (- ov)) = ov.
Proof.
  intros Hax Hov. rewrite mag_setMag by now apply directionOnAxis_nonzero.
  rewrite Rabs_Ropp. apply Rabs_pos_eq. lra.
Qed.

End ShapeFacts.

(** ** Points and circles *)

Module CircleFacts.

Import Vector VectorFacts Shape ShapeFacts.

Lemma default_tolerance_pos : 0 < default_tolerance.
Proof. unfold default_tolerance. apply Rinv_0_lt_compat. lra. Qed.

Lemma isParallel_opposite v w :
  vx w = - vx v -> vy w = - vy v ->
  isParallel v w default_tolerance = true.
Proof.
  intros Hx Hy. unfold isParallel.
  pose proof default_tolerance_pos as Htol.
  destruct (Rlt_dec (Rabs (vx v)) default_tolerance) as [H1 | H1].
  { rewrite Hx, Rabs_Ropp, (Rltb_intro_true _ _ H1). reflexivity. }
  destruct (Rlt_dec (Rabs (vy v)) default_tolerance) as [H2 | H2].
  { rewrite Hy, Rabs_Ropp, (Rltb_intro_true _ _ H2).
    simpl. now rewrite orb_true_r. }
  assert (Hvx : vx v <> 0) by (intros E; rewrite E, Rabs_R0 in H1; lra).
  assert (Hvy : vy v <> 0) by (intros E; rewrite E, Rabs_R0 in H2; lra).
  rewrite (Reqb_intro_false (vx w) 0) by (rewrite Hx; lra).
  rewrite (Reqb_intro_false (vy w) 0) by (rewrite Hy; lra).
  replace (vx v / vx w - vy v / vy w) with 0
    by (rewrite Hx, Hy; field; split; assumption).
  rewrite Rabs_R0, (Rltb_intro_true 0 _ Htol). simpl.
  now rewrite !orb_true_r.
Qed.

Lemma isParallel_X_X : isParallel X_AXIS X_AXIS default_tolerance = true.
Proof.
  unfold isParallel, X_AXIS; simpl. pose proof default_tolerance_pos.
  rewrite Rabs_R0, (Rltb_intro_true 0 _ H). simpl.
  now rewrite orb_true_r.
Qed.

(** The candidate axes of a pair in which each shape contributes the line
    through the two centres. *)
Lemma central_axes a b :
  _getCandidateAxes a b = [sub (center b) (center a)] ->
  _getCandidateAxes b a = [sub (center a) (center b)] ->
  _getCandidateAxesForShapes a b
  = [replaceZeroAxis (sub (center a) (center b))].
Proof.
  intros Ha Hb. unfold _getCandidateAxesForShapes. rewrite Ha, Hb. simpl.
  set (d := sub (center b) (center a)). set (d' := sub (center a) (center b)).
  assert (Hx : vx d' = - vx d) by (unfold d, d', sub; simpl; ring).
  assert (Hy : vy d' = - vy d) by (unfold d, d', sub; simpl; ring).
  unfold replaceZeroAxis.
  destruct (isZero d) eqn:Ed.
  - apply isZero_true in Ed.
    assert (Ed' : d' = zero)
      by (apply vec_eq; rewrite ?Hx, ?Hy, Ed; simpl; ring).
    rewrite Ed'. replace (isZero zero) with true
      by (symmetry; now apply isZero_true).
    now rewrite isParallel_X_X.
  - apply isZero_false in Ed.
    assert (Ed' : isZero d' = false).
    { apply isZero_false. intros E. apply Ed.
      apply vec_eq; simpl.
      - rewrite E in Hx; simpl in Hx; lra.
      - rewrite E in Hy; simpl in Hy; lra. }
    rewrite Ed'. now rewrite (isParallel_opposite d d' Hx Hy).
Qed.

Lemma project_opposite d d' :
  d <> zero -> vx d' = - vx d -> vy d' = - vy d -> project d d' = d.
Proof.
  intros Hd Hx Hy. pose proof (magSq_pos d Hd) as Hm. unfold magSq in Hm.
  unfold project, dot, mult. rewrite Hx, Hy.
  apply vec_eq; simpl; field; nra.
Qed.

(** [collide] on such a pair, in terms of the two radii on the axis and of
    the distance of the centres. *)
Lemma collide_central a b r1 r2 :
  _getCandidateAxes a b = [sub (center b) (center a)] ->
  _getCandidateAxes b a = [sub (center a) (center b)] ->
  (forall ax, _getRadiusOnAxis a ax = r1) ->
  (forall ax, _getRadiusOnAxis b ax = r2) ->
  let d := sub (center b) (center a) in
  collide a b =
    if Rleb (r1 + r2 - mag d) 0 then Some zero
    else Some (setMag (if isZero d then X_AXIS else d)
                      (- (r1 + r2 - mag d))).
Proof.
  intros Ha Hb Hr1 Hr2 d. unfold collide.
  rewrite (central_axes a b Ha Hb). fold d.
  set (d' := sub (center a) (center b)).
  assert (Hx : vx d' = - vx d) by (unfold d, d', sub; simpl; ring).
  assert (Hy : vy d' = - vy d) by (unfold d, d', sub; simpl; ring).
  simpl. unfold overlapOnAxis, directionOnAxis. rewrite Hr1, Hr2.
  unfold replaceZeroAxis.
  destruct (isZero d) eqn:Ed.
  - apply isZero_true in Ed.
    assert (Ed' : d' = zero)
      by (apply vec_eq; rewrite ?Hx, ?Hy, Ed; simpl; ring).
    rewrite Ed'. replace (isZero zero) with true
      by (symmetry; now apply isZero_true).
    rewrite Ed, project_zero_l.
    replace (isZero zero) with true by (symmetry; now apply isZero_true).
    reflexivity.
  - apply isZero_false in Ed.
    assert (Ed' : isZero d' = false).
    { apply isZero_false. intros E. apply Ed.
      apply vec_eq; simpl.
      - rewrite E in Hx; simpl in Hx; lra.
      - rewrite E in Hy; simpl in Hy; lra. }
    rewrite Ed', (project_opposite d d' Ed Hx Hy).
    replace (isZero d) with false by (symmetry; now apply isZero_false).
    reflexivity.
Qed.

Lemma circle_axes a b radius r :
  ext a = CircleCollider radius r -> isBox b = false ->
  _getCandidateAxes a b = [sub (center b) (center a)].
Proof. intros Ha Hb. unfold _getCandidateAxes. now rewrite Ha, Hb. Qed.

Lemma circle_radius a radius r ax :
  ext a = CircleCollider radius r -> _getRadiusOnAxis a ax = r.
Proof. intros Ha. unfold _getRadiusOnAxis. now rewrite Ha. Qed.

Lemma circle_not_box a radius r :
  ext a = CircleCollider radius r -> isBox a = false.
Proof. intros Ha. unfold isBox. now rewrite Ha. Qed.

Lemma collide_circles a b radius1 r1 radius2 r2 :
  ext a = CircleCollider radius1 r1 ->
  ext b = CircleCollider radius2 r2 ->
  let d := sub (center b) (center a) in
  collide a b =
    if Rleb (r1 + r2 - mag d) 0 then Some zero
    else Some (setMag (if isZero d then X_AXIS else d)
                      (- (r1 + r2 - mag d))).
Proof.
  intros Ha Hb. apply collide_central.
  - eapply circle_axes; eauto using circle_not_box.
  - eapply circle_axes; eauto using circle_not_box.
  - intros; eapply circle_radius; eauto.
  - intros; eapply circle_radius; eauto.
Qed.

Lemma central_direction_nonzero d :
  (if isZero d then X_AXIS else d) <> zero.
Proof.
  destruct (isZero d) eqn:E.
  - apply X_AXIS_nonzero.
  - now apply isZero_false.
Qed.

End CircleFacts.

Import Vector VectorFacts ShapeFacts CircleFacts.

(** C2.  Two circle colliders with scaled radii [r1] and [r2] whose centres
    are at distance [d]: they overlap exactly when [d < r1 + r2]; the
    displacement returned by [collide] then has length [r1 + r2 - d], lies on
    the line through the two centres and points from the second circle back to
    the first. *)
Theorem circles_overlap_iff_closer_than_radii
        (a b : CollisionShape) (radius1 r1 radius2 r2 : R) :
  ext a = CircleCollider radius1 r1 ->
  ext b = CircleCollider radius2 r2 ->
  let dc := Vector.sub (Shape.center b) (Shape.center a) in
  let d := Vector.mag dc in
  (Shape.overlap a b = Some true <-> d < r1 + r2)
  /\ (Shape.overlap a b = Some false <-> r1 + r2 <= d)
  /\ (d < r1 + r2 ->
      exists v, Shape.collide a b = Some v
                /\ Vector.mag v = r1 + r2 - d
                /\ vx v * vy dc - vy v * vx dc = 0
                /\ Vector.dot v dc <= 0).
Proof.
  intros Ha Hb dc d.
  pose proof (collide_circles a b _ _ _ _ Ha Hb) as Hc.
  cbv zeta in Hc. fold dc in Hc. change (mag dc) with d in Hc.
  assert (Hd : d = mag dc) by reflexivity. clearbody d. clearbody dc.
  unfold Shape.overlap. rewrite Hc.
  pose proof (central_direction_nonzero dc) as Hdir.
  destruct (Rleb (r1 + r2 - d) 0) eqn:E; rbool.
  - replace (isZero zero) with true by (symmetry; now apply isZero_true).
    simpl. repeat split; intros; try discriminate; try lra.
  - assert (Hnz : isZero (setMag (if isZero dc then Shape.X_AXIS else dc)
                                 (- (r1 + r2 - d))) = false).
    { apply isZero_false. apply setMag_nonzero; [assumption | lra]. }
    rewrite Hnz. simpl. repeat split; intros; try discriminate; try lra.
    eexists. split; [reflexivity |].
    split.
    { rewrite mag_setMag by assumption. rewrite Rabs_Ropp.
      apply Rabs_pos_eq. lra. }
    rewrite setMag_multiple by assumption.
    destruct (isZero dc) eqn:Ez.
    + apply isZero_true in Ez. subst dc. unfold dot, mult; simpl.
      split; [ring | lra].
    + apply isZero_false in Ez. pose proof (mag_pos dc Ez) as Hm.
      rewrite <- Hd in *. unfold dot, mult; simpl. split; [ring |].
      assert (Hq : 0 <= (r1 + r2 - d) / d)
        by (apply Rlt_le, Rdiv_lt_0_compat; lra).
      pose proof (magSq_nonneg dc) as Hsq. unfold magSq in Hsq.
      replace (vx dc * (- (r1 + r2 - d) / d) * vx dc
               + vy dc * (- (r1 + r2 - d) / d) * vy dc)
        with (- (((r1 + r2 - d) / d) * (vx dc * vx dc + vy dc * vy dc)))
        by (field; lra).
      nra.
Qed.

(** C2 at the example of the specification: radii 5 and 4, centres (0,0) and
    (8,0). *)
Lemma circles_overlap_witness :
  let a := Shape.newCircleCollider (mkVec 0 0) 5 in
  let b := Shape.newCircleCollider (mkVec 8 0) 4 in
  exists r1 r2,
    ext a = CircleCollider 5 r1 /\ ext b = CircleCollider 4 r2
    /\ (Shape.overlap a b = Some true
        <-> Vector.mag (Vector.sub (Shape.center b) (Shape.center a)) < r1 + r2).
Proof.
  intros a b.
  exists (Shape._computeScaledRadius (_localTransform a) (_parentTransform a)
            (_center a) 5),
         (Shape._computeScaledRadius (_localTransform b) (_parentTransform b)
            (_center b) 4).
  split; [reflexivity |]. split; [reflexivity |].
  exact (proj1 (circles_overlap_iff_closer_than_radii a b 5 _ 4 _
                  eq_refl eq_refl)).
Defined.

(** C10.  For two point colliders neither shape contributes a candidate
    axis, the loop of [collide] never runs and its last line dereferences the
    [null] axis: [collide] returns no vector, and neither does [overlap],
    which calls it. *)
Theorem point_point_collide_fails (a b : CollisionShape) :
  ext a = PointCollider ->
  ext b = PointCollider ->
  Shape._getCandidateAxes a b = []
  /\ Shape._getCandidateAxes b a = []
  /\ Shape._getCandidateAxesForShapes a b = []
  /\ Shape.collide a b = None
  /\ Shape.overlap a b = None.
Proof.
  intros Ha Hb.
  assert (H1 : Shape._getCandidateAxes a b = [])
    by (unfold Shape._getCandidateAxes; now rewrite Ha).
  assert (H2 : Shape._getCandidateAxes b a = [])
    by (unfold Shape._getCandidateAxes; now rewrite Hb).
  assert (H3 : Shape._getCandidateAxesForShapes a b = [])
    by (unfold Shape._getCandidateAxesForShapes; now rewrite H1, H2).
  assert (H4 : Shape.collide a b = None)
    by (unfold Shape.collide; now rewrite H3).
  repeat split; try assumption.
  unfold Shape.overlap. now rewrite H4.
Qed.

Lemma point_point_collide_fails_witness :
  Shape.collide (Shape.newPointCollider (mkVec 0 0))
                (Shape.newPointCollider (mkVec 3 4)) = None
  /\ Shape.overlap (Shape.newPointCollider (mkVec 0 0))
                   (Shape.newPointCollider (mkVec 3 4)) = None.
Proof.
  pose proof (point_point_collide_fails
                (Shape.newPointCollider (mkVec 0 0))
                (Shape.newPointCollider (mkVec 3 4)) eq_refl eq_refl)
    as (_ & _ & _ & Hc & Ho).
  split; assumption.
Defined.

(** ** What the resolver leaves alone *)

Module ResolverFacts.

Import SpriteOps Resolver.

Lemma body_velocity s s' : body s' = body s -> velocity s' = velocity s.
Proof. unfold body. intros H. now inversion H. Qed.

Lemma body_immovable s s' : body s' = body s -> immovable s' = immovable s.
Proof. unfold body. intros H. now inversion H. Qed.

Lemma body_mass s s' : body s' = body s -> mass s' = mass s.
Proof. unfold body. intros H. now inversion H. Qed.

Lemma body_restitution s s' :
  body s' = body s -> restitution s' = restitution s.
Proof. unfold body. intros H. now inversion H. Qed.

Lemma body_setPosition p s : body (setPosition p s) = body s.
Proof. reflexivity. Qed.

Lemma body_setColliderShape c s : body (setColliderShape c s) = body s.
Proof. reflexivity. Qed.

Ltac bind_inv H :=
  match type of H with
  | bind ?m _ = Done _ =>
      let E := fresh "E" in
      destruct m eqn:E; simpl in H; try discriminate H
  end.

(** The same step, unfolding nothing but [bind]. *)
Ltac bind_step H :=
  match type of H with
  | bind ?m _ = Done _ =>
      let E := fresh "E" in
      destruct m eqn:E; cbn [bind] in H; try discriminate H
  end.

Lemma ofOption_Done {A} (o : option A) a : ofOption o = Done a -> o = Some a.
Proof. destruct o; simpl; intros H; now inversion H. Qed.

Lemma refreshCollider_inv s s' :
  refreshCollider s = Done s' ->
  exists c, collider s = Some c
            /\ s' = setColliderShape (updateFromSprite s c) s.
Proof.
  unfold refreshCollider. intros H. bind_inv H.
  apply ofOption_Done in E. inversion H; subst. eauto.
Qed.

Lemma refreshCollider_frame s s' :
  refreshCollider s = Done s' ->
  body s' = body s /\ position s' = position s.
Proof.
  intros H. apply refreshCollider_inv in H. destruct H as (c & _ & ->).
  split; reflexivity.
Qed.

Lemma subSteps_frame fuel : forall i ts d1 d2 o1 o2 this target r this' target',
  subSteps fuel i ts d1 d2 o1 o2 this target = Done (r, this', target') ->
  body this' = body this /\ body target' = body target.
Proof.
  induction fuel as [| fuel IH]; intros i ts d1 d2 o1 o2 this target r this'
                                        target' H; simpl in H; [discriminate |].
  destruct (Rltb i 1).
  - bind_inv H. bind_inv H. bind_inv H. bind_inv H. bind_inv H.
    apply refreshCollider_frame in E, E0.
    destruct E as [Eb _], E0 as [Eb0 _].
    rewrite body_setPosition in Eb, Eb0.
    destruct (negb (Vector.isZero a3)).
    + inversion H; subst.
      split.
      * destruct (immovable a); [rewrite body_setPosition |]; assumption.
      * destruct (immovable a0); [rewrite body_setPosition |]; assumption.
    + apply IH in H. destruct H as [H1 H2]. split; congruence.
  - inversion H; subst. split; reflexivity.
Qed.

Lemma finalCheck_frame this target d this' target' :
  finalCheck this target = Done (d, this', target') ->
  body this' = body this /\ body target' = body target
  /\ position this' = position this /\ position target' = position target.
Proof.
  unfold finalCheck. intros H.
  bind_inv H. bind_inv H. bind_inv H. bind_inv H. bind_inv H.
  inversion H; subst.
  apply refreshCollider_frame in E, E0. tauto.
Qed.

(** [_findDisplacement] changes nothing of the two sprites but their
    positions and colliders. *)
Lemma findDisplacement_frame fuel this target d this' target' :
  _findDisplacement fuel this target = Done (d, this', target') ->
  body this' = body this /\ body target' = body target.
Proof.
  unfold _findDisplacement. intros H. bind_inv H.
  destruct a.
  - bind_inv H. destruct a as [ts |].
    + destruct (Rltb ts 1).
      * bind_inv H. destruct a as [[[dv |] t1] t2].
        -- inversion H; subst. apply subSteps_frame in E1.
           now rewrite !body_setPosition in E1.
        -- apply finalCheck_frame in H. apply subSteps_frame in E1.
           rewrite !body_setPosition in *.
           destruct H as (H1 & H2 & _), E1 as [H3 H4].
           split; congruence.
      * apply finalCheck_frame in H. tauto.
    + apply finalCheck_frame in H. tauto.
  - apply finalCheck_frame in H. tauto.
Qed.

Lemma body_withDefaultCollider_velocity s :
  velocity (withDefaultCollider s) = velocity s
  /\ mass (withDefaultCollider s) = mass s
  /\ immovable (withDefaultCollider s) = immovable s
  /\ restitution (withDefaultCollider s) = restitution s
  /\ position (withDefaultCollider s) = position s.
Proof.
  unfold withDefaultCollider, setDefaultCollider.
  destruct (collider s); [tauto |].
  destruct (animationStillLoading s); simpl; tauto.
Qed.

End ResolverFacts.

(** ** Sprites with a circle collider, no rotation and scale one *)

Module CircleSprites.

Import SpriteOps Resolver ResolverFacts.

Lemma transform_eq a b :
  t0 a = t0 b -> t1 a = t1 b -> t2 a = t2 b ->
  t3 a = t3 b -> t4 a = t4 b -> t5 a = t5 b -> a = b.
Proof. destruct a, b; simpl; intros; subst; reflexivity. Qed.

Lemma radians_0 : radians 0 = 0.
Proof. unfold radians. unfold Rdiv. ring. Qed.

Lemma parentTransformOf_plain b s :
  plainSprite s ->
  parentTransformOf b s
  = mkTransform 1 0 (vx (position s)) 0 1 (vy (position s)).
Proof.
  intros (Hr & Hs & Hf). unfold parentTransformOf, _getScaleX, _getScaleY.
  rewrite Hr, Hs, Hf, radians_0.
  assert (Hmax : Rmax 1 1 = 1) by (apply Rmax_left; lra).
  rewrite Hmax.
  unfold Transform.translateV, Transform.translate, Transform.rotate,
    Transform.scale, Transform.mult, Transform.identity.
  rewrite cos_0, sin_0.
  destruct b; apply transform_eq; simpl; ring.
Qed.

Lemma mag_x x : Vector.mag (mkVec x 0) = Rabs x.
Proof.
  unfold Vector.mag, Vector.magSq; simpl.
  replace (x * x + 0 * 0) with (Rsqr x) by (unfold Rsqr; ring).
  apply sqrt_Rsqr_abs.
Qed.

Lemma updateFromSprite_plain s c r :
  plainSprite s -> plainCircle r c ->
  plainCircle r (updateFromSprite s c)
  /\ Shape.center (updateFromSprite s c) = position s
  /\ ext (updateFromSprite s c) = CircleCollider r (Rabs r).
Proof.
  intros Hs (Hl & Hg & sr & He).
  unfold updateFromSprite. rewrite Hg.
  unfold setParentTransformFromSprite, Shape.isCircle. rewrite He.
  rewrite (parentTransformOf_plain true s Hs).
  unfold Shape.setParentTransform, Shape._onTransformChanged; simpl.
  rewrite He, Hl.
  assert (Hc : Transform.apply
                 (mkTransform 1 0 (vx (position s)) 0 1 (vy (position s)))
                 (Transform.apply Transform.identity Vector.zero)
               = position s).
  { apply vec_eq; simpl; ring. }
  rewrite Hc.
  split; [| split].
  - unfold plainCircle; simpl. repeat split; eauto.
  - reflexivity.
  - simpl. f_equal. unfold Shape._computeScaledRadius.
    rewrite <- (mag_x r). f_equal. apply vec_eq; simpl; ring.
Qed.

Lemma newCircleCollider_plain r :
  plainCircle r (Shape.newCircleCollider Vector.zero r).
Proof.
  unfold plainCircle, Shape.newCircleCollider, Shape.construct; simpl.
  rewrite Reqb_refl. repeat split.
  - apply transform_eq; simpl; ring.
  - eauto.
Qed.

Lemma withGetsDimensions_plain r c :
  plainCircle r c -> plainCircle r (withGetsDimensions false c).
Proof. intros (Hl & _ & He). unfold plainCircle; simpl. auto. Qed.

Lemma circleAt_setPosition r p s : circleAt r s -> circleAt r (setPosition p s).
Proof. intros (Hs & c & Hc & Hp). split; [exact Hs | eauto]. Qed.

Lemma refreshCollider_circle r s :
  circleAt r s ->
  exists s' c',
    refreshCollider s = Done s'
    /\ collider s' = Some c'
    /\ plainCircle r c'
    /\ Shape.center c' = position s
    /\ ext c' = CircleCollider r (Rabs r)
    /\ position s' = position s
    /\ immovable s' = immovable s
    /\ circleAt r s'.
Proof.
  intros (Hs & c & Hc & Hp).
  destruct (updateFromSprite_plain s c r Hs Hp) as (H1 & H2 & H3).
  exists (setColliderShape (updateFromSprite s c) s), (updateFromSprite s c).
  unfold refreshCollider. rewrite Hc. simpl.
  split; [reflexivity |]. split; [reflexivity |]. split; [exact H1 |].
  split; [exact H2 |]. split; [exact H3 |]. split; [reflexivity |].
  split; [reflexivity |].
  split; [exact Hs |]. simpl. eauto.
Qed.

Lemma setColliderCircle_circleAt r s :
  plainSprite s -> circleAt r (setColliderCircle Vector.zero (Some r) s).
Proof.
  intros Hs. split; [exact Hs |].
  eexists. split; [reflexivity |].
  unfold createCircleFromSprite.
  apply updateFromSprite_plain; [exact Hs |].
  apply withGetsDimensions_plain, newCircleCollider_plain.
Qed.

(** The test of two such circles placed at [p1] and [p2]. *)
Lemma collide_placed_circles c1 c2 r1 r2 p1 p2 :
  ext c1 = CircleCollider r1 (Rabs r1) -> Shape.center c1 = p1 ->
  ext c2 = CircleCollider r2 (Rabs r2) -> Shape.center c2 = p2 ->
  let d := Vector.sub p2 p1 in
  Shape.collide c1 c2 =
    if Rleb (Rabs r1 + Rabs r2 - Vector.mag d) 0 then Some Vector.zero
    else Some (Vector.setMag (if Vector.isZero d then Shape.X_AXIS else d)
                             (- (Rabs r1 + Rabs r2 - Vector.mag d))).
Proof.
  intros He1 Hc1 He2 Hc2. subst p1 p2.
  exact (collide_circles c1 c2 _ _ _ _ He1 He2).
Qed.

End CircleSprites.

(** ** The broad phase and the sub-steps on circle sprites *)

Module SweptFacts.

Import SpriteOps Resolver ResolverFacts CircleSprites.

Lemma box_radius_nonneg a ax :
  Shape.isBox a = true -> 0 <= Shape._getRadiusOnAxis a ax.
Proof.
  unfold Shape.isBox, Shape._getRadiusOnAxis.
  destruct (ext a); try discriminate; intros _;
    (eapply Rle_trans; [apply mag_nonneg | apply Rmax_l]).
Qed.

Lemma box_axes_nonempty a b :
  Shape.isBox a = true -> Shape._getCandidateAxesForShapes a b <> [].
Proof.
  intros Ha. unfold Shape._getCandidateAxesForShapes.
  apply dedup_nonempty.
  unfold Shape.isBox in Ha. unfold Shape._getCandidateAxes at 1.
  destruct (ext a); try discriminate; simpl; discriminate.
Qed.

(** Two shapes with the same centre and radii that are not both zero
    overlap on every axis. *)
Lemma collide_same_center a b :
  Shape.center a = Shape.center b ->
  (forall ax, 0 <= Shape._getRadiusOnAxis a ax) ->
  (forall ax, 0 < Shape._getRadiusOnAxis b ax) ->
  Shape._getCandidateAxesForShapes a b <> [] ->
  exists v, Shape.collide a b = Some v /\ v <> Vector.zero.
Proof.
  intros Hc Ha Hb Hne.
  assert (Hd : delta a b = Vector.zero).
  { unfold delta. rewrite Hc. apply vec_eq; simpl; ring. }
  assert (Hpos : forall ax, 0 < Shape.overlapOnAxis (delta a b) a b ax).
  { intros ax. unfold Shape.overlapOnAxis.
    rewrite Hd, project_zero_l, mag_zero.
    specialize (Ha ax). specialize (Hb ax). lra. }
  destruct (collide_cases a b) as [[He _] | [[Hex _] | (_ & _ & ov & ax & Hin & Hov & _ & Hres)]].
  - contradiction.
  - apply Exists_exists in Hex. destruct Hex as (ax & _ & Hle).
    specialize (Hpos ax). lra.
  - eexists. split; [exact Hres |].
    apply mtv_nonzero.
    + eapply candidateAxes_nonzero; eassumption.
    + rewrite Hov. apply Hpos.
Qed.

Lemma subSteps_S fuel i ts d1 d2 o1 o2 this target :
  subSteps (S fuel) i ts d1 d2 o1 o2 this target =
  if Rltb i 1 then
    let this1 := setPosition (Vector.add (position this) d1) this in
    let target1 := setPosition (Vector.add (position target) d2) target in
    let* this2 := refreshCollider this1 in
    let* target2 := refreshCollider target1 in
    let* c1 := ofOption (collider this2) in
    let* c2 := ofOption (collider target2) in
    let* displacement := ofOption (Shape.collide c1 c2) in
    if negb (Vector.isZero displacement) then
      let this3 := if immovable this2 then setPosition o1 this2 else this2 in
      let target3 := if immovable target2 then setPosition o2 target2
                     else target2 in
      Done (Some displacement, this3, target3)
    else subSteps fuel (i + ts) ts d1 d2 o1 o2 this2 target2
  else Done (None, this, target).
Proof. reflexivity. Qed.

Lemma after_S p d j : after (Vector.add p d) d j = after p d (S j).
Proof.
  unfold after. rewrite S_INR. apply vec_eq; simpl; ring.
Qed.

Lemma after_1 p d : after p d 1 = Vector.add p d.
Proof. unfold after. apply vec_eq; simpl; ring. Qed.

Lemma circleDisplacement_nonzero r1 r2 p1 p2 :
  Vector.mag (Vector.sub p2 p1) < Rabs r1 + Rabs r2 ->
  circleDisplacement r1 r2 p1 p2 <> Vector.zero.
Proof.
  intros H. unfold circleDisplacement. apply setMag_nonzero.
  - apply central_direction_nonzero.
  - lra.
Qed.

(** The loop misses [n] times and hits in sub-step [n + 1]. *)
Lemma subSteps_hit n : forall fuel i ts d1 d2 o1 o2 this target r1 r2,
  (n < fuel)%nat ->
  circleAt r1 this -> circleAt r2 target ->
  0 <= ts -> i + INR n * ts < 1 ->
  (forall j, (1 <= j <= n)%nat ->
             Rabs r1 + Rabs r2
             <= Vector.mag (Vector.sub (after (position target) d2 j)
                                       (after (position this) d1 j))) ->
  Vector.mag (Vector.sub (after (position target) d2 (S n))
                         (after (position this) d1 (S n)))
  < Rabs r1 + Rabs r2 ->
  exists this' target',
    subSteps fuel i ts d1 d2 o1 o2 this target
    = Done (Some (circleDisplacement r1 r2 (after (position this) d1 (S n))
                                     (after (position target) d2 (S n))),
            this', target')
    /\ position this' = (if immovable this then o1
                         else after (position this) d1 (S n))
    /\ position target' = (if immovable target then o2
                           else after (position target) d2 (S n)).
Proof.
  induction n as [| n IH];
    intros fuel i ts d1 d2 o1 o2 this target r1 r2 Hfuel Ha Hb Hts Hi Hmiss Hhit;
    (destruct fuel as [| fuel]; [lia |]); rewrite subSteps_S.
  - simpl in Hi. rewrite Rltb_intro_true by lra. cbv zeta.
    destruct (refreshCollider_circle r1 _
                (circleAt_setPosition r1 (Vector.add (position this) d1) _ Ha))
      as (a' & ca & Ea & Hca & _ & Hcena & Hexta & Hposa & Hima & _).
    destruct (refreshCollider_circle r2 _
                (circleAt_setPosition r2 (Vector.add (position target) d2) _ Hb))
      as (b' & cb & Eb & Hcb & _ & Hcenb & Hextb & Hposb & Himb & _).
    rewrite Ea, Eb. simpl. rewrite Hca, Hcb. simpl.
    rewrite (collide_placed_circles ca cb r1 r2 _ _ Hexta Hcena Hextb Hcenb).
    simpl position. rewrite <- !after_1.
    rewrite Rleb_intro_false by lra. simpl.
    fold (circleDisplacement r1 r2 (after (position this) d1 1)
                             (after (position target) d2 1)).
    replace (Vector.isZero _) with false
      by (symmetry; apply isZero_false;
          now apply circleDisplacement_nonzero).
    simpl. eexists _, _. split; [reflexivity |].
    simpl in Hima, Himb. rewrite Hima, Himb.
    split.
    + destruct (immovable this); [reflexivity |].
      rewrite Hposa. simpl. now rewrite after_1.
    + destruct (immovable target); [reflexivity |].
      rewrite Hposb. simpl. now rewrite after_1.
  - rewrite S_INR in Hi.
    assert (Hn : 0 <= INR n) by apply pos_INR.
    rewrite Rltb_intro_true by nra. cbv zeta.
    pose proof (circleAt_setPosition r1 (Vector.add (position this) d1) _ Ha)
      as Ha1.
    pose proof (circleAt_setPosition r2 (Vector.add (position target) d2) _ Hb)
      as Hb1.
    destruct (refreshCollider_circle r1 _ Ha1)
      as (a' & ca & Ea & Hca & _ & Hcena & Hexta & Hposa & Hima & Hca').
    destruct (refreshCollider_circle r2 _ Hb1)
      as (b' & cb & Eb & Hcb & _ & Hcenb & Hextb & Hposb & Himb & Hcb').
    rewrite Ea, Eb. simpl. rewrite Hca, Hcb. simpl.
    rewrite (collide_placed_circles ca cb r1 r2 _ _ Hexta Hcena Hextb Hcenb).
    simpl position. rewrite <- !after_1.
    rewrite Rleb_intro_true by (specialize (Hmiss 1%nat ltac:(lia)); lra).
    cbn [bind ofOption].
    replace (Vector.isZero Vector.zero) with true
      by (symmetry; now apply isZero_true).
    simpl negb. cbv iota.
    simpl in Hposa, Hposb, Hima, Himb.
    destruct (IH fuel (i + ts) ts d1 d2 o1 o2 a' b' r1 r2)
      as (this' & target' & Hres & Hp1 & Hp2); try assumption.
    + lia.
    + nra.
    + intros j Hj. rewrite Hposa, Hposb, !after_S. apply Hmiss. lia.
    + rewrite Hposa, Hposb, !after_S. exact Hhit.
    + exists this', target'.
      rewrite Hposa, Hposb, !after_S in Hres.
      split; [exact Hres |].
      rewrite Hima in Hp1. rewrite Himb in Hp2.
      rewrite Hposa, after_S in Hp1. rewrite Hposb, after_S in Hp2.
      split; assumption.
Qed.

End SweptFacts.

(** ** The scenarios *)

Module ScenarioFacts.

Import SpriteOps Resolver ResolverFacts CircleSprites SweptFacts Scenario.

Lemma createSprite_plain x y : plainSprite (createSprite x y).
Proof. unfold plainSprite; simpl; auto. Qed.

Lemma freshSweptBox_center :
  _center freshSweptBox = Vector.zero /\ _offset freshSweptBox = Vector.zero
  /\ _parentTransform freshSweptBox = Transform.identity.
Proof.
  unfold freshSweptBox, Shape.newOrientedBoundingBoxCollider, Shape.construct.
  rewrite Reqb_refl. simpl.
  repeat split; apply vec_eq; simpl; ring.
Qed.

Lemma swept_center box s box' :
  _center box = Vector.zero -> _offset box = Vector.zero ->
  _parentTransform box = Transform.identity ->
  updateSweptColliderFromSprite box s = Some box' ->
  Shape.isBox box' = true
  /\ Shape.center box'
     = mkVec (vx (newPosition s) + 0.5 * vx (velocity s))
             (vy (newPosition s) + 0.5 * vy (velocity s)).
Proof.
  intros Hc Ho Hp. unfold updateSweptColliderFromSprite.
  destruct (collider s) as [c |]; [| discriminate].
  intros H. inversion H; subst box'. clear H.
  rewrite Hc, Ho, Hp. split; [reflexivity |].
  unfold Shape.center, Shape._onTransformChanged; simpl.
  apply vec_eq; simpl; ring.
Qed.

(** A swept box of scale one keeps that scale when its sprite moves
    straight up or down. *)
Lemma swept_scale_vertical box s box' :
  vx (velocity s) = 0 -> vy (velocity s) <> 0 ->
  _scale box = mkVec 1 1 ->
  updateSweptColliderFromSprite box s = Some box' ->
  _scale box' = mkVec 1 1.
Proof.
  intros Hx Hy Hs. unfold updateSweptColliderFromSprite.
  destruct (collider s) as [c |]; [| discriminate].
  intros H. inversion H; subst box'. clear H.
  cbn [_scale withScale]. unfold sweptScale.
  assert (Hc : cos (radians (getDirection s)) = 0).
  { unfold getDirection, atan2. rewrite Hx.
    rewrite (Rltb_intro_false 0 0) by lra.
    pose proof PI_neq0 as Hpi.
    destruct (Rltb 0 (vy (velocity s))) eqn:E1.
    - replace (radians (degrees (PI / 2))) with (PI / 2)
        by (unfold radians, degrees; field; assumption).
      apply cos_PI2.
    - destruct (Rltb (vy (velocity s)) 0) eqn:E2; [| rbool; lra].
      replace (radians (degrees (- PI / 2))) with (- (PI / 2))
        by (unfold radians, degrees; field; assumption).
      rewrite cos_neg. apply cos_PI2. }
  rewrite Hc, Reqb_refl, Hs. cbn [vx vy]. unfold Transform.sign.
  rewrite Reqb_intro_false by lra. rewrite Rltb_intro_true by lra.
  rewrite Rabs_pos_eq by lra. apply vec_eq; simpl; ring.
Qed.

(** A circle sprite after its first update. *)
Lemma updated_circleSprite x y r v1 v2 :
  let s := updated (circleSprite x y r v1 v2) in
  update (circleSprite x y r v1 v2) = Done s
  /\ circleAt r s
  /\ position s = mkVec (x + v1) (y + v2)
  /\ previousPosition s = mkVec x y
  /\ velocity s = mkVec v1 v2
  /\ immovable s = false /\ mass s = 1 /\ restitution s = 1
  /\ removed s = false
  /\ (exists c, collider s = Some c /\ Shape.center c = position s
                /\ ext c = CircleCollider r (Rabs r))
  /\ (0 < v1 * v1 + v2 * v2 ->
      exists box, _sweptCollider s = SweptBox true box
                  /\ Shape.isBox box = true
                  /\ Shape.center box = mkVec (x + 0.5 * v1) (y + 0.5 * v2)).
Proof.
  unfold updated.
  pose proof (setColliderCircle_circleAt r (createSprite x y)
                (createSprite_plain x y)) as Hc0.
  set (s0 := circleSprite x y r v1 v2).
  assert (Hs0 : circleAt r s0).
  { destruct Hc0 as (Hp & c & Hc & Hpc). split; [exact Hp |]. exists c.
    split; [exact Hc | exact Hpc]. }
  destruct Hs0 as (Hplain & c & Hcol & Hpc).
  assert (Hupd : exists s1,
             updateSwept s0 = Done s1
             /\ collider s1 = Some c /\ plainSprite s1
             /\ position s1 = mkVec x y /\ newPosition s1 = mkVec x y
             /\ velocity s1 = mkVec v1 v2
             /\ immovable s1 = false /\ mass s1 = 1 /\ restitution s1 = 1
             /\ removed s1 = false
             /\ (0 < v1 * v1 + v2 * v2 ->
                 exists box, _sweptCollider s1 = SweptBox true box
                             /\ Shape.isBox box = true
                             /\ Shape.center box
                                = mkVec (x + 0.5 * v1) (y + 0.5 * v2))).
  { unfold updateSwept.
    change (_sweptCollider s0) with (SweptBox false freshSweptBox).
    change (velocity s0) with (mkVec v1 v2).
    unfold Vector.magSq; cbn [vx vy].
    destruct (Rltb 0 (v1 * v1 + v2 * v2)) eqn:Em.
    - destruct (updateSweptColliderFromSprite freshSweptBox s0) as [box |] eqn:Eb.
      + destruct freshSweptBox_center as (F1 & F2 & F3).
        destruct (swept_center _ _ _ F1 F2 F3 Eb) as [Hb1 Hb2].
        eexists. split; [reflexivity |].
        split; [exact Hcol |]. split; [exact Hplain |].
        repeat (split; [reflexivity |]).
        intros _. exists box. split; [reflexivity |].
        split; [exact Hb1 | exact Hb2].
      + unfold updateSweptColliderFromSprite in Eb. rewrite Hcol in Eb.
        discriminate.
    - exists s0. split; [reflexivity |].
      split; [exact Hcol |]. split; [exact Hplain |].
      repeat (split; [reflexivity |]).
      intros Hpos. rbool. lra. }
  destruct Hupd as (s1 & E1 & Hc1 & Hp1 & Hpos1 & Hnew1 & Hv1 & Him1 & Hm1
                    & Hr1 & Hrem1 & Hsw1).
  unfold update. change (removed s0) with false. cbv iota.
  rewrite E1. cbn [bind].
  cbn [collider]. rewrite Hc1.
  set (s2 := mkSprite _ _ _ _ _ _ _ _ _ _ _ _ _ _ _ _ _ _ _).
  assert (Hp2 : plainSprite s2) by exact Hp1.
  destruct (updateFromSprite_plain s2 c r Hp2 Hpc) as (U1 & U2 & U3).
  split; [reflexivity |].
  split.
  { split; [exact Hp2 |]. eexists. split; [reflexivity | exact U1]. }
  assert (Hpos2 : position s2 = mkVec (x + v1) (y + v2)).
  { unfold s2; cbn [position]. rewrite Hpos1, Hv1. reflexivity. }
  split; [exact Hpos2 |].
  split; [exact Hnew1 |].
  split; [exact Hv1 |].
  split; [exact Him1 |]. split; [exact Hm1 |]. split; [exact Hr1 |].
  split; [exact Hrem1 |].
  split.
  { eexists. split; [reflexivity |]. split; [exact U2 | exact U3]. }
  exact Hsw1.
Qed.

End ScenarioFacts.

Module TunnelFacts.

Import SpriteOps Resolver ResolverFacts CircleSprites SweptFacts Scenario
       ScenarioFacts.

Lemma mag_horizontal v : vy v = 0 -> Vector.mag v = Rabs (vx v).
Proof.
  intros H. rewrite <- mag_x. f_equal. destruct v; simpl in *; now subst.
Qed.

Lemma circle_radius_pos c r ax :
  ext c = CircleCollider r (Rabs r) -> r <> 0 ->
  0 < Shape._getRadiusOnAxis c ax.
Proof.
  intros He Hr. unfold Shape._getRadiusOnAxis. rewrite He.
  now apply Rabs_pos_lt.
Qed.

(** The broad phase of a moving circle sprite against a resting one that
    sits at the centre of its swept box. *)
Lemma sweep_overlaps this target ready box c2 r2 :
  0 < Vector.magSq (velocity this) ->
  _sweptCollider this = SweptBox ready box ->
  Shape.isBox box = true ->
  velocity target = Vector.zero ->
  collider target = Some c2 ->
  ext c2 = CircleCollider r2 (Rabs r2) -> r2 <> 0 ->
  Shape.center box = Shape.center c2 ->
  _doSweptCollidersOverlap this target = Done true.
Proof.
  intros Hv Hsw Hbox Hvt Hc2 He2 Hr2 Hcen.
  unfold _doSweptCollidersOverlap, _getBroadPhaseCollider.
  rewrite (Rltb_intro_true _ _ Hv), Hsw, Hvt.
  replace (Rltb 0 (Vector.magSq Vector.zero)) with false
    by (symmetry; apply Rltb_intro_false; unfold Vector.magSq; simpl; lra).
  rewrite Hc2. cbn [ofOption bind].
  destruct (collide_same_center box c2 Hcen) as (v & Hcol & Hnz).
  - intros ax. now apply box_radius_nonneg.
  - intros ax. eapply circle_radius_pos; eassumption.
  - now apply box_axes_nonempty.
  - rewrite Hcol. cbn [ofOption bind].
    apply isZero_false in Hnz. now rewrite Hnz.
Qed.

Lemma subStepSize_circles this target c1 c2 r1 r2 :
  collider this = Some c1 -> ext c1 = CircleCollider r1 (Rabs r1) ->
  collider target = Some c2 -> ext c2 = CircleCollider r2 (Rabs r2) ->
  subStepSize this target
  = Done (timestepOf (Rmax (Rabs r1) (Rabs r2))
                     (Vector.mag (Vector.sub (velocity this)
                                             (velocity target)))).
Proof.
  intros H1 E1 H2 E2. unfold subStepSize. rewrite H1, H2. cbn [ofOption bind].
  unfold Shape._getMinRadius. now rewrite E1, E2.
Qed.

Lemma bullet_facts : bulletLike bullet.
Proof.
  destruct (updated_circleSprite 0 0 1 100 0)
    as (_ & H1 & H2 & H3 & H4 & H5 & _ & _ & H8 & (c & Hc & Hcc & Hce) & Hsw).
  fold bullet0 in *. fold bullet in *.
  assert (E : mkVec (0 + 100) (0 + 0) = mkVec 100 0)
    by (apply vec_eq; simpl; lra).
  rewrite E in H2.
  split; [exact H1 |]. split; [exact H2 |]. split; [exact H3 |].
  split; [exact H4 |]. split; [exact H5 |]. split; [exact H8 |].
  split.
  { exists c. rewrite Hcc, H2. auto. }
  destruct Hsw as (box & Hb1 & Hb2 & Hb3); [lra |].
  exists box. split; [exact Hb1 |]. split; [exact Hb2 |].
  rewrite Hb3. apply vec_eq; simpl; lra.
Qed.

Lemma resting_facts x r : restingLike x r (updated (circleSprite x 0 r 0 0)).
Proof.
  set (s := updated (circleSprite x 0 r 0 0)).
  destruct (updated_circleSprite x 0 r 0 0)
    as (_ & H1 & H2 & H3 & H4 & H5 & H6 & H7 & H8 & (c & Hc & Hcc & Hce) & _).
  fold s in H1, H2, H3, H4, H5, H6, H7, H8, Hc, Hcc.
  assert (E : mkVec (x + 0) (0 + 0) = mkVec x 0)
    by (apply vec_eq; simpl; lra).
  rewrite E in H2.
  split; [exact H1 |]. split; [exact H2 |]. split; [exact H3 |].
  split; [exact H4 |]. split; [exact H5 |]. split; [exact H6 |].
  split; [exact H7 |]. split; [exact H8 |].
  exists c. rewrite Hcc, H2. auto.
Qed.

Lemma bulletLike_setTouching t a : bulletLike a -> bulletLike (setTouching t a).
Proof. intros H. exact H. Qed.

Lemma bullet_sweep_overlaps {m e} a b r :
  bulletLike a -> restingWith m e 50 r b -> r <> 0 ->
  _doSweptCollidersOverlap a b = Done true.
Proof.
  intros (_ & _ & _ & Hv & _ & _ & _ & (box & Hb1 & Hb2 & Hb3))
         (_ & _ & _ & Hvt & _ & _ & _ & _ & (c & Hc & Hcc & Hce)) Hr.
  eapply sweep_overlaps; try eassumption.
  - rewrite Hv. unfold Vector.magSq; simpl. lra.
  - now rewrite Hb3, Hcc.
Qed.

Lemma bullet_speed {m e} a b r :
  bulletLike a -> restingWith m e 50 r b ->
  Vector.mag (Vector.sub (velocity a) (velocity b)) = 100.
Proof.
  intros (_ & _ & _ & Hv & _) (_ & _ & _ & Hvt & _).
  rewrite Hv, Hvt. rewrite mag_horizontal by (simpl; lra).
  simpl. rewrite Rabs_pos_eq; lra.
Qed.

Lemma bullet_subStepSize {m e} a b r :
  bulletLike a -> restingWith m e 50 r b ->
  subStepSize a b = Done (Some (Rmax floor_timestep (Rmax 1 (Rabs r) / 100))).
Proof.
  intros Ha Hb. pose proof (bullet_speed a b r Ha Hb) as Hsp.
  destruct Ha as (_ & _ & _ & _ & _ & _ & (c1 & Hc1 & _ & He1) & _).
  destruct Hb as (_ & _ & _ & _ & _ & _ & _ & _ & (c & Hc & Hcc & Hce)).
  rewrite (subStepSize_circles _ _ _ _ _ _ Hc1 He1 Hc Hce).
  rewrite Hsp. unfold timestepOf.
  rewrite Reqb_intro_false by lra.
  rewrite (Rabs_pos_eq 1) by lra. reflexivity.
Qed.

End TunnelFacts.

Module TunnelRun.

Import SpriteOps Resolver ResolverFacts CircleSprites SweptFacts Scenario
       ScenarioFacts TunnelFacts.

Lemma wall_facts : restingLike 50 1 wall.
Proof. exact (resting_facts 50 1). Qed.

Lemma timestep_bullet_wall :
  Rmax floor_timestep (Rmax 1 (Rabs 1) / 100) = 15 / 1000.
Proof.
  rewrite (Rabs_pos_eq 1) by lra.
  rewrite (Rmax_left 1 1) by lra.
  unfold floor_timestep. apply Rmax_left. lra.
Qed.

(** Sub-step 33 puts the moving sprite at (49.5, 0), half a unit from the
    centre of the resting one. *)
Lemma bullet_hits_wall {m e} a b :
  bulletLike a -> restingWith m e 50 1 b ->
  exists a' b',
    _findDisplacement maxSubSteps a b
    = Done (circleDisplacement 1 1 (mkVec (495 / 10) 0) (mkVec 50 0), a', b')
    /\ position a' = mkVec (495 / 10) 0
    /\ position b' = mkVec 50 0.
Proof.
  intros Ha Hb.
  pose proof (bullet_sweep_overlaps a b 1 Ha Hb ltac:(lra)) as Hsweep.
  pose proof (bullet_subStepSize a b 1 Ha Hb) as Hsize.
  destruct Ha as (Hca & Hpa & Hprev & Hv & Hima & _ & _ & _).
  destruct Hb as (Hcb & Hpb & Hprevb & Hvb & Himb & _ & _ & _ & _).
  unfold _findDisplacement.
  rewrite Hsweep. cbn [bind].
  rewrite Hsize. cbn [bind].
  rewrite timestep_bullet_wall.
  rewrite Rltb_intro_true by lra.
  rewrite Hpa, Hprev, Hpb, Hprevb.
  set (d1 := Vector.mult (Vector.sub (mkVec 100 0) (mkVec 0 0)) (15 / 1000)).
  set (d2 := Vector.mult (Vector.sub (mkVec 50 0) (mkVec 50 0)) (15 / 1000)).
  assert (Hpos1 : forall j, after (mkVec 0 0) d1 j = mkVec (15 / 10 * INR j) 0).
  { intros j. unfold after, d1. apply vec_eq; simpl; lra. }
  assert (Hpos2 : forall j, after (mkVec 50 0) d2 j = mkVec 50 0).
  { intros j. unfold after, d2. apply vec_eq; simpl; lra. }
  destruct (subSteps_hit 32 maxSubSteps (15 / 1000) (15 / 1000) d1 d2
              (mkVec 100 0) (mkVec 50 0)
              (setPosition (mkVec 0 0) a) (setPosition (mkVec 50 0) b)
              1 1)
    as (a' & b' & Hres & Hp1 & Hp2).
  - unfold maxSubSteps. lia.
  - now apply circleAt_setPosition.
  - now apply circleAt_setPosition.
  - lra.
  - simpl. lra.
  - intros j Hj. cbn [position setPosition]. rewrite Hpos1, Hpos2.
    rewrite mag_horizontal by (simpl; lra). simpl.
    rewrite (Rabs_pos_eq 1) by lra.
    assert (Hle : INR j <= 32).
    { replace 32 with (INR 32) by (simpl; lra). apply le_INR. lia. }
    rewrite Rabs_pos_eq; lra.
  - cbn [position setPosition]. rewrite Hpos1, Hpos2.
    rewrite mag_horizontal by (simpl; lra).
    rewrite (Rabs_pos_eq 1) by lra.
    replace (INR 33) with 33 by (simpl; lra).
    simpl. rewrite Rabs_pos_eq; lra.
  - cbn [position setPosition immovable] in Hres, Hp1, Hp2.
    rewrite Hpos1, Hpos2 in Hres.
    assert (E33 : 15 / 10 * INR 33 = 495 / 10) by (simpl; lra).
    rewrite E33 in Hres.
    rewrite Hres. cbn [bind].
    exists a', b'. split; [reflexivity |].
    change (immovable (setPosition (mkVec 0 0) a)) with (immovable a) in Hp1.
    change (immovable (setPosition (mkVec 50 0) b)) with (immovable b) in Hp2.
    rewrite Hima in Hp1. rewrite Himb in Hp2.
    rewrite Hpos1, E33 in Hp1. rewrite Hpos2 in Hp2.
    split; assumption.
Qed.

Lemma bullet_wall_displacement :
  circleDisplacement 1 1 (mkVec (495 / 10) 0) (mkVec 50 0)
  = mkVec (- (15 / 10)) 0.
Proof.
  unfold circleDisplacement.
  set (d := Vector.sub (mkVec 50 0) (mkVec (495 / 10) 0)).
  assert (Hd : d = mkVec (5 / 10) 0) by (apply vec_eq; simpl; lra).
  rewrite Hd.
  assert (Hnz : mkVec (5 / 10) 0 <> Vector.zero).
  { intros E. inversion E. lra. }
  replace (Vector.isZero (mkVec (5 / 10) 0)) with false
    by (symmetry; now apply isZero_false).
  rewrite setMag_multiple by assumption.
  rewrite mag_x, !Rabs_pos_eq by lra.
  apply vec_eq; simpl; field.
Qed.

Lemma circleSprite_collider x y r v1 v2 :
  exists c, collider (circleSprite x y r v1 v2) = Some c
            /\ Shape.center c = mkVec x y
            /\ ext c = CircleCollider r (Rabs r).
Proof.
  eexists. split; [reflexivity |].
  unfold createCircleFromSprite.
  destruct (updateFromSprite_plain (createSprite x y)
              (withGetsDimensions false (Shape.newCircleCollider Vector.zero r))
              r (createSprite_plain x y)
              (withGetsDimensions_plain r _ (newCircleCollider_plain r)))
    as (_ & H2 & H3).
  split; assumption.
Qed.

(** Two circles of radius 1 whose centres are 50 apart on the x axis do not
    overlap. *)
Lemma apart_by_50 c1 c2 x1 x2 :
  Shape.center c1 = mkVec x1 0 -> ext c1 = CircleCollider 1 (Rabs 1) ->
  Shape.center c2 = mkVec x2 0 -> ext c2 = CircleCollider 1 (Rabs 1) ->
  Rabs (x2 - x1) = 50 ->
  Shape.collide c1 c2 = Some Vector.zero.
Proof.
  intros H1 E1 H2 E2 Hd.
  rewrite (collide_placed_circles c1 c2 1 1 _ _ E1 H1 E2 H2).
  rewrite mag_horizontal by (simpl; lra). simpl. rewrite Hd.
  rewrite (Rabs_pos_eq 1) by lra.
  now rewrite Rleb_intro_true by lra.
Qed.

End TunnelRun.

Import SpriteOps Resolver ResolverFacts CircleSprites SweptFacts Scenario
       ScenarioFacts TunnelFacts TunnelRun.

(** C4.  A circle sprite of radius 1 that moved from (0,0) to (100,0) in the
    last update, tested against a circle sprite of radius 1 at rest at
    (50,0): [_findDisplacement] returns the displacement (-1.5, 0), found in
    a sub-step, although the colliders overlap neither at the positions
    before the update nor at those after it. *)
Theorem tunnelling_is_caught :
  update bullet0 = Done bullet
  /\ update wall0 = Done wall
  /\ position bullet = mkVec 100 0
  /\ previousPosition bullet = mkVec 0 0
  /\ position wall = mkVec 50 0
  /\ (exists a' b',
        _findDisplacement maxSubSteps bullet wall
        = Done (mkVec (- (15 / 10)) 0, a', b')
        /\ mkVec (- (15 / 10)) 0 <> Vector.zero)
  /\ (exists c1 c2,
        collider bullet0 = Some c1 /\ collider wall0 = Some c2
        /\ Shape.collide c1 c2 = Some Vector.zero)
  /\ (exists c1 c2,
        collider bullet = Some c1 /\ collider wall = Some c2
        /\ Shape.collide c1 c2 = Some Vector.zero).
Proof.
  pose proof bullet_facts as Hb. pose proof wall_facts as Hw.
  split; [apply (updated_circleSprite 0 0 1 100 0) |].
  split; [apply (updated_circleSprite 50 0 1 0 0) |].
  split; [apply Hb |]. split; [apply Hb |]. split; [apply Hw |].
  split.
  { destruct (bullet_hits_wall bullet wall Hb Hw) as (a' & b' & Hres & _).
    rewrite bullet_wall_displacement in Hres.
    exists a', b'. split; [exact Hres |].
    intros E. inversion E. lra. }
  split.
  - destruct (circleSprite_collider 0 0 1 100 0) as (c1 & Hc1 & Hcen1 & He1).
    destruct (circleSprite_collider 50 0 1 0 0) as (c2 & Hc2 & Hcen2 & He2).
    exists c1, c2. split; [exact Hc1 |]. split; [exact Hc2 |].
    apply (apart_by_50 c1 c2 0 50); try assumption.
    rewrite Rabs_pos_eq; lra.
  - destruct Hb as (_ & _ & _ & _ & _ & _ & (c1 & Hc1 & Hcen1 & He1) & _).
    destruct Hw as (_ & _ & _ & _ & _ & _ & _ & _ & (c2 & Hc2 & Hcen2 & He2)).
    exists c1, c2. split; [exact Hc1 |]. split; [exact Hc2 |].
    apply (apart_by_50 c1 c2 100 50); try assumption.
    rewrite Rabs_left; lra.
Qed.

(** ** The number of sub-steps *)

Module FuelFacts.

Import SpriteOps Resolver.

Lemma bind_fuel {A B} (m : outcome A) (k : A -> outcome B) :
  m <> OutOfFuel -> (forall a, k a <> OutOfFuel) -> bind m k <> OutOfFuel.
Proof. intros Hm Hk. destruct m; simpl; congruence || apply Hk. Qed.

Lemma ofOption_fuel {A} (o : option A) : ofOption o <> OutOfFuel.
Proof. destruct o; discriminate. Qed.

Lemma refreshCollider_fuel s : refreshCollider s <> OutOfFuel.
Proof.
  unfold refreshCollider. apply bind_fuel; [apply ofOption_fuel |].
  intros; discriminate.
Qed.

Lemma finalCheck_fuel this target : finalCheck this target <> OutOfFuel.
Proof.
  unfold finalCheck.
  repeat (apply bind_fuel;
          [first [apply refreshCollider_fuel | apply ofOption_fuel] | intros]).
  discriminate.
Qed.

Lemma doSwept_fuel this target :
  _doSweptCollidersOverlap this target <> OutOfFuel.
Proof.
  unfold _doSweptCollidersOverlap.
  repeat (apply bind_fuel; [apply ofOption_fuel | intros]).
  discriminate.
Qed.

Lemma subStepSize_fuel this target : subStepSize this target <> OutOfFuel.
Proof.
  unfold subStepSize.
  repeat (apply bind_fuel; [apply ofOption_fuel | intros]).
  discriminate.
Qed.

Lemma timestepOf_floor radius speed ts :
  timestepOf radius speed = Some ts -> floor_timestep <= ts.
Proof.
  unfold timestepOf. destruct (Reqb speed 0).
  - destruct (Rltb radius 0); intros H; inversion H; lra.
  - intros H; inversion H. apply Rmax_l.
Qed.

Lemma subStepSize_floor this target ts :
  subStepSize this target = Done (Some ts) -> floor_timestep <= ts.
Proof.
  unfold subStepSize. intros H.
  destruct (collider this); simpl in H; [| discriminate].
  destruct (collider target); simpl in H; [| discriminate].
  inversion H as [H1]. now apply timestepOf_floor in H1.
Qed.

(** The loop ends within [fuel] rounds as soon as [fuel] sub-steps reach
    past the end of the frame. *)
Lemma subSteps_fuel fuel : forall i ts d1 d2 o1 o2 this target,
  0 <= ts -> (0 < fuel)%nat -> 1 <= i + INR (pred fuel) * ts ->
  subSteps fuel i ts d1 d2 o1 o2 this target <> OutOfFuel.
Proof.
  induction fuel as [| fuel IH]; intros i ts d1 d2 o1 o2 this target Hts Hf Hi;
    [lia |].
  rewrite SweptFacts.subSteps_S. simpl pred in Hi.
  destruct (Rltb i 1) eqn:E; [| discriminate]. rbool. cbv zeta.
  repeat (apply bind_fuel;
          [first [apply refreshCollider_fuel | apply ofOption_fuel] | intros]).
  destruct (negb (Vector.isZero a3)); [discriminate |].
  destruct fuel as [| fuel']; [simpl in Hi; lra |].
  apply IH; [assumption | lia |].
  simpl pred. rewrite S_INR in Hi. lra.
Qed.

Lemma findDisplacement_fuel fuel this target :
  (maxSubSteps <= fuel)%nat ->
  _findDisplacement fuel this target <> OutOfFuel.
Proof.
  intros Hfuel. unfold _findDisplacement.
  apply bind_fuel; [apply doSwept_fuel |]. intros swept.
  destruct swept; [| apply finalCheck_fuel].
  destruct (subStepSize this target) as [[ts |] | | |] eqn:Ets; simpl;
    try discriminate; try apply finalCheck_fuel.
  2: { exfalso. eapply subStepSize_fuel; eassumption. }
  apply subStepSize_floor in Ets. unfold floor_timestep in Ets.
  destruct (Rltb ts 1); [| apply finalCheck_fuel].
  apply bind_fuel.
  - apply subSteps_fuel; [lra | unfold maxSubSteps in Hfuel; lia |].
    assert (H66 : 66 <= INR (pred fuel)).
    { replace 66 with (INR 66) by (simpl; lra). apply le_INR.
      unfold maxSubSteps in Hfuel. lia. }
    nra.
  - intros [[[dv |] t1] t2]; [discriminate | apply finalCheck_fuel].
Qed.

End FuelFacts.

(** C3, as amended.  In [_findDisplacement] the sub-step size is the larger
    of the floor 0.015 and the quotient of the LARGER of the two colliders'
    minimum radii by the relative speed (for a relative speed that is not
    zero); it is never below the floor, and the sub-step loop therefore ends
    within 67 rounds. *)
Theorem substep_size_uses_larger_radius
        (this target : Sprite) (c1 c2 : CollisionShape) :
  collider this = Some c1 ->
  collider target = Some c2 ->
  let relativeVelocity :=
    Vector.mag (Vector.sub (velocity this) (velocity target)) in
  (relativeVelocity <> 0 ->
   subStepSize this target
   = Done (Some (Rmax (15 / 1000)
                      (Rmax (Shape._getMinRadius c1) (Shape._getMinRadius c2)
                       / relativeVelocity))))
  /\ (forall ts, subStepSize this target = Done (Some ts) -> 15 / 1000 <= ts)
  /\ (forall fuel, (67 <= fuel)%nat ->
                   _findDisplacement fuel this target <> OutOfFuel).
Proof.
  intros H1 H2 rel. split; [| split].
  - intros Hrel. unfold subStepSize. rewrite H1, H2. simpl.
    fold rel. unfold timestepOf. now rewrite Reqb_intro_false.
  - intros ts H. now apply FuelFacts.subStepSize_floor in H.
  - intros fuel Hf. now apply FuelFacts.findDisplacement_fuel.
Qed.

Lemma substep_size_witness :
  exists c1 c2,
    collider bullet = Some c1 /\ collider bigWall = Some c2
    /\ (forall fuel, (67 <= fuel)%nat ->
                     _findDisplacement fuel bullet bigWall <> OutOfFuel).
Proof.
  destruct bullet_facts as (_ & _ & _ & _ & _ & _ & (c1 & Hc1 & _) & _).
  destruct (resting_facts 50 3)
    as (_ & _ & _ & _ & _ & _ & _ & _ & (c2 & Hc2 & _)).
  exists c1, c2. split; [exact Hc1 |]. split; [exact Hc2 |].
  exact (proj2 (proj2 (substep_size_uses_larger_radius bullet bigWall c1 c2
                         Hc1 Hc2))).
Defined.

(** C3 as stated fails: for the moving circle of radius 1 and a resting
    circle of radius 3 the swept broad phase overlaps and the program uses
    the sub-step size 0.03, while the smaller radius would give 0.015. *)
Lemma substep_size_is_not_min :
  _doSweptCollidersOverlap bullet bigWall = Done true
  /\ subStepSize bullet bigWall = Done (Some (3 / 100))
  /\ subStepSize_spec bullet bigWall = Done (Some (15 / 1000))
  /\ subStepSize bullet bigWall <> subStepSize_spec bullet bigWall.
Proof.
  pose proof bullet_facts as Hb. pose proof (resting_facts 50 3) as Hw.
  fold bigWall0 in Hw. fold bigWall in Hw.
  assert (H1 : subStepSize bullet bigWall = Done (Some (3 / 100))).
  { rewrite (bullet_subStepSize bullet bigWall 3 Hb Hw).
    rewrite (Rabs_pos_eq 3) by lra. rewrite (Rmax_right 1 3) by lra.
    unfold floor_timestep. rewrite Rmax_right by lra. reflexivity. }
  assert (H2 : subStepSize_spec bullet bigWall = Done (Some (15 / 1000))).
  { pose proof (bullet_speed bullet bigWall 3 Hb Hw) as Hsp.
    destruct Hb as (_ & _ & _ & _ & _ & _ & (c1 & Hc1 & _ & He1) & _).
    destruct Hw as (_ & _ & _ & _ & _ & _ & _ & _ & (c2 & Hc2 & _ & He2)).
    unfold subStepSize_spec. rewrite Hc1, Hc2. simpl.
    unfold Shape._getMinRadius. rewrite He1, He2, Hsp.
    unfold timestepOf. rewrite Reqb_intro_false by lra.
    rewrite (Rabs_pos_eq 3), (Rabs_pos_eq 1) by lra.
    rewrite (Rmin_left 1 3) by lra.
    unfold floor_timestep. rewrite Rmax_left by lra. reflexivity. }
  split; [apply (bullet_sweep_overlaps bullet bigWall 3 Hb Hw); lra |].
  split; [exact H1 |]. split; [exact H2 |].
  rewrite H1, H2. intros E. inversion E. lra.
Qed.

(** ** The response to a collision *)

Module ResponseFacts.

Import SpriteOps Resolver ResolverFacts.

Lemma subSteps_collider fuel : forall i ts d1 d2 o1 o2 this target dv this' target',
  subSteps fuel i ts d1 d2 o1 o2 this target = Done (Some dv, this', target') ->
  collider this' <> None /\ collider target' <> None.
Proof.
  induction fuel as [| fuel IH]; intros i ts d1 d2 o1 o2 this target dv this'
                                        target' H; simpl in H; [discriminate |].
  destruct (Rltb i 1); [| discriminate].
  bind_inv H. bind_inv H. bind_inv H. bind_inv H. bind_inv H.
  apply ofOption_Done in E1, E2.
  destruct (negb (Vector.isZero a3)).
  - inversion H; subst.
    split.
    + destruct (immovable a); simpl; congruence.
    + destruct (immovable a0); simpl; congruence.
  - now apply IH in H.
Qed.

Lemma finalCheck_collider this target d this' target' :
  finalCheck this target = Done (d, this', target') ->
  collider this' <> None /\ collider target' <> None.
Proof.
  unfold finalCheck. intros H.
  bind_inv H. bind_inv H. bind_inv H. bind_inv H. bind_inv H.
  apply ofOption_Done in E1, E2. inversion H; subst. split; congruence.
Qed.

Lemma findDisplacement_collider fuel this target d this' target' :
  _findDisplacement fuel this target = Done (d, this', target') ->
  collider this' <> None /\ collider target' <> None.
Proof.
  unfold _findDisplacement. intros H. bind_inv H.
  destruct a; [| now apply finalCheck_collider in H].
  bind_inv H. destruct a as [ts |]; [| now apply finalCheck_collider in H].
  destruct (Rltb ts 1); [| now apply finalCheck_collider in H].
  bind_inv H. destruct a as [[[dv |] t1] t2].
  - inversion H; subst. now apply subSteps_collider in E1.
  - now apply finalCheck_collider in H.
Qed.

Lemma body_dynamics s s' : body s' = body s -> dynamics s' = dynamics s.
Proof. unfold body, dynamics. intros H. now inversion H. Qed.

Lemma dynamics_inv s s' :
  dynamics s' = dynamics s ->
  velocity s' = velocity s /\ mass s' = mass s
  /\ immovable s' = immovable s /\ restitution s' = restitution s.
Proof. unfold dynamics. intros H. inversion H. auto. Qed.

Lemma displaceOut_dynamics type d this other this' other' :
  displaceOut type d this other = Done (this', other') ->
  dynamics this' = dynamics this /\ dynamics other' = dynamics other.
Proof.
  unfold displaceOut. intros H.
  destruct (CollisionType_eqb type displace && negb (immovable other)).
  - inversion H; subst. split; reflexivity.
  - destruct (movesCaller type && negb (immovable this)).
    + bind_inv H. inversion H; subst.
      apply refreshCollider_frame in E. destruct E as [E _].
      apply body_dynamics in E. split; [exact E | reflexivity].
    + inversion H; subst. split; reflexivity.
Qed.

Lemma project_project v n :
  n <> Vector.zero ->
  Vector.project (Vector.project v n) n = Vector.project v n.
Proof.
  intros Hn. pose proof (magSq_pos n Hn) as Hm. unfold Vector.magSq in Hm.
  unfold Vector.project, Vector.dot, Vector.mult.
  apply vec_eq; simpl; field; lra.
Qed.

Lemma project_sub a b n :
  Vector.project (Vector.sub a b) n
  = Vector.sub (Vector.project a n) (Vector.project b n).
Proof.
  unfold Vector.project, Vector.dot, Vector.mult, Vector.sub.
  apply vec_eq; simpl; unfold Rdiv; ring.
Qed.

(** The one-dimensional two-body formula for equal masses, restitution 1
    and a second body at rest: the bodies exchange their normal velocities. *)
Lemma bounce_exchanges n this other :
  n <> Vector.zero ->
  immovable this = false ->
  mass this = mass other -> mass this <> 0 ->
  restitution this * restitution other = 1 ->
  velocity other = Vector.zero ->
  exists v1 v2,
    bounceVelocities n this other false (restitution other) = Done (v1, v2)
    /\ v1 = Vector.sub (velocity this) (Vector.project (velocity this) n)
    /\ v2 = Vector.project (velocity this) n.
Proof.
  intros Hn Him Hm Hm0 Hr Hv. unfold bounceVelocities, Vector.div.
  rewrite Him, Hr, Hv, <- Hm. rewrite project_zero_l.
  rewrite !Reqb_intro_false by lra.
  eexists _, _. split; [reflexivity |].
  generalize (Vector.project (velocity this) n) as p. intros p.
  split; apply vec_eq; simpl; field; lra.
Qed.

(** The same formula when both masses are zero: nothing is divided, the
    first body loses its normal velocity and the second stays at rest. *)
Lemma bounce_massless n this other :
  immovable this = false ->
  mass this = 0 -> mass other = 0 ->
  velocity other = Vector.zero ->
  bounceVelocities n this other false (restitution other)
  = Done (Vector.sub (velocity this) (Vector.project (velocity this) n),
          Vector.zero).
Proof.
  intros Him Hm1 Hm2 Hv. unfold bounceVelocities, Vector.div.
  rewrite Him, Hm1, Hm2, Hv, project_zero_l.
  replace (Reqb (0 + 0) 0) with true by (symmetry; apply Reqb_true; lra).
  generalize (Vector.project (velocity this) n) as p. intros p.
  f_equal. f_equal; apply vec_eq; simpl; ring.
Qed.

(** What a test of one candidate that found a collision went through: the
    displacement found for the pair, and the velocity response on two
    sprites with the dynamic attributes of the two that were passed. *)
Lemma collideWithOther_found fuel type thisRef otherRef this other callback
      log this' other' log' :
  collideWithOther fuel type thisRef otherRef this other callback log
  = Done (true, this', other', log') ->
  exists n a b a1 b1,
    _findDisplacement fuel (withDefaultCollider this)
                      (withDefaultCollider other) = Done (n, a, b)
    /\ n <> Vector.zero
    /\ dynamics a1 = dynamics this /\ dynamics b1 = dynamics other
    /\ velocityResponse type n a1 b1 = Done (this', other').
Proof.
  intros H. unfold collideWithOther in H.
  destruct (removed other); [discriminate |].
  destruct (body_withDefaultCollider_velocity this)
    as (Dv1 & Dm1 & Di1 & Dr1 & _).
  destruct (body_withDefaultCollider_velocity other)
    as (Dv2 & Dm2 & Di2 & Dr2 & _).
  destruct (collider (withDefaultCollider this)); [| discriminate].
  destruct (collider (withDefaultCollider other)); [| discriminate].
  bind_step H. destruct a as [[n a] b].
  destruct (Vector.isZero n) eqn:En; [discriminate |].
  apply isZero_false in En.
  bind_step H. destruct a0 as [a1 b1]. bind_step H. destruct a0 as [a2 b2].
  inversion H; subst this' other' log'. clear H.
  apply findDisplacement_frame in E as Hframe. destruct Hframe as [Fa Fb].
  apply body_dynamics in Fa, Fb.
  apply displaceOut_dynamics in E0. destruct E0 as [Ga Gb].
  exists n, a, b, a1, b1. cbn [fst snd] in E1.
  split; [reflexivity |]. split; [exact En |].
  split.
  { rewrite Ga. unfold dynamics in *.
    cbn [velocity mass immovable restitution setTouching].
    rewrite <- Dv1, <- Dm1, <- Di1, <- Dr1. exact Fa. }
  split.
  { rewrite Gb. unfold dynamics in *.
    rewrite <- Dv2, <- Dm2, <- Di2, <- Dr2. exact Fb. }
  exact E1.
Qed.

End ResponseFacts.

Import ResponseFacts.

(** C5, as amended.  A bounce between two movable sprites of equal,
    non-zero mass whose restitutions multiply to 1, the second at rest.
    With [n] the displacement found for the pair (the collision normal) and
    [v] the component of the first sprite's velocity along [n]: afterwards
    the first sprite has no velocity along [n], the second has exactly [v],
    and the components across [n] are as before (zero for the second). *)
Theorem elastic_bounce_exchanges_normal_velocity
        (fuel : nat) (thisRef otherRef : nat) (this other : Sprite)
        (callback : bool) (log : CallLog)
        (this' other' : Sprite) (log' : CallLog) :
  immovable this = false ->
  immovable other = false ->
  mass this = mass other ->
  mass this <> 0 ->
  restitution this * restitution other = 1 ->
  velocity other = Vector.zero ->
  collideWithOther fuel bounce thisRef otherRef this other callback log
  = Done (true, this', other', log') ->
  exists n a b,
    _findDisplacement fuel (withDefaultCollider this)
                      (withDefaultCollider other) = Done (n, a, b)
    /\ n <> Vector.zero
    /\ Vector.project (velocity this') n = Vector.zero
    /\ Vector.project (velocity other') n = Vector.project (velocity this) n
    /\ Vector.sub (velocity this') (Vector.project (velocity this') n)
       = Vector.sub (velocity this) (Vector.project (velocity this) n)
    /\ Vector.sub (velocity other') (Vector.project (velocity other') n)
       = Vector.zero.
Proof.
  intros Him1 Him2 Hm Hm0 Hr Hv H.
  unfold collideWithOther in H.
  destruct (removed other); [discriminate |].
  destruct (body_withDefaultCollider_velocity this) as (Dv1 & Dm1 & Di1 & Dr1 & _).
  destruct (body_withDefaultCollider_velocity other) as (Dv2 & Dm2 & Di2 & Dr2 & _).
  destruct (collider (withDefaultCollider this)); [| discriminate].
  destruct (collider (withDefaultCollider other)); [| discriminate].
  bind_step H. destruct a as [[n a] b].
  destruct (Vector.isZero n) eqn:En; [discriminate |].
  apply isZero_false in En.
  bind_step H. destruct a0 as [a1 b1]. bind_step H. destruct a0 as [a2 b2].
  inversion H; subst this' other' log'. clear H.
  apply findDisplacement_frame in E as Hframe. destruct Hframe as [Fa Fb].
  apply body_dynamics in Fa, Fb.
  apply displaceOut_dynamics in E0. destruct E0 as [Ga Gb].
  assert (Ha1 : dynamics a1 = dynamics this).
  { rewrite Ga. unfold dynamics in *. cbn [velocity mass immovable restitution setTouching].
    rewrite <- Dv1, <- Dm1, <- Di1, <- Dr1. exact Fa. }
  assert (Hb1 : dynamics b1 = dynamics other).
  { rewrite Gb. unfold dynamics in *. rewrite <- Dv2, <- Dm2, <- Di2, <- Dr2.
    exact Fb. }
  unfold dynamics in Ha1, Hb1. inversion Ha1 as [[Av Am Ai Ar]].
  inversion Hb1 as [[Bv Bm Bi Br]].
  unfold velocityResponse in E1. cbn [fst snd] in E1. rewrite Bi, Him2 in E1.
  destruct (bounce_exchanges n a1 b1 En) as (v1 & v2 & Hbv & Hv1 & Hv2);
    try congruence.
  rewrite Hbv in E1. simpl in E1. inversion E1; subst a2 b2. clear E1.
  exists n, a, b. split; [reflexivity |]. split; [exact En |].
  cbn [fst snd velocity setVelocity]. subst v1 v2. rewrite Av.
  rewrite project_sub, !project_project by assumption.
  repeat split; apply vec_eq; simpl; ring.
Qed.

(** ** The resolver on the tunnelling scenario *)

Module TunnelResolve.

Import SpriteOps Resolver ResolverFacts CircleSprites SweptFacts Scenario
       ScenarioFacts TunnelFacts TunnelRun ResponseFacts.

Lemma displacement_not_zero : Vector.isZero (mkVec (- (15 / 10)) 0) = false.
Proof. apply isZero_false. intros E. inversion E. lra. Qed.

(** The first half of [_collideWithOne] on the scenario: the colliders are
    there, the displacement is (-1.5, 0). *)
Lemma bullet_wall_found {m e} a b :
  bulletLike a -> restingWith m e 50 1 b ->
  withDefaultCollider a = a /\ withDefaultCollider b = b
  /\ removed b = false
  /\ (exists ca cb, collider a = Some ca /\ collider b = Some cb)
  /\ exists a' b',
       _findDisplacement maxSubSteps a b = Done (mkVec (- (15 / 10)) 0, a', b')
       /\ position a' = mkVec (495 / 10) 0
       /\ position b' = mkVec 50 0
       /\ body a' = body a /\ body b' = body b
       /\ collider a' <> None /\ collider b' <> None.
Proof.
  intros Ha Hb.
  destruct (bullet_hits_wall a b Ha Hb) as (a' & b' & Hres & Hp1 & Hp2).
  rewrite bullet_wall_displacement in Hres.
  destruct Ha as (_ & _ & _ & _ & _ & _ & (ca & Hca & _) & _).
  destruct Hb as (_ & _ & _ & _ & _ & _ & _ & Hrem & (cb & Hcb & _)).
  unfold withDefaultCollider. rewrite Hca, Hcb.
  split; [reflexivity |]. split; [reflexivity |]. split; [exact Hrem |].
  split; [eauto |].
  exists a', b'. split; [exact Hres |].
  split; [exact Hp1 |]. split; [exact Hp2 |].
  destruct (findDisplacement_frame _ _ _ _ _ _ Hres) as [F1 F2].
  destruct (findDisplacement_collider _ _ _ _ _ _ Hres) as [C1 C2].
  auto.
Qed.

(** [overlap] on the scenario: the call reports the touch and leaves the
    moving sprite at the position of the sub-step. *)
Lemma bullet_wall_overlap a b thisRef otherRef callback log :
  bulletLike a -> restingLike 50 1 b ->
  exists a' b',
    collideWithOther maxSubSteps overlap thisRef otherRef a b callback log
    = Done (true, a', b',
            if callback then log ++ [(thisRef, otherRef)] else log)
    /\ position a' = mkVec (495 / 10) 0
    /\ velocity a' = velocity a
    /\ position b' = mkVec 50 0.
Proof.
  intros Ha Hb.
  destruct (bullet_wall_found a b Ha Hb)
    as (Da & Db & Hrem & (ca & cb & Hca & Hcb)
        & a' & b' & Hres & Hp1 & Hp2 & F1 & F2 & _).
  unfold collideWithOther. rewrite Hrem, Da, Db, Hca, Hcb, Hres.
  cbn [bind]. rewrite displacement_not_zero.
  unfold displaceOut. cbn [CollisionType_eqb movesCaller andb bind].
  unfold velocityResponse. cbn [bind fst snd].
  unfold callCallback. cbn [CollisionType_eqb negb]. rewrite andb_true_r.
  eexists _, _. split; [reflexivity |].
  split; [exact Hp1 |]. split; [| exact Hp2].
  cbn [velocity setTouching]. now apply body_velocity.
Qed.

Lemma bullet_wall_bounce {m e} a b thisRef otherRef callback log :
  bulletLike a -> restingWith m e 50 1 b ->
  exists a' b' log',
    collideWithOther maxSubSteps bounce thisRef otherRef a b callback log
    = Done (true, a', b', log').
Proof.
  intros Ha Hb.
  destruct (bullet_wall_found a b Ha Hb)
    as (Da & Db & Hrem & (ca & cb & Hca & Hcb)
        & a' & b' & Hres & Hp1 & Hp2 & F1 & F2 & C1 & C2).
  destruct Ha as (_ & _ & _ & _ & Hima & _).
  destruct Hb as (_ & _ & _ & _ & Himb & Hmb & _).
  unfold collideWithOther. rewrite Hrem, Da, Db, Hca, Hcb, Hres.
  cbn [bind]. rewrite displacement_not_zero.
  unfold displaceOut. cbn [CollisionType_eqb movesCaller andb].
  cbn [immovable setTouching].
  rewrite (body_immovable _ _ F1), Hima. cbn [negb].
  unfold refreshCollider.
  cbn [collider setPreviousAndNewPosition setPosition setTouching].
  destruct (collider a') as [ca' |] eqn:Eca; [| congruence].
  cbn [ofOption bind fst snd].
  unfold velocityResponse. rewrite (body_immovable _ _ F2), Himb.
  unfold bounceVelocities.
  cbn [immovable mass setColliderShape setColliders setPreviousAndNewPosition
       setPosition setTouching].
  rewrite (body_immovable _ _ F1), Hima.
  cbn [bind fst snd]. eexists _, _, _. reflexivity.
Qed.

Lemma bullet_mass : mass bullet = 1 /\ restitution bullet = 1.
Proof.
  destruct (updated_circleSprite 0 0 1 100 0)
    as (_ & _ & _ & _ & _ & _ & H6 & H7 & _).
  split; assumption.
Qed.

(** The scenario with both masses at zero. *)
Lemma lightBullet_facts : bulletLike lightBullet.
Proof. exact bullet_facts. Qed.

Lemma lightWall_facts : restingWith 0 1 50 1 lightWall.
Proof.
  destruct wall_facts as (H1 & H2 & H3 & H4 & H5 & _ & H7 & H8 & H9).
  exact (conj H1 (conj H2 (conj H3 (conj H4 (conj H5
           (conj eq_refl (conj H7 (conj H8 H9)))))))).
Qed.

Lemma setTouching_same s : setTouching (touching s) s = s.
Proof. destruct s; reflexivity. Qed.

(** The public [overlap] on the world of the scenario. *)
Lemma world_overlap callback :
  exists w',
    Sprite_overlap maxSubSteps 0 (TargetSprite 1) callback
                   (twoSprites bullet wall) = Done (true, w')
    /\ position (sprites w' 0%nat) = mkVec (495 / 10) 0
    /\ velocity (sprites w' 0%nat) = mkVec 100 0
    /\ calls w' = (if callback then [(0%nat, 1%nat)] else []).
Proof.
  pose proof bullet_facts as Hb. pose proof wall_facts as Hw.
  unfold Sprite_overlap, _collideWith.
  cbn [twoSprites sprites calls Nat.eqb].
  destruct Hb as (B1 & B2 & B3 & B4 & B5 & B6 & B7 & B8).
  change (removed bullet) with (removed bullet). rewrite B6.
  cbn [collideWithAll]. unfold _collideWithOne. cbn [Nat.eqb sprites calls store].
  destruct (bullet_wall_overlap (clearTouching bullet) wall 0 1 callback []
              (conj B1 (conj B2 (conj B3 (conj B4 (conj B5 (conj B6 (conj B7 B8)))))))
              Hw)
    as (a' & b' & Hres & Hp & Hv & _).
  rewrite Hres. cbn [bind fst snd orb].
  eexists. split; [reflexivity |].
  cbn [sprites store Nat.eqb calls].
  split; [exact Hp |]. split.
  - rewrite Hv. exact B4.
  - destruct callback; reflexivity.
Qed.

End TunnelResolve.

Import TunnelResolve.

Lemma elastic_bounce_witness :
  exists this' other' log' n,
    collideWithOther maxSubSteps bounce 0 1 bullet wall false []
    = Done (true, this', other', log')
    /\ n <> Vector.zero
    /\ Vector.project (velocity this') n = Vector.zero
    /\ Vector.project (velocity other') n = Vector.project (velocity bullet) n.
Proof.
  destruct (bullet_wall_bounce bullet wall 0 1 false [] bullet_facts wall_facts)
    as (a' & b' & log' & H).
  pose proof bullet_facts as (_ & _ & _ & _ & Hi1 & _).
  pose proof wall_facts as (_ & _ & _ & Hv2 & Hi2 & Hm2 & Hr2 & _).
  destruct bullet_mass as [Hm1 Hr1].
  destruct (elastic_bounce_exchanges_normal_velocity
              maxSubSteps 0 1 bullet wall false [] a' b' log'
              Hi1 Hi2 ltac:(rewrite Hm1, Hm2; reflexivity)
              ltac:(rewrite Hm1; lra)
              ltac:(rewrite Hr1, Hr2; lra) Hv2 H)
    as (n & _ & _ & _ & Hn & P1 & P2 & _).
  exists a', b', log', n. auto.
Defined.

(** C5 as stated fails for equal masses that are zero.  The sprites of the
    tunnelling scenario with mass 0 and restitution 1 are both movable, the
    second is at rest, and [bounce] finds the collision with the normal
    (-1.5, 0); the first sprite moves with (100, 0), all of it along the
    normal.  After the bounce both sprites are at rest: the second did not
    receive the normal velocity of the first. *)
Lemma massless_bounce_stops_both :
  immovable lightBullet = false /\ immovable lightWall = false
  /\ mass lightBullet = mass lightWall
  /\ restitution lightBullet * restitution lightWall = 1
  /\ velocity lightWall = Vector.zero
  /\ exists n a b this' other' log',
       _findDisplacement maxSubSteps (withDefaultCollider lightBullet)
                         (withDefaultCollider lightWall) = Done (n, a, b)
       /\ collideWithOther maxSubSteps bounce 0 1 lightBullet lightWall
                           false []
          = Done (true, this', other', log')
       /\ Vector.project (velocity lightBullet) n = mkVec 100 0
       /\ velocity this' = Vector.zero
       /\ velocity other' = Vector.zero
       /\ Vector.project (velocity other') n
          <> Vector.project (velocity lightBullet) n.
Proof.
  pose proof lightBullet_facts as Ha. pose proof lightWall_facts as Hb.
  destruct (bullet_wall_found lightBullet lightWall Ha Hb)
    as (Da & Db & _ & _ & a & b & Hfound & _).
  destruct (bullet_wall_bounce lightBullet lightWall 0 1 false [] Ha Hb)
    as (this' & other' & log' & Hrun).
  destruct Ha as (_ & _ & _ & Hv1 & Hi1 & _).
  destruct Hb as (_ & _ & _ & Hv2 & Hi2 & Hm2 & Hr2 & _).
  assert (Hr1 : restitution lightBullet = 1) by exact (proj2 bullet_mass).
  split; [exact Hi1 |]. split; [exact Hi2 |].
  split; [now rewrite Hm2 |].
  split; [rewrite Hr1, Hr2; lra |].
  split; [exact Hv2 |].
  destruct (collideWithOther_found _ _ _ _ _ _ _ _ _ _ _ Hrun)
    as (n & a0 & b0 & a1 & b1 & Hf & Hn & D1 & D2 & Hresp).
  assert (En : n = mkVec (- (15 / 10)) 0).
  { rewrite Da, Db, Hfound in Hf. now inversion Hf. }
  destruct (dynamics_inv _ _ D1) as (Av & Am & Ai & Ar).
  destruct (dynamics_inv _ _ D2) as (Bv & Bm & Bi & Br).
  unfold velocityResponse in Hresp. rewrite Bi, Hi2 in Hresp.
  rewrite (bounce_massless n a1 b1) in Hresp;
    [| congruence | exact Am | congruence | congruence].
  cbn [bind fst snd] in Hresp. inversion Hresp; subst this' other'.
  clear Hresp.
  assert (Hp : Vector.project (velocity lightBullet) n = mkVec 100 0).
  { rewrite Hv1, En. unfold Vector.project, Vector.dot, Vector.mult.
    apply vec_eq; simpl; field. }
  exists n, a0, b0, (setVelocity
                       (Vector.sub (velocity a1)
                                   (Vector.project (velocity a1) n)) a1),
    (setVelocity Vector.zero b1), log'.
  split; [exact Hf |]. split; [exact Hrun |]. split; [exact Hp |].
  cbn [velocity setVelocity]. rewrite Av, Hp, Hv1.
  split; [apply vec_eq; simpl; ring |]. split; [reflexivity |].
  rewrite project_zero_l. intros E. inversion E. lra.
Qed.

(** C6, at the input on which the program departs from the claim.  In the
    world of the tunnelling scenario the moving sprite is at (100, 0); the
    query [overlap], which is to report the touch only, returns [true] and
    leaves that sprite at (49.5, 0), the position of the sub-step in which
    the swept narrow phase found the collision.  The velocity is as
    before. *)
Theorem overlap_leaves_sprite_at_substep_position :
  position (sprites (twoSprites bullet wall) 0%nat) = mkVec 100 0
  /\ exists w',
       Sprite_overlap maxSubSteps 0 (TargetSprite 1) false
                      (twoSprites bullet wall) = Done (true, w')
       /\ position (sprites w' 0%nat) = mkVec (495 / 10) 0
       /\ position (sprites w' 0%nat)
          <> position (sprites (twoSprites bullet wall) 0%nat)
       /\ velocity (sprites w' 0%nat)
          = velocity (sprites (twoSprites bullet wall) 0%nat).
Proof.
  pose proof bullet_facts as (_ & Hp & _ & Hv & _).
  cbn [twoSprites sprites Nat.eqb].
  split; [exact Hp |].
  destruct (world_overlap false) as (w' & Hres & Hp' & Hv' & _).
  exists w'. split; [exact Hres |]. split; [exact Hp' |].
  split.
  - rewrite Hp', Hp. intros E. inversion E. lra.
  - now rewrite Hv', Hv.
Qed.

(** ** The first query of a sprite that was just created *)

Module FirstQuery.

Import SpriteOps Resolver ResolverFacts CircleSprites SweptFacts Scenario
       ScenarioFacts TunnelFacts TunnelRun ResponseFacts.

Lemma circleSprite_circleAt x y r v1 v2 :
  circleAt r (circleSprite x y r v1 v2).
Proof.
  destruct (setColliderCircle_circleAt r (createSprite x y)
              (createSprite_plain x y)) as (Hp & c & Hc & Hpc).
  split; [exact Hp |]. exists c. split; [exact Hc | exact Hpc].
Qed.

Lemma freshSweptBox_isBox : Shape.isBox freshSweptBox = true.
Proof. reflexivity. Qed.

(** The fresh swept box sits at the origin, where the resting sprite is:
    the broad phase lets the pair through. *)
Lemma first_query_sweeps : _doSweptCollidersOverlap newcomer host = Done true.
Proof.
  destruct (circleSprite_collider 0 0 1 0 0) as (c2 & Hc2 & Hcen2 & He2).
  apply (sweep_overlaps newcomer host false freshSweptBox c2 1).
  - change (velocity newcomer) with (mkVec 100 0).
    unfold Vector.magSq; simpl; lra.
  - reflexivity.
  - apply freshSweptBox_isBox.
  - reflexivity.
  - exact Hc2.
  - exact He2.
  - lra.
  - rewrite Hcen2. unfold Shape.center.
    now rewrite (proj1 freshSweptBox_center).
Qed.

Lemma first_query_displacement :
  circleDisplacement 1 1 (mkVec 0 0) (mkVec 0 0) = mkVec (- 2) 0.
Proof.
  unfold circleDisplacement.
  assert (Hd : Vector.sub (mkVec 0 0) (mkVec 0 0) = Vector.zero)
    by (apply vec_eq; simpl; lra).
  rewrite Hd.
  replace (Vector.isZero Vector.zero) with true
    by (symmetry; now apply isZero_true).
  assert (Hx : Shape.X_AXIS <> Vector.zero).
  { intros E. inversion E. lra. }
  rewrite setMag_multiple by assumption.
  unfold Shape.X_AXIS. rewrite mag_zero, mag_x, !Rabs_pos_eq by lra.
  apply vec_eq; simpl; field.
Qed.

(** The sprite has not moved yet, so every sub-step tests the two circles
    where they were created: the first one finds them overlapping. *)
Lemma first_query_hits :
  exists a' b',
    _findDisplacement maxSubSteps newcomer host
    = Done (mkVec (- 2) 0, a', b')
    /\ position a' = mkVec 0 0
    /\ body a' = body newcomer /\ body b' = body host.
Proof.
  destruct (circleSprite_collider 0 0 1 100 0) as (c1 & Hc1 & Hcen1 & He1).
  destruct (circleSprite_collider 0 0 1 0 0) as (c2 & Hc2 & Hcen2 & He2).
  fold newcomer in Hc1. fold host in Hc2.
  assert (Hsize : subStepSize newcomer host = Done (Some (15 / 1000))).
  { rewrite (subStepSize_circles _ _ _ _ _ _ Hc1 He1 Hc2 He2).
    change (velocity newcomer) with (mkVec 100 0).
    change (velocity host) with (mkVec 0 0).
    rewrite mag_horizontal by (simpl; lra). simpl vx.
    replace (100 - 0) with 100 by lra.
    rewrite (Rabs_pos_eq 100) by lra.
    unfold timestepOf. rewrite Reqb_intro_false by lra.
    rewrite (Rabs_pos_eq 1) by lra. rewrite (Rmax_left 1 1) by lra.
    unfold floor_timestep. rewrite Rmax_left by lra. reflexivity. }
  assert (Hres :
    exists a' b',
      _findDisplacement maxSubSteps newcomer host
      = Done (circleDisplacement 1 1 (mkVec 0 0) (mkVec 0 0), a', b')
      /\ position a' = mkVec 0 0).
  { unfold _findDisplacement.
    rewrite first_query_sweeps. cbn [bind].
    rewrite Hsize. cbn [bind].
    rewrite Rltb_intro_true by lra.
    change (position newcomer) with (mkVec 0 0).
    change (previousPosition newcomer) with (mkVec 0 0).
    change (position host) with (mkVec 0 0).
    change (previousPosition host) with (mkVec 0 0).
    set (d := Vector.mult (Vector.sub (mkVec 0 0) (mkVec 0 0)) (15 / 1000)).
    assert (Hpos : forall j, after (mkVec 0 0) d j = mkVec 0 0).
    { intros j. unfold after, d. apply vec_eq; simpl; lra. }
    destruct (subSteps_hit 0 maxSubSteps (15 / 1000) (15 / 1000) d d
                (mkVec 0 0) (mkVec 0 0)
                (setPosition (mkVec 0 0) newcomer)
                (setPosition (mkVec 0 0) host) 1 1)
      as (a' & b' & Hres & Hp1 & _).
    - unfold maxSubSteps. lia.
    - apply circleAt_setPosition, circleSprite_circleAt.
    - apply circleAt_setPosition, circleSprite_circleAt.
    - lra.
    - simpl. lra.
    - intros j Hj. lia.
    - cbn [position setPosition]. rewrite Hpos.
      replace (Vector.sub (mkVec 0 0) (mkVec 0 0)) with Vector.zero
        by (apply vec_eq; simpl; lra).
      rewrite mag_zero, (Rabs_pos_eq 1) by lra. lra.
    - cbn [position setPosition immovable] in Hres, Hp1.
      rewrite Hpos in Hres, Hp1.
      rewrite Hres. cbn [bind].
      exists a', b'. split; [reflexivity |]. exact Hp1. }
  destruct Hres as (a' & b' & Hres & Hp).
  rewrite first_query_displacement in Hres.
  exists a', b'. split; [exact Hres |]. split; [exact Hp |].
  exact (findDisplacement_frame _ _ _ _ _ _ Hres).
Qed.

(** [overlap] on the pair: the test is positive and the callback, if there
    is one, is called. *)
Lemma first_query_overlap thisRef otherRef callback log :
  exists a' b',
    collideWithOther maxSubSteps overlap thisRef otherRef newcomer host
                     callback log
    = Done (true, a', b',
            if callback then log ++ [(thisRef, otherRef)] else log)
    /\ velocity a' = mkVec 100 0.
Proof.
  destruct first_query_hits as (a' & b' & Hres & Hp & F1 & F2).
  unfold collideWithOther.
  change (removed host) with false. cbv iota.
  change (withDefaultCollider newcomer) with newcomer.
  change (withDefaultCollider host) with host.
  destruct (circleSprite_collider 0 0 1 100 0) as (c1 & Hc1 & _).
  destruct (circleSprite_collider 0 0 1 0 0) as (c2 & Hc2 & _).
  fold newcomer in Hc1. fold host in Hc2.
  rewrite Hc1, Hc2, Hres. cbn [bind].
  replace (Vector.isZero (mkVec (- 2) 0)) with false
    by (symmetry; apply isZero_false; intros E; inversion E; lra).
  unfold displaceOut. cbn [CollisionType_eqb movesCaller andb bind].
  unfold velocityResponse. cbn [bind fst snd].
  unfold callCallback. cbn [CollisionType_eqb negb]. rewrite andb_true_r.
  eexists _, _. split; [reflexivity |].
  cbn [velocity setTouching]. now rewrite (body_velocity _ _ F1).
Qed.

Lemma displaceOut_Done type d this other :
  collider this <> None ->
  exists moved, displaceOut type d this other = Done moved.
Proof.
  intros Hc. unfold displaceOut.
  destruct (CollisionType_eqb type displace && negb (immovable other));
    [eauto |].
  destruct (movesCaller type && negb (immovable this)); [| eauto].
  unfold refreshCollider.
  cbn [collider setPreviousAndNewPosition setPosition].
  destruct (collider this); [| congruence].
  cbn [ofOption bind]. eauto.
Qed.

Lemma velocityResponse_Done type d this other :
  exists bounced, velocityResponse type d this other = Done bounced.
Proof.
  unfold velocityResponse, bounceVelocities.
  destruct type; cbn [bind]; eauto.
Qed.

(** Every kind of query on the pair finds the collision and returns. *)
Lemma first_query_resolves type thisRef otherRef callback log :
  exists a' b' log',
    collideWithOther maxSubSteps type thisRef otherRef newcomer host
                     callback log
    = Done (true, a', b', log').
Proof.
  destruct first_query_hits as (a' & b' & Hres & Hp & F1 & F2).
  destruct (findDisplacement_collider _ _ _ _ _ _ Hres) as [C1 _].
  unfold collideWithOther.
  change (removed host) with false. cbv iota.
  change (withDefaultCollider newcomer) with newcomer.
  change (withDefaultCollider host) with host.
  destruct (circleSprite_collider 0 0 1 100 0) as (c1 & Hc1 & _).
  destruct (circleSprite_collider 0 0 1 0 0) as (c2 & Hc2 & _).
  fold newcomer in Hc1. fold host in Hc2.
  rewrite Hc1, Hc2, Hres. cbn [bind].
  replace (Vector.isZero (mkVec (- 2) 0)) with false
    by (symmetry; apply isZero_false; intros E; inversion E; lra).
  destruct (displaceOut_Done type (mkVec (- 2) 0)
              (setTouching (touchingAfter (mkVec (- 2) 0) (touching a')) a')
              b' C1) as (moved & Hm).
  rewrite Hm. cbn [bind].
  destruct (velocityResponse_Done type (mkVec (- 2) 0) (fst moved) (snd moved))
    as (bounced & Hb).
  rewrite Hb. cbn [bind]. eexists _, _, _. reflexivity.
Qed.

(** The public [overlap] in the world of the two sprites. *)
Lemma first_query_world callback :
  exists w',
    Sprite_overlap maxSubSteps 0 (TargetSprite 1) callback
                   (twoSprites newcomer host) = Done (true, w')
    /\ velocity (sprites w' 0%nat) = mkVec 100 0
    /\ calls w' = (if callback then [(0%nat, 1%nat)] else []).
Proof.
  unfold Sprite_overlap, _collideWith.
  cbn [twoSprites sprites calls Nat.eqb].
  change (removed newcomer) with false. cbv iota.
  cbn [collideWithAll]. unfold _collideWithOne.
  cbn [Nat.eqb sprites calls store].
  change (clearTouching newcomer) with newcomer.
  destruct (first_query_overlap 0 1 callback []) as (a' & b' & Hres & Hv).
  rewrite Hres. cbn [bind fst snd orb].
  eexists. split; [reflexivity |].
  cbn [sprites store Nat.eqb calls].
  split; [exact Hv |]. destruct callback; reflexivity.
Qed.

End FirstQuery.

(** ** Every query ends

    With [maxSubSteps] rounds for the sub-step loop a query returns or
    throws a [TypeError]; the other two outcomes do not occur. *)

Module ReturnFacts.

Import SpriteOps Resolver.

Lemma bind_returns {A B} (m : outcome A) (k : A -> outcome B) :
  returnsOrThrows m -> (forall a, returnsOrThrows (k a)) ->
  returnsOrThrows (bind m k).
Proof. intros Hm Hk. destruct m; simpl in *; auto. Qed.

Lemma ofOption_returns {A} (o : option A) : returnsOrThrows (ofOption o).
Proof. destruct o; exact I. Qed.

Lemma refreshCollider_returns s : returnsOrThrows (refreshCollider s).
Proof.
  unfold refreshCollider. apply bind_returns; [apply ofOption_returns |].
  intros; exact I.
Qed.

Ltac returns_step :=
  apply bind_returns;
  [first [apply refreshCollider_returns | apply ofOption_returns] | intros].

Lemma finalCheck_returns this target :
  returnsOrThrows (finalCheck this target).
Proof. unfold finalCheck. repeat returns_step. exact I. Qed.

Lemma doSwept_returns this target :
  returnsOrThrows (_doSweptCollidersOverlap this target).
Proof. unfold _doSweptCollidersOverlap. repeat returns_step. exact I. Qed.

Lemma subStepSize_returns this target :
  returnsOrThrows (subStepSize this target).
Proof. unfold subStepSize. repeat returns_step. exact I. Qed.

Lemma subSteps_returns fuel : forall i ts d1 d2 o1 o2 this target,
  0 <= ts -> (0 < fuel)%nat -> 1 <= i + INR (pred fuel) * ts ->
  returnsOrThrows (subSteps fuel i ts d1 d2 o1 o2 this target).
Proof.
  induction fuel as [| fuel IH]; intros i ts d1 d2 o1 o2 this target Hts Hf Hi;
    [lia |].
  rewrite SweptFacts.subSteps_S. simpl pred in Hi.
  destruct (Rltb i 1) eqn:E; [| exact I]. rbool. cbv zeta.
  repeat returns_step.
  destruct (negb (Vector.isZero a3)); [exact I |].
  destruct fuel as [| fuel']; [simpl in Hi; lra |].
  apply IH; [assumption | lia |].
  simpl pred. rewrite S_INR in Hi. lra.
Qed.

Lemma findDisplacement_returns fuel this target :
  (maxSubSteps <= fuel)%nat ->
  returnsOrThrows (_findDisplacement fuel this target).
Proof.
  intros Hfuel. unfold _findDisplacement.
  apply bind_returns; [apply doSwept_returns |]. intros swept.
  destruct swept; [| apply finalCheck_returns].
  pose proof (subStepSize_returns this target) as Hs.
  destruct (subStepSize this target) as [[ts |] | | |] eqn:Ets; simpl;
    try exact I; try contradiction; try apply finalCheck_returns.
  apply FuelFacts.subStepSize_floor in Ets. unfold floor_timestep in Ets.
  destruct (Rltb ts 1); [| apply finalCheck_returns].
  apply bind_returns.
  - apply subSteps_returns; [lra | unfold maxSubSteps in Hfuel; lia |].
    assert (H66 : 66 <= INR (pred fuel)).
    { replace 66 with (INR 66) by (simpl; lra). apply le_INR.
      unfold maxSubSteps in Hfuel. lia. }
    nra.
  - intros [[[dv |] t1] t2]; [exact I | apply finalCheck_returns].
Qed.

Lemma displaceOut_returns type d this other :
  returnsOrThrows (displaceOut type d this other).
Proof.
  unfold displaceOut.
  destruct (CollisionType_eqb type displace && negb (immovable other));
    [exact I |].
  destruct (movesCaller type && negb (immovable this)); [| exact I].
  returns_step. exact I.
Qed.

Lemma velocityResponse_returns type d this other :
  returnsOrThrows (velocityResponse type d this other).
Proof. unfold velocityResponse. destruct type; exact I. Qed.

Lemma collideWithOther_returns fuel type thisRef otherRef this other callback
      log :
  (maxSubSteps <= fuel)%nat ->
  returnsOrThrows
    (collideWithOther fuel type thisRef otherRef this other callback log).
Proof.
  intros Hfuel. unfold collideWithOther.
  destruct (removed other); [exact I |].
  destruct (collider (withDefaultCollider this)); [| exact I].
  destruct (collider (withDefaultCollider other)); [| exact I].
  apply bind_returns; [now apply findDisplacement_returns |].
  intros [[n a] b].
  destruct (Vector.isZero n); [exact I |].
  apply bind_returns; [apply displaceOut_returns |]. intros moved.
  apply bind_returns; [apply velocityResponse_returns |]. intros bounced.
  exact I.
Qed.

Lemma collideWithOne_returns fuel type this other callback w :
  (maxSubSteps <= fuel)%nat ->
  returnsOrThrows (_collideWithOne fuel type this other callback w).
Proof.
  intros Hfuel. unfold _collideWithOne.
  destruct (Nat.eqb other this); [exact I |].
  apply bind_returns; [now apply collideWithOther_returns |].
  intros [[[r t'] o'] l']. exact I.
Qed.

Lemma collideWithAll_returns fuel type this callback :
  (maxSubSteps <= fuel)%nat ->
  forall others r0 w,
    returnsOrThrows (collideWithAll fuel type this others callback r0 w).
Proof.
  intros Hfuel. induction others as [| other rest IH]; intros r0 w; simpl.
  - exact I.
  - apply bind_returns; [now apply collideWithOne_returns |].
    intros r. apply IH.
Qed.

(** A query of the public interface returns or throws. *)
Lemma collideWith_returns fuel type this target callback w :
  (maxSubSteps <= fuel)%nat ->
  returnsOrThrows (_collideWith fuel type this target callback w).
Proof.
  intros Hfuel. unfold _collideWith.
  destruct (removed (sprites w this)); [exact I |].
  now apply collideWithAll_returns.
Qed.

End ReturnFacts.

(** ** The callback *)

Module CallbackFacts.

Import SpriteOps Resolver ResolverFacts.

Lemma collideWithOther_calls fuel type thisRef otherRef this other callback
      log r this' other' log' :
  collideWithOther fuel type thisRef otherRef this other callback log
  = Done (r, this', other', log') ->
  log' = log ++ callsOf type callback thisRef otherRef r.
Proof.
  unfold collideWithOther, callsOf. intros H.
  destruct (removed other).
  { inversion H; subst. simpl. now rewrite app_nil_r. }
  destruct (collider (withDefaultCollider this));
    [| inversion H; subst; simpl; now rewrite app_nil_r].
  destruct (collider (withDefaultCollider other));
    [| inversion H; subst; simpl; now rewrite app_nil_r].
  bind_inv H. destruct a as [[d a] b].
  destruct (Vector.isZero d).
  { inversion H; subst. simpl. now rewrite app_nil_r. }
  bind_inv H. bind_inv H. inversion H; subst. unfold callCallback. simpl.
  destruct (callback && negb (CollisionType_eqb type isTouching));
    [reflexivity | now rewrite app_nil_r].
Qed.

Lemma collideWithOne_calls fuel type this other callback w r w' :
  _collideWithOne fuel type this other callback w = Done (r, w') ->
  calls w' = calls w ++ callsOf type callback this other r.
Proof.
  unfold _collideWithOne. intros H.
  destruct (Nat.eqb other this).
  { inversion H; subst. unfold callsOf. simpl. now rewrite app_nil_r. }
  bind_inv H. destruct a as [[[res t'] o'] l']. inversion H; subst.
  simpl. now apply collideWithOther_calls in E.
Qed.

Lemma collideWithAll_calls fuel type this callback :
  forall others r0 w r w',
    collideWithAll fuel type this others callback r0 w = Done (r, w') ->
    exists results,
      length results = length others
      /\ r = existsb (fun b => b) results || r0
      /\ calls w'
         = calls w
           ++ (if callback && negb (CollisionType_eqb type isTouching)
               then map (fun other => (this, other)) (hits others results)
               else []).
Proof.
  induction others as [| other rest IH]; intros r0 w r w' H; simpl in H.
  - inversion H; subst. exists []. simpl.
    split; [reflexivity |]. split; [reflexivity |].
    destruct (callback && _); now rewrite app_nil_r.
  - bind_inv H. destruct a as [r1 w1]. simpl in H.
    apply collideWithOne_calls in E.
    apply IH in H. destruct H as (results & Hlen & Hr & Hcalls).
    exists (r1 :: results). simpl.
    split; [now rewrite Hlen |].
    split.
    { rewrite Hr. destruct r1, (existsb (fun b => b) results), r0; reflexivity. }
    rewrite Hcalls, E. unfold callsOf, hits. rewrite <- app_assoc. f_equal.
    destruct r1, callback, (negb (CollisionType_eqb type isTouching));
      reflexivity.
Qed.

End CallbackFacts.

Import CallbackFacts.

(** C7, as amended.  A callback passed to [overlap], [displace], [collide],
    [bounce] or [bounceOff] is called exactly once, with the caller and the
    other sprite, by every test of a candidate that finds a collision, and
    by no other test; without a callback nothing is called.  For a query
    over several candidates the calls are those of the candidates whose
    test was positive, in order, and the query returns [true] exactly when
    there is one. *)
Theorem callback_once_per_colliding_pair
        (fuel : nat) (type : CollisionType) (this : nat) (callback : bool) :
  type <> isTouching ->
  (forall other w r w',
      _collideWithOne fuel type this other callback w = Done (r, w') ->
      calls w' = calls w ++ (if r && callback then [(this, other)] else []))
  /\ (forall others w r w',
         collideWithAll fuel type this others callback false w = Done (r, w') ->
         exists results,
           length results = length others
           /\ r = existsb (fun b => b) results
           /\ calls w'
              = calls w
                ++ (if callback
                    then map (fun other => (this, other)) (hits others results)
                    else [])).
Proof.
  intros Htype.
  assert (Ht : negb (CollisionType_eqb type isTouching) = true)
    by (destruct type; try reflexivity; congruence).
  split.
  - intros other w r w' H. apply collideWithOne_calls in H.
    unfold callsOf in H. now rewrite Ht, andb_true_r in H.
  - intros others w r w' H. apply collideWithAll_calls in H.
    destruct H as (results & Hlen & Hr & Hcalls).
    exists results. rewrite Ht, andb_true_r in Hcalls.
    rewrite orb_false_r in Hr. auto.
Qed.

(** The theorem on the first query of a sprite that was just created and
    set in motion, whose swept box is still the fresh one of
    [setCollider]: the test is positive and the callback is called once. *)
Lemma callback_once_witness :
  exists w',
    _collideWithOne maxSubSteps overlap 0 1 true (twoSprites newcomer host)
    = Done (true, w')
    /\ calls w' = [(0%nat, 1%nat)].
Proof.
  destruct (FirstQuery.first_query_overlap 0 1 true [])
    as (a' & b' & Hres & _).
  assert (H : _collideWithOne maxSubSteps overlap 0 1 true
                (twoSprites newcomer host)
              = Done (true,
                      mkWorld (store 1 b' (store 0 a'
                                 (sprites (twoSprites newcomer host))))
                              ([] ++ [(0%nat, 1%nat)]))).
  { unfold _collideWithOne. cbn [Nat.eqb twoSprites sprites calls].
    rewrite Hres. reflexivity. }
  eexists. split; [exact H |].
  assert (Hne : overlap <> isTouching) by discriminate.
  exact (proj1 (callback_once_per_colliding_pair maxSubSteps overlap 0 true Hne)
           1%nat _ true _ H).
Defined.

(** C7 as stated fails: [overlap] with a callback, on a pair that collides,
    calls the callback. *)
Lemma overlap_invokes_callback :
  exists w',
    Sprite_overlap maxSubSteps 0 (TargetSprite 1) true (twoSprites bullet wall)
    = Done (true, w')
    /\ calls (twoSprites bullet wall) = []
    /\ calls w' = [(0%nat, 1%nat)].
Proof.
  destruct (world_overlap true) as (w' & Hres & _ & _ & Hcalls).
  exists w'. split; [exact Hres |]. split; [reflexivity | exact Hcalls].
Qed.

(** ** The quadtree *)

Module QuadtreeFacts.

Import Quadtree QuadtreeInvariant.

Section Facts.

Variable boxOf : nat -> option Shape.BoundingBox.

Lemma getIndex_cases b x :
  getIndex boxOf b x = (-1)%Z \/ inRange (getIndex boxOf b x).
Proof.
  unfold getIndex, inRange. destruct (boxOf x); [| now left].
  repeat match goal with
         | |- context [if ?c then _ else _] => destruct c
         end; auto.
Qed.

Lemma indexOf_true obj l : indexOf obj l = true <-> In obj l.
Proof.
  unfold indexOf. rewrite existsb_exists. split.
  - intros (x & Hin & E). apply Nat.eqb_eq in E. now subst.
  - intros H. exists obj. split; [assumption | apply Nat.eqb_refl].
Qed.

Lemma nodesGood_at b l ml ns k :
  nodesGood boxOf b l ml ns -> inRange k ->
  okChild boxOf b l ml k (good boxOf (nodeAt k ns)) (nodeAt k ns).
Proof.
  intros (H0 & H1 & H2 & H3) [-> | [-> | [-> | ->]]]; assumption.
Qed.

Lemma nodesGood_set b l ml ns k n :
  nodesGood boxOf b l ml ns -> inRange k -> okChild boxOf b l ml k (good boxOf n) n ->
  nodesGood boxOf b l ml (setNodeAt k n ns).
Proof.
  intros (H0 & H1 & H2 & H3) [-> | [-> | [-> | ->]]] Hn;
    unfold nodesGood; simpl; auto.
Qed.

Lemma nodesAll_set ns k n obj :
  inRange k ->
  (forall x, In x (getAll n) <-> x = obj \/ In x (getAll (nodeAt k ns))) ->
  forall x, In x (nodesAll (setNodeAt k n ns)) <-> x = obj \/ In x (nodesAll ns).
Proof.
  intros [-> | [-> | [-> | ->]]] H x; unfold nodesAll; simpl in *;
    rewrite !in_app_iff, H; tauto.
Qed.

Lemma getAll_Branch b mo ml l objs n0 n1 n2 n3 x :
  In x (getAll (Branch b mo ml l objs n0 n1 n2 n3))
  <-> In x objs \/ In x (nodesAll (mkNodes n0 n1 n2 n3)).
Proof. unfold nodesAll; simpl. rewrite !in_app_iff. tauto. Qed.

Lemma split_good b mo ml l :
  (l < ml)%nat -> nodesGood boxOf b l ml (split b mo ml l)
                  /\ nodesAll (split b mo ml l) = [].
Proof.
  intros Hl. assert (E : Nat.eqb ml 0 = false) by (apply Nat.eqb_neq; lia).
  unfold nodesGood, okChild, split, newQuadtree; simpl. rewrite E.
  repeat split; intros; try contradiction.
Qed.

Lemma redistribute_spec fuel b l ml :
  insertSpec boxOf fuel -> (l < ml)%nat -> (ml - l <= fuel)%nat ->
  forall pending kept ns,
    nodesGood boxOf b l ml ns ->
    exists kept' ns',
      redistribute boxOf (insert boxOf fuel) b pending kept ns
      = Some (kept', ns')
      /\ nodesGood boxOf b l ml ns'
      /\ (forall x, In x kept' \/ In x (nodesAll ns')
                    <-> In x pending \/ In x kept \/ In x (nodesAll ns)).
Proof.
  intros Hins Hl Hfuel.
  induction pending as [| obj rest IH]; intros kept ns Hns; simpl.
  - exists kept, ns. split; [reflexivity |]. split; [assumption |].
    intros x. tauto.
  - destruct (getIndex_cases b obj) as [E | Hk].
    + rewrite E. simpl.
      destruct (IH (kept ++ [obj]) ns Hns) as (kept' & ns' & Hr & Hg & Hm).
      exists kept', ns'. split; [exact Hr |]. split; [exact Hg |].
      intros x. rewrite Hm, in_app_iff. simpl. intuition.
    + assert (Hne : Z.eqb (getIndex boxOf b obj) (-1) = false).
      { apply Z.eqb_neq. destruct Hk as [-> | [-> | [-> | ->]]]; lia. }
      rewrite Hne.
      pose proof (nodesGood_at b l ml ns _ Hns Hk) as (C1 & C2 & C3 & C4).
      destruct (Hins (nodeAt (getIndex boxOf b obj) ns) obj C4)
        as (n & Hn & Gn & Ln & Mn & Memn).
      { unfold depthBound. rewrite C1, C2. lia. }
      rewrite Hn.
      assert (Hns' : nodesGood boxOf b l ml (setNodeAt (getIndex boxOf b obj) n ns)).
      { apply nodesGood_set; try assumption.
        unfold okChild. split; [congruence |]. split; [congruence |].
        split; [| assumption].
        intros x Hx. apply Memn in Hx. destruct Hx as [-> | Hx]; auto. }
      destruct (IH kept _ Hns') as (kept' & ns' & Hr & Hg & Hm).
      exists kept', ns'. split; [exact Hr |]. split; [exact Hg |].
      intros x. rewrite Hm.
      rewrite (nodesAll_set ns _ n obj Hk Memn x). intuition.
Qed.

Lemma good_Branch b mo ml l objs n0 n1 n2 n3 :
  good boxOf (Branch b mo ml l objs n0 n1 n2 n3)
  <-> (l < ml)%nat /\ nodesGood boxOf b l ml (mkNodes n0 n1 n2 n3).
Proof. reflexivity. Qed.

Lemma insert_spec fuel : insertSpec boxOf fuel.
Proof.
  induction fuel as [| fuel IH]; intros t obj Hgood Hfuel.
  { unfold depthBound in Hfuel. lia. }
  cbn [insert].
  destruct (indexOf obj (objects t)) eqn:Eidx.
  { exists t. split; [reflexivity |]. split; [assumption |].
    split; [reflexivity |]. split; [reflexivity |].
    intros x. apply indexOf_true in Eidx.
    assert (In obj (getAll t)).
    { destruct t; simpl in *; rewrite ?in_app_iff; auto. }
    split; [auto |]. intros [-> | H']; assumption. }
  destruct t as [b mo ml l objs | b mo ml l objs n0 n1 n2 n3];
    cbn [bounds max_objects max_levels level objects].
  - (* a node without sub-nodes *)
    destruct (Nat.ltb mo (length (objs ++ [obj])) && Nat.ltb l ml) eqn:Ec.
    + apply andb_true_iff in Ec. destruct Ec as [_ Ec].
      apply Nat.ltb_lt in Ec.
      destruct (split_good b mo ml l Ec) as [Hs Hse].
      destruct (redistribute_spec fuel b l ml IH Ec
                  ltac:(unfold depthBound in Hfuel; simpl in Hfuel; lia)
                  (objs ++ [obj]) [] _ Hs)
        as (kept & ns & Hr & Hg & Hm).
      rewrite Hr. eexists. split; [reflexivity |].
      split; [apply good_Branch; destruct ns; split; assumption |].
      split; [reflexivity |]. split; [reflexivity |].
      intros x. destruct ns as [m0 m1 m2 m3]. rewrite getAll_Branch.
      cbn [node0 node1 node2 node3]. rewrite Hm, Hse, in_app_iff.
      simpl. intuition.
    + eexists. split; [reflexivity |]. split; [exact I |].
      split; [reflexivity |]. split; [reflexivity |].
      intros x. simpl. rewrite in_app_iff. simpl. intuition.
  - (* a node with sub-nodes *)
    cbn [good] in Hgood. destruct Hgood as [Hl Hns].
    change (nodesGood boxOf b l ml (mkNodes n0 n1 n2 n3)) in Hns.
    destruct (getIndex_cases b obj) as [E | Hk].
    + rewrite E. cbn [Z.eqb].
      destruct (Nat.ltb mo (length (objs ++ [obj])) && Nat.ltb l ml) eqn:Ec.
      * destruct (redistribute_spec fuel b l ml IH Hl
                    ltac:(unfold depthBound in Hfuel; simpl in Hfuel; lia)
                    (objs ++ [obj]) [] _ Hns)
          as (kept & ns & Hr & Hg & Hm).
        rewrite Hr. eexists. split; [reflexivity |].
        split; [apply good_Branch; destruct ns; split; assumption |].
        split; [reflexivity |]. split; [reflexivity |].
        intros x. destruct ns as [m0 m1 m2 m3]. rewrite !getAll_Branch.
        cbn [node0 node1 node2 node3]. rewrite Hm, in_app_iff.
        simpl. intuition.
      * eexists. split; [reflexivity |].
        split; [apply good_Branch; split; assumption |].
        split; [reflexivity |]. split; [reflexivity |].
        intros x. cbn [node0 node1 node2 node3]. rewrite !getAll_Branch.
        rewrite in_app_iff. simpl. intuition.
    + assert (Hne : Z.eqb (getIndex boxOf b obj) (-1) = false).
      { apply Z.eqb_neq. destruct Hk as [-> | [-> | [-> | ->]]]; lia. }
      rewrite Hne.
      pose proof (nodesGood_at b l ml _ _ Hns Hk) as (C1 & C2 & C3 & C4).
      destruct (IH (nodeAt (getIndex boxOf b obj) (mkNodes n0 n1 n2 n3)) obj C4)
        as (n & Hn & Gn & Ln & Mn & Memn).
      { unfold depthBound in *. rewrite C1, C2. simpl in Hfuel. lia. }
      rewrite Hn. eexists. split; [reflexivity |].
      assert (Hns' : nodesGood boxOf b l ml
                       (setNodeAt (getIndex boxOf b obj) n (mkNodes n0 n1 n2 n3))).
      { apply nodesGood_set; try assumption.
        unfold okChild. split; [congruence |]. split; [congruence |].
        split; [| assumption].
        intros x Hx. apply Memn in Hx. destruct Hx as [-> | Hx]; auto. }
      split.
      { apply good_Branch. split; [assumption |].
        destruct (setNodeAt _ n _); assumption. }
      split; [reflexivity |]. split; [reflexivity |].
      intros x.
      pose proof (nodesAll_set (mkNodes n0 n1 n2 n3) _ n obj Hk Memn x) as Hset.
      destruct (setNodeAt _ n _) as [m0 m1 m2 m3].
      cbn [node0 node1 node2 node3]. rewrite !getAll_Branch, Hset. tauto.
Qed.

Lemma insertAll_spec fuel : forall objs t,
  good boxOf t -> (depthBound t <= fuel)%nat ->
  exists t',
    insertAll boxOf fuel t objs = Some t'
    /\ good boxOf t'
    /\ (forall x, In x (getAll t') <-> In x objs \/ In x (getAll t)).
Proof.
  induction objs as [| obj rest IH]; intros t Hg Hf; simpl.
  - exists t. split; [reflexivity |]. split; [assumption |]. intros; tauto.
  - destruct (insert_spec fuel t obj Hg Hf) as (t1 & H1 & G1 & L1 & M1 & Mem1).
    rewrite H1.
    destruct (IH t1 G1) as (t' & H' & G' & Mem').
    { unfold depthBound in *. rewrite L1, M1. assumption. }
    exists t'. split; [exact H' |]. split; [exact G' |].
    intros x. rewrite Mem', Mem1. intuition (subst; auto).
Qed.

Lemma index_quadrant b x box :
  boxOf x = Some box -> inQuadrant b (getIndex boxOf b x) box.
Proof.
  unfold getIndex, inQuadrant. intros ->.
  repeat match goal with
         | |- context [Rltb ?x ?y] =>
             let E := fresh "E" in destruct (Rltb x y) eqn:E
         end; simpl; rbool;
    repeat split; intros; try lra;
    repeat match goal with H : _ \/ _ |- _ => destruct H end;
    try discriminate; try lra.
Qed.

(** Objects with different quadrants of the same node have disjoint boxes. *)
Lemma different_quadrants_disjoint b o e ob qb :
  boxOf o = Some ob -> boxOf e = Some qb ->
  inRange (getIndex boxOf b o) -> inRange (getIndex boxOf b e) ->
  getIndex boxOf b o <> getIndex boxOf b e ->
  ~ intersects ob qb.
Proof.
  intros Ho He Hr1 Hr2 Hne (I1 & I2 & I3 & I4).
  pose proof (index_quadrant b o ob Ho) as (A1 & A2 & A3 & A4).
  pose proof (index_quadrant b e qb He) as (B1 & B2 & B3 & B4).
  cbv zeta in *.
  destruct Hr1 as [E1 | [E1 | [E1 | E1]]];
    destruct Hr2 as [E2 | [E2 | [E2 | E2]]];
    rewrite E1, E2 in *; try congruence;
    repeat match goal with
           | H : (?a = ?a \/ _) -> _ |- _ => specialize (H (or_introl eq_refl))
           | H : (_ \/ ?a = ?a) -> _ |- _ => specialize (H (or_intror eq_refl))
           | H : (_ \/ _) -> _ |- _ => clear H
           end; lra.
Qed.

Lemma retrieve_complete t :
  good boxOf t ->
  forall e o qb ob,
    In o (getAll t) -> boxOf e = Some qb -> boxOf o = Some ob ->
    intersects ob qb -> In o (retrieve boxOf t e).
Proof.
  induction t as [b mo ml l objs | b mo ml l objs n0 IH0 n1 IH1 n2 IH2 n3 IH3];
    intros Hg e o qb ob Hin He Ho Hint.
  - exact Hin.
  - destruct Hg as (Hl & (_ & _ & P0 & G0) & (_ & _ & P1 & G1)
                    & (_ & _ & P2 & G2) & (_ & _ & P3 & G3)).
    simpl in Hin. rewrite !in_app_iff in Hin. cbn [retrieve].
    destruct (getIndex_cases b e) as [E | Hk].
    + rewrite E, Z.eqb_refl, !in_app_iff.
      destruct Hin as [[[[H | H] | H] | H] | H]; eauto 10.
    + assert (Hne : Z.eqb (getIndex boxOf b e) (-1) = false).
      { apply Z.eqb_neq. destruct Hk as [-> | [-> | [-> | ->]]]; lia. }
      rewrite Hne, in_app_iff.
      destruct Hin as [[[[H | H] | H] | H] | H]; [now left | | | |]; right.
      * pose proof (P0 o H) as Eo.
        destruct (Z.eq_dec (getIndex boxOf b e) 0) as [-> | D];
          [simpl; eauto |].
        exfalso. eapply (different_quadrants_disjoint b o e); eauto.
        -- rewrite Eo. unfold inRange; auto.
        -- congruence.
      * pose proof (P1 o H) as Eo.
        destruct (Z.eq_dec (getIndex boxOf b e) 1) as [-> | D];
          [simpl; eauto |].
        exfalso. eapply (different_quadrants_disjoint b o e); eauto.
        -- rewrite Eo. unfold inRange; auto.
        -- congruence.
      * pose proof (P2 o H) as Eo.
        destruct (Z.eq_dec (getIndex boxOf b e) 2) as [-> | D];
          [simpl; eauto |].
        exfalso. eapply (different_quadrants_disjoint b o e); eauto.
        -- rewrite Eo. unfold inRange; auto.
        -- congruence.
      * pose proof (P3 o H) as Eo.
        destruct (Z.eq_dec (getIndex boxOf b e) 3) as [-> | D];
          [simpl; eauto |].
        exfalso. eapply (different_quadrants_disjoint b o e); eauto.
        -- rewrite Eo. unfold inRange; auto.
        -- congruence.
Qed.

End Facts.

End QuadtreeFacts.

Import QuadtreeFacts.

(** C8.  A quadtree built from a new tree by any sequence of insertions
    (with recursion depth at least [depthBound], which is always enough)
    holds exactly the inserted objects, and [retrieve(e)] returns every
    stored object whose bounding box has a point in common with the box of
    [e].  The boxes are those the objects had when they were inserted. *)
Theorem retrieve_returns_every_intersecting_entry
        (boxOf : nat -> option Shape.BoundingBox)
        (b : Quadtree.Bounds) (max_objects max_levels level : nat)
        (objs : list nat) (extra : nat) :
  let root := Quadtree.newQuadtree b max_objects max_levels level in
  exists t,
    Quadtree.insertAll boxOf (Quadtree.depthBound root + extra) root objs
    = Some t
    /\ (forall x, In x (Quadtree.getAll t) <-> In x objs)
    /\ (forall e o qb ob,
           In o (Quadtree.getAll t) ->
           boxOf e = Some qb -> boxOf o = Some ob ->
           Quadtree.intersects ob qb ->
           In o (Quadtree.retrieve boxOf t e)).
Proof.
  intros root.
  destruct (insertAll_spec boxOf (Quadtree.depthBound root + extra) objs root)
    as (t & Ht & Hg & Hmem).
  - exact I.
  - lia.
  - exists t. split; [exact Ht |]. split.
    + intros x. rewrite Hmem. simpl. tauto.
    + intros e o qb ob. now apply retrieve_complete.
Qed.

Lemma retrieve_witness :
  exists t,
    Quadtree.insertAll exampleBoxes (Quadtree.depthBound exampleRoot + 0)
                       exampleRoot [1%nat; 2%nat] = Some t
    /\ In 2%nat (Quadtree.retrieve exampleBoxes t 1%nat).
Proof.
  destruct (retrieve_returns_every_intersecting_entry
              exampleBoxes (Quadtree.mkBounds 0 0 100 100) 10 4 0
              [1%nat; 2%nat] 0)
    as (t & Ht & Hmem & Hret).
  exists t. split; [exact Ht |].
  apply (Hret 1%nat 2%nat
              (Shape.mkBoundingBox (INR 1) (INR 1 + 2) (INR 1) (INR 1 + 2) 2 2)
              (Shape.mkBoundingBox (INR 2) (INR 2 + 2) (INR 2) (INR 2 + 2) 2 2)).
  - apply Hmem. simpl. auto.
  - reflexivity.
  - reflexivity.
  - unfold Quadtree.intersects. simpl. lra.
Defined.

(** C9.  For every state of a quadtree [cleanup()] returns (with recursion
    depth at least [depthBound]) a tree whose [getAll()] has the same
    members as before. *)
Theorem cleanup_keeps_the_same_entities
        (boxOf : nat -> option Shape.BoundingBox) (t : Quadtree.Quadtree)
        (extra : nat) :
  exists t',
    Quadtree.cleanup boxOf (Quadtree.depthBound t + extra) t = Some t'
    /\ (forall x, In x (Quadtree.getAll t') <-> In x (Quadtree.getAll t)).
Proof.
  unfold Quadtree.cleanup.
  destruct (insertAll_spec boxOf (Quadtree.depthBound t + extra)
              (Quadtree.getAll t) (Quadtree.clear t))
    as (t' & Ht & _ & Hmem).
  - exact I.
  - unfold Quadtree.depthBound, Quadtree.clear. simpl. lia.
  - exists t'. split; [exact Ht |].
    intros x. rewrite Hmem. simpl. tauto.
Qed.

(** ** The displacement returned by [collide] *)

Module MtvFacts.

Import Vector VectorFacts ShapeFacts CircleFacts.

Lemma parallel_multiple w u :
  u <> zero -> cross w u = 0 -> w = mult u (dot w u / dot u u).
Proof.
  intros Hu Hc. pose proof (magSq_pos u Hu) as Hm.
  unfold magSq in Hm. unfold cross in Hc. unfold dot, mult.
  assert (E : vx w * vy u = vy w * vx u) by lra.
  assert (E1 : vx w * vy u * vy u = vy w * vx u * vy u) by (rewrite E; ring).
  assert (E2 : vx w * vy u * vx u = vy w * vx u * vx u) by (rewrite E; ring).
  apply vec_eq; simpl; field_simplify_eq; lra.
Qed.

Lemma project_parallel w u : u <> zero -> cross w u = 0 -> project w u = w.
Proof.
  intros Hu Hc. unfold project. symmetry. now apply parallel_multiple.
Qed.

Lemma mult_zero_iff u k : u <> zero -> mult u k = zero -> k = 0.
Proof.
  intros Hu E. destruct (Req_dec_T k 0) as [-> | Hk]; [reflexivity |].
  exfalso. apply Hu. unfold mult in E. inversion E as [[E1 E2]].
  apply vec_eq; simpl; nra.
Qed.

Lemma project_scaled_axis x u k :
  u <> zero -> k <> 0 -> project x (mult u k) = project x u.
Proof.
  intros Hu Hk. pose proof (magSq_pos u Hu) as Hm. unfold magSq in Hm.
  assert (Hkk : vx u * k * (vx u * k) + vy u * k * (vy u * k) <> 0).
  { replace (vx u * k * (vx u * k) + vy u * k * (vy u * k))
      with ((k * k) * (vx u * vx u + vy u * vy u)) by ring.
    apply Rmult_integral_contrapositive_currified; [| lra].
    now apply Rmult_integral_contrapositive_currified. }
  unfold project, dot, mult. apply vec_eq; simpl; field; split;
    solve [lra | assumption].
Qed.

Lemma radius_scaled_axis s u k :
  u <> zero -> k <> 0 ->
  Shape._getRadiusOnAxis s (mult u k) = Shape._getRadiusOnAxis s u.
Proof.
  intros Hu Hk. unfold Shape._getRadiusOnAxis.
  destruct (ext s); try reflexivity; now rewrite !project_scaled_axis.
Qed.

Lemma radius_ext s s' x :
  ext s' = ext s -> Shape._getRadiusOnAxis s' x = Shape._getRadiusOnAxis s x.
Proof. intros E. unfold Shape._getRadiusOnAxis. now rewrite E. Qed.

Lemma cross_mult_l u k w : cross (mult u k) w = k * cross u w.
Proof. unfold cross, mult; simpl. ring. Qed.

Lemma cross_mult_r u k w : cross u (mult w k) = k * cross u w.
Proof. unfold cross, mult; simpl. ring. Qed.

Lemma cross_swap u w : cross u w = - cross w u.
Proof. unfold cross. ring. Qed.

(** The shape of a displacement that is not zero. *)
Lemma collide_nonzero_inv a b v :
  Shape.collide a b = Some v -> v <> zero ->
  exists ax,
    In ax (Shape._getCandidateAxesForShapes a b)
    /\ ax <> zero
    /\ 0 < Shape.overlapOnAxis (delta a b) a b ax
    /\ Forall (fun ax' => Shape.overlapOnAxis (delta a b) a b ax
                          <= Shape.overlapOnAxis (delta a b) a b ax')
              (Shape._getCandidateAxesForShapes a b)
    /\ v = setMag (Shape.directionOnAxis (delta a b) ax)
                  (- Shape.overlapOnAxis (delta a b) a b ax).
Proof.
  intros Hc Hv.
  destruct (collide_cases a b)
    as [[_ Hn] | [[_ Hz] | (_ & Hall & ov & ax & Hin & Hov & Hmin & Hres)]].
  - congruence.
  - rewrite Hz in Hc. inversion Hc. congruence.
  - exists ax. subst ov. split; [exact Hin |].
    split; [eapply candidateAxes_nonzero; eassumption |].
    split; [rewrite Forall_forall in Hall; now apply Hall |].
    split; [exact Hmin |]. congruence.
Qed.

(** After the move the projections just touch on the axis of the
    displacement. *)
Lemma touch_after_move a b a' v ax :
  movedBy v a a' ->
  ax <> zero ->
  0 < Shape.overlapOnAxis (delta a b) a b ax ->
  v = setMag (Shape.directionOnAxis (delta a b) ax)
             (- Shape.overlapOnAxis (delta a b) a b ax) ->
  Shape.overlapOnAxis (delta a' b) a' b ax = 0.
Proof.
  intros [Hcen Hext] Hax Hpos Hv.
  set (d := delta a b) in *. set (ov := Shape.overlapOnAxis d a b ax) in *.
  assert (Hd' : delta a' b = sub d v).
  { unfold delta, d, delta. rewrite Hcen. apply vec_eq; simpl; ring. }
  pose proof (directionOnAxis_nonzero d ax Hax) as Hdir.
  pose proof (directionOnAxis_parallel d ax) as Hpar.
  assert (Hvpar : cross v ax = 0).
  { rewrite Hv, setMag_multiple by assumption. rewrite cross_mult_l.
    unfold cross. rewrite Hpar. ring. }
  unfold Shape.overlapOnAxis at 1. rewrite Hd', project_sub.
  rewrite (project_parallel v ax Hax Hvpar).
  rewrite !(radius_ext a a' _ Hext).
  assert (Hov : ov = Shape._getRadiusOnAxis a ax + Shape._getRadiusOnAxis b ax
                     - mag (project d ax)) by reflexivity.
  enough (Hm : mag (sub (project d ax) v) = mag (project d ax) + ov) by lra.
  rewrite Hv, setMag_multiple by assumption.
  unfold Shape.directionOnAxis.
  destruct (isZero (project d ax)) eqn:Ez.
  - apply isZero_true in Ez. rewrite Ez, mag_zero.
    replace (sub zero (mult ax (- ov / mag ax))) with (mult ax (ov / mag ax))
      by (apply vec_eq; simpl; unfold Rdiv; ring).
    rewrite mag_mult. pose proof (mag_pos ax Hax) as Hm.
    rewrite Rabs_pos_eq.
    + field. lra.
    + apply Rlt_le, Rdiv_lt_0_compat; lra.
  - apply isZero_false in Ez. set (p := project d ax) in *.
    pose proof (mag_pos p Ez) as Hm.
    replace (sub p (mult p (- ov / mag p))) with (mult p (1 + ov / mag p))
      by (apply vec_eq; simpl; unfold Rdiv; ring).
    rewrite mag_mult.
    assert (Hq : 0 < ov / mag p) by (apply Rdiv_lt_0_compat; lra).
    rewrite Rabs_pos_eq by lra. field. lra.
Qed.

(** If the moved pair still tests an axis on the line of the displacement,
    [collide] returns the zero vector for it. *)
Lemma moved_apart a b a' v ax' :
  Shape.collide a b = Some v -> v <> zero ->
  movedBy v a a' ->
  In ax' (Shape._getCandidateAxesForShapes a' b) ->
  cross ax' v = 0 ->
  Shape.collide a' b = Some zero.
Proof.
  intros Hc Hv Hmoved Hin Hpar.
  destruct (collide_nonzero_inv a b v Hc Hv)
    as (ax & _ & Hax & Hpos & _ & Hveq).
  pose proof (touch_after_move a b a' v ax Hmoved Hax Hpos Hveq) as Htouch.
  pose proof (candidateAxes_nonzero a' b ax' Hin) as Hax'.
  (* [ax'] is a multiple of [ax] *)
  pose proof (directionOnAxis_nonzero (delta a b) ax Hax) as Hdir.
  pose proof (directionOnAxis_parallel (delta a b) ax) as Hdpar.
  assert (Hvax : cross v ax = 0).
  { rewrite Hveq, setMag_multiple by assumption. rewrite cross_mult_l.
    unfold cross. rewrite Hdpar. ring. }
  pose proof (parallel_multiple ax' v Hv Hpar) as E1.
  pose proof (parallel_multiple v ax Hax Hvax) as E2.
  set (k1 := dot ax' v / dot v v) in *. set (k2 := dot v ax / dot ax ax) in *.
  assert (E : ax' = mult ax (k2 * k1)).
  { rewrite E1. rewrite E2 at 1. apply vec_eq; simpl; ring. }
  assert (Hk : k2 * k1 <> 0).
  { intros Hk. rewrite Hk in E. apply Hax'. rewrite E.
    apply vec_eq; simpl; ring. }
  unfold Shape.collide. fold (delta a' b).
  apply collideLoop_separated. apply Exists_exists. exists ax'.
  split; [exact Hin |].
  rewrite E. unfold Shape.overlapOnAxis.
  rewrite !radius_scaled_axis, project_scaled_axis by assumption.
  unfold Shape.overlapOnAxis in Htouch. lra.
Qed.

End MtvFacts.

Module MoveFacts.

Import Vector VectorFacts ShapeFacts CircleFacts MtvFacts.

Lemma apply_translated v p x :
  Transform.apply (Transform.translateV v p) x = add (Transform.apply p x) v.
Proof.
  unfold Transform.translateV, Transform.translate, Transform.mult,
    Transform.apply.
  apply vec_eq; simpl; ring.
Qed.

Lemma apply_mult p l x :
  Transform.apply (Transform.mult p l) x
  = Transform.apply p (Transform.apply l x).
Proof.
  unfold Transform.mult, Transform.apply. apply vec_eq; simpl; ring.
Qed.

Lemma sub_add_same a b v : sub (add a v) (add b v) = sub a b.
Proof. apply vec_eq; simpl; ring. Qed.

(** Recomputing the cached values under a parent transform that is moved by
    [v] moves the centre by [v] and changes nothing else. *)
Lemma recache_translated s v :
  Shape.center (Shape.translateBy v s)
  = add (Shape.center (Shape._onTransformChanged s)) v
  /\ ext (Shape.translateBy v s) = ext (Shape._onTransformChanged s).
Proof.
  destruct s as [l p c o sc g e].
  unfold Shape.translateBy, Shape.setParentTransform, Shape.center,
    Shape._onTransformChanged.
  cbn [_localTransform _parentTransform _center _offset _scale
       getsDimensionsFromSprite ext].
  split; [apply apply_translated |].
  destruct e as [| radius sr | w h hd0 hd1 | w h hd0 hd1 ax0 ax1].
  - reflexivity.
  - f_equal. unfold Shape._computeScaledRadius.
    now rewrite !apply_translated, sub_add_same.
  - cbv beta iota zeta delta [Shape._computeHalfDiagonals Shape.corners].
    rewrite !apply_mult, !apply_translated, !sub_add_same.
    reflexivity.
  - cbv beta iota zeta delta [Shape.corners].
    rewrite !apply_mult, !apply_translated, !sub_add_same.
    reflexivity.
Qed.

Lemma translateBy_movedBy a v :
  Shape.upToDate a -> movedBy v a (Shape.translateBy v a).
Proof.
  intros H. destruct (recache_translated a v) as [H1 H2].
  unfold Shape.upToDate in H. rewrite H in H1, H2. split; assumption.
Qed.

Lemma recache_idempotent s :
  Shape.upToDate (Shape._onTransformChanged s).
Proof.
  unfold Shape.upToDate. destruct s as [l p c o sc g e].
  destruct e; reflexivity.
Qed.

End MoveFacts.

Module SeparationFacts.

Import Vector VectorFacts ShapeFacts CircleFacts MtvFacts MoveFacts.

Lemma isCircle_ext s s' : ext s' = ext s -> Shape.isCircle s' = Shape.isCircle s.
Proof. unfold Shape.isCircle. now intros ->. Qed.

Lemma isBox_ext s s' : ext s' = ext s -> Shape.isBox s' = Shape.isBox s.
Proof. unfold Shape.isBox. now intros ->. Qed.

(** The axes of a shape that is not a circle do not depend on the other
    shape, nor on where the shape is. *)
Lemma axes_not_circle s s' o o' :
  ext s' = ext s -> Shape.isCircle s = false ->
  Shape._getCandidateAxes s' o' = Shape._getCandidateAxes s o.
Proof.
  unfold Shape._getCandidateAxes, Shape.isCircle. intros ->.
  destruct (ext s); try reflexivity. discriminate.
Qed.

Lemma axes_fixed a a' b :
  ext a' = ext a -> Shape.isCircle a = false -> Shape.isCircle b = false ->
  Shape._getCandidateAxesForShapes a' b = Shape._getCandidateAxesForShapes a b.
Proof.
  intros He Ha Hb. unfold Shape._getCandidateAxesForShapes.
  rewrite (axes_not_circle a a' b b He Ha).
  now rewrite (axes_not_circle b b a a' eq_refl Hb).
Qed.

Lemma dedup_keeps_last l x :
  In x (Shape.deduplicateParallelVectors (l ++ [x])).
Proof.
  induction l as [| y l IH]; simpl.
  - now left.
  - destruct (existsb _ (l ++ [x])); [assumption | now right].
Qed.

(** The axes that a circle, or a point, contributes against a shape that is
    not a box. *)
Lemma axes_central s o :
  Shape.isBox s = false -> Shape.isBox o = false ->
  Shape._getCandidateAxes s o
  = if Shape.isCircle s then [sub (Shape.center o) (Shape.center s)] else [].
Proof.
  unfold Shape._getCandidateAxes, Shape.isBox, Shape.isCircle.
  destruct (ext s); try discriminate; intros _ Ho; [reflexivity |].
  destruct (ext o); try discriminate; reflexivity.
Qed.

Lemma replaceZeroAxis_nonzero_id e :
  e <> zero -> Shape.replaceZeroAxis e = e.
Proof.
  intros H. unfold Shape.replaceZeroAxis.
  now replace (isZero e) with false by (symmetry; now apply isZero_false).
Qed.

Lemma replaceZeroAxis_zero : Shape.replaceZeroAxis zero = Shape.X_AXIS.
Proof.
  unfold Shape.replaceZeroAxis.
  now replace (isZero zero) with true by (symmetry; now apply isZero_true).
Qed.

(** In a pair without a box every tested axis is the line of the centres,
    and the direction kept with an overlap is the one from the first centre
    to the second (the x axis when the centres coincide). *)
Lemma direction_central a b ax :
  Shape.isBox a = false -> Shape.isBox b = false ->
  In ax (Shape._getCandidateAxesForShapes a b) ->
  Shape.directionOnAxis (delta a b) ax = central (delta a b).
Proof.
  intros Ha Hb Hin. unfold Shape._getCandidateAxesForShapes in Hin.
  apply dedup_incl in Hin. apply in_map_iff in Hin.
  destruct Hin as (e & <- & Hin). apply in_app_iff in Hin.
  rewrite (axes_central a b Ha Hb), (axes_central b a Hb Ha) in Hin.
  set (d := delta a b).
  assert (He : (vx e = vx d /\ vy e = vy d) \/ (vx e = - vx d /\ vy e = - vy d)).
  { destruct Hin as [Hin | Hin].
    - destruct (Shape.isCircle a); [| contradiction].
      destruct Hin as [<- | []]. left. split; reflexivity.
    - destruct (Shape.isCircle b); [| contradiction].
      destruct Hin as [<- | []]. right. unfold d, delta, sub; simpl.
      split; ring. }
  unfold Shape.directionOnAxis, central.
  destruct (isZero d) eqn:Ed.
  - apply isZero_true in Ed. rewrite Ed, project_zero_l.
    replace (isZero zero) with true by (symmetry; now apply isZero_true).
    assert (e = zero).
    { rewrite Ed in He. simpl in He.
      apply vec_eq; simpl; destruct He as [[? ?] | [? ?]]; lra. }
    subst e. apply replaceZeroAxis_zero.
  - apply isZero_false in Ed.
    assert (Hp : project d (Shape.replaceZeroAxis e) = d).
    { assert (Hne : e <> zero).
      { intros ->. apply Ed. simpl in He.
        apply vec_eq; simpl; destruct He as [[? ?] | [? ?]]; lra. }
      rewrite replaceZeroAxis_nonzero_id by assumption.
      destruct He as [[Hx Hy] | [Hx Hy]].
      - assert (e = d) by now apply vec_eq. subst e.
        apply project_parallel; [assumption |]. unfold cross. ring.
      - now apply project_opposite. }
    rewrite Hp.
    now replace (isZero d) with false by (symmetry; now apply isZero_false).
Qed.

(** A pair without a box, moved by its displacement, still tests the line
    of the displacement. *)
Lemma central_axis_after_move a b a' v :
  Shape.isBox a = false -> Shape.isBox b = false ->
  Shape.collide a b = Some v -> v <> zero ->
  movedBy v a a' ->
  exists ax', In ax' (Shape._getCandidateAxesForShapes a' b) /\ cross ax' v = 0.
Proof.
  intros Ha Hb Hc Hv [Hcen Hext].
  destruct (collide_nonzero_inv a b v Hc Hv)
    as (ax & Hin & Hax & Hpos & _ & Hveq).
  rewrite (direction_central a b ax Ha Hb Hin) in Hveq.
  set (d := delta a b) in *.
  set (ov := Shape.overlapOnAxis d a b ax) in *.
  assert (HD : central d <> zero) by apply central_direction_nonzero.
  rewrite setMag_multiple in Hveq by assumption.
  pose proof (mag_pos _ HD) as HmD.
  (* the new difference of the centres is a positive multiple of [central d] *)
  assert (Hd' : exists c, 0 < c /\ delta a' b = mult (central d) c).
  { assert (E : delta a' b = sub d v).
    { unfold delta, d, delta. rewrite Hcen. apply vec_eq; simpl; ring. }
    unfold central in *. destruct (isZero d) eqn:Ed.
    - apply isZero_true in Ed. exists (ov / mag Shape.X_AXIS).
      split; [apply Rdiv_lt_0_compat; lra |].
      rewrite E, Hveq, Ed. apply vec_eq; simpl; unfold Rdiv; ring.
    - exists (1 + ov / mag d).
      assert (0 < ov / mag d) by (apply Rdiv_lt_0_compat; lra).
      split; [lra |].
      rewrite E, Hveq. apply vec_eq; simpl; unfold Rdiv; ring. }
  destruct Hd' as (c & Hc0 & Hd').
  assert (Hd'nz : delta a' b <> zero).
  { rewrite Hd'. intros E. apply mult_zero_iff in E; [lra | assumption]. }
  assert (Hd'par : cross (delta a' b) v = 0).
  { rewrite Hd', Hveq. unfold cross, mult; simpl. ring. }
  (* the last axis contributed is that difference, or its opposite *)
  assert (Hcirc : Shape.isCircle a = true \/ Shape.isCircle b = true).
  { unfold Shape._getCandidateAxesForShapes in Hin.
    apply dedup_incl in Hin. apply in_map_iff in Hin.
    destruct Hin as (e & _ & Hin). apply in_app_iff in Hin.
    rewrite (axes_central a b Ha Hb), (axes_central b a Hb Ha) in Hin.
    destruct (Shape.isCircle a); [now left |].
    destruct (Shape.isCircle b); [now right |].
    destruct Hin; contradiction. }
  assert (Ha' : Shape.isBox a' = false) by now rewrite (isBox_ext a a' Hext).
  unfold Shape._getCandidateAxesForShapes.
  rewrite (axes_central a' b Ha' Hb), (axes_central b a' Hb Ha').
  rewrite (isCircle_ext a a' Hext).
  fold (delta a' b).
  set (e' := sub (Shape.center a') (Shape.center b)).
  assert (He' : e' <> zero /\ cross e' v = 0).
  { assert (Hx : vx e' = - vx (delta a' b))
      by (unfold e', delta, sub; simpl; ring).
    assert (Hy : vy e' = - vy (delta a' b))
      by (unfold e', delta, sub; simpl; ring).
    split.
    - intros E. apply Hd'nz. rewrite E in Hx, Hy. simpl in Hx, Hy.
      apply vec_eq; simpl; lra.
    - unfold cross in *. rewrite Hx, Hy. lra. }
  destruct He' as [He'nz He'par].
  destruct (Shape.isCircle b) eqn:Eb.
  - exists e'. split; [| assumption].
    rewrite map_app. simpl map at 2.
    rewrite (replaceZeroAxis_nonzero_id e' He'nz). apply dedup_keeps_last.
  - destruct Hcirc as [Ea | Ea]; [| discriminate]. rewrite Ea.
    exists (delta a' b). split; [| assumption].
    simpl. rewrite (replaceZeroAxis_nonzero_id _ Hd'nz). now left.
Qed.

(** Away from the pairs of a circle and a box, the shape moved by the
    displacement no longer overlaps the other. *)
Lemma separated_after_move a b a' v :
  noCircleOnBox a b ->
  Shape.collide a b = Some v -> v <> zero ->
  movedBy v a a' ->
  Shape.collide a' b = Some zero.
Proof.
  intros Hk Hc Hv Hm. unfold noCircleOnBox in Hk.
  assert (Hcase : (Shape.isCircle a = false /\ Shape.isCircle b = false)
                  \/ (Shape.isBox a = false /\ Shape.isBox b = false)).
  { unfold Shape.isCircle, Shape.isBox in *.
    destruct (ext a), (ext b); simpl in Hk; try discriminate; auto. }
  destruct Hcase as [[Ha Hb] | [Ha Hb]].
  - destruct (collide_nonzero_inv a b v Hc Hv)
      as (ax & Hin & Hax & Hpos & _ & Hveq).
    apply (moved_apart a b a' v ax Hc Hv Hm).
    + destruct Hm as [_ He]. now rewrite (axes_fixed a a' b He Ha Hb).
    + pose proof (directionOnAxis_nonzero (delta a b) ax Hax) as Hdir.
      pose proof (directionOnAxis_parallel (delta a b) ax) as Hdpar.
      rewrite Hveq, setMag_multiple by assumption.
      rewrite cross_mult_r, (cross_swap ax). unfold cross.
      rewrite Hdpar. ring.
  - destruct (central_axis_after_move a b a' v Ha Hb Hc Hv Hm)
      as (ax' & Hin & Hpar).
    now apply (moved_apart a b a' v ax').
Qed.

End SeparationFacts.

(** ** A thin box and a circle *)

Module ThinBoxFacts.

Import Vector VectorFacts ShapeFacts CircleFacts MtvFacts MoveFacts
       SeparationFacts.

Local Abbreviation tol := Vector.default_tolerance.

Lemma tol_small : 0 < tol < 1 / 100.
Proof.
  split; [apply default_tolerance_pos |].
  unfold default_tolerance.
  assert (H : 100 < 10 ^ 14) by (simpl; lra).
  replace (1 / 100) with (/ 100) by lra.
  apply Rinv_lt_contravar; [| exact H].
  apply Rmult_lt_0_compat; lra.
Qed.

Lemma isParallel_false_intro v w :
  (tol <= Rabs (vx v) \/ tol <= Rabs (vx w)) ->
  (tol <= Rabs (vy v) \/ tol <= Rabs (vy w)) ->
  (vx w = 0 \/ vy w = 0 \/ tol <= Rabs (vx v / vx w - vy v / vy w)) ->
  isParallel v w tol = false.
Proof.
  intros H1 H2 H3. unfold isParallel.
  assert (E1 : Rltb (Rabs (vx v)) tol && Rltb (Rabs (vx w)) tol = false).
  { destruct H1 as [H | H]; rewrite (Rltb_intro_false _ _ H);
      [reflexivity | apply andb_false_r]. }
  assert (E2 : Rltb (Rabs (vy v)) tol && Rltb (Rabs (vy w)) tol = false).
  { destruct H2 as [H | H]; rewrite (Rltb_intro_false _ _ H);
      [reflexivity | apply andb_false_r]. }
  rewrite E1, E2. simpl.
  destruct H3 as [H | [H | H]].
  - rewrite H, Reqb_refl. reflexivity.
  - rewrite H, Reqb_refl. simpl. rewrite andb_false_r. reflexivity.
  - rewrite (Rltb_intro_false _ _ H). apply andb_false_r.
Qed.

Lemma isParallel_true_ratio v w :
  vx w <> 0 -> vy w <> 0 ->
  Rabs (vx v / vx w - vy v / vy w) < tol ->
  isParallel v w tol = true.
Proof.
  intros Hx Hy H. unfold isParallel.
  rewrite (Reqb_intro_false _ _ Hx), (Reqb_intro_false _ _ Hy).
  rewrite (Rltb_intro_true _ _ H). simpl. apply orb_true_r.
Qed.

(** Lengths of projections on the two world axes. *)
Lemma proj_len_x v k :
  0 < k -> mag (project v (mkVec k 0)) = Rabs (vx v).
Proof.
  intros Hk.
  assert (Hnz : mkVec k 0 <> zero) by (intros E; inversion E; lra).
  rewrite mag_project by assumption. rewrite mag_x, (Rabs_pos_eq k) by lra.
  unfold dot; simpl.
  replace (vx v * k + vy v * 0) with (vx v * k) by ring.
  rewrite Rabs_mult, (Rabs_pos_eq k) by lra. field. lra.
Qed.

Lemma mag_y y : mag (mkVec 0 y) = Rabs y.
Proof.
  unfold mag, magSq; simpl.
  replace (0 * 0 + y * y) with (Rsqr y) by (unfold Rsqr; ring).
  apply sqrt_Rsqr_abs.
Qed.

Lemma proj_len_y v k :
  0 < k -> mag (project v (mkVec 0 k)) = Rabs (vy v).
Proof.
  intros Hk.
  assert (Hnz : mkVec 0 k <> zero) by (intros E; inversion E; lra).
  rewrite mag_project by assumption. rewrite mag_y, (Rabs_pos_eq k) by lra.
  unfold dot; simpl.
  replace (vx v * 0 + vy v * k) with (vy v * k) by ring.
  rewrite Rabs_mult, (Rabs_pos_eq k) by lra. field. lra.
Qed.

(** The length of a vector is at least that of its first coordinate. *)
Lemma mag_ge_x v : Rabs (vx v) <= mag v.
Proof.
  rewrite <- sqrt_Rsqr_abs. unfold mag. apply sqrt_le_1_alt.
  unfold Rsqr, magSq. nra.
Qed.

(** The cached values of the two shapes. *)
Lemma thinBox_facts :
  Shape.center thinBox = mkVec 0 0 /\ ext thinBox = thinExt
  /\ Shape.upToDate thinBox.
Proof.
  unfold thinBox, Shape.newOrientedBoundingBoxCollider, Shape.construct.
  rewrite Reqb_refl.
  split; [| split].
  - unfold Shape.center, Shape._onTransformChanged; simpl.
    apply vec_eq; simpl; ring.
  - unfold Shape._onTransformChanged, thinExt; simpl.
    f_equal; apply vec_eq; simpl; field.
  - apply recache_idempotent.
Qed.

Lemma newCircleCollider_facts c r :
  Shape.center (Shape.newCircleCollider c r) = c
  /\ ext (Shape.newCircleCollider c r) = CircleCollider r (Rabs r)
  /\ Shape.upToDate (Shape.newCircleCollider c r).
Proof.
  unfold Shape.newCircleCollider, Shape.construct. rewrite Reqb_refl.
  split; [| split].
  - unfold Shape.center, Shape._onTransformChanged; simpl.
    apply vec_eq; simpl; ring.
  - unfold Shape._onTransformChanged; simpl. f_equal.
    unfold Shape._computeScaledRadius. rewrite <- (CircleSprites.mag_x r).
    f_equal. apply vec_eq; simpl; ring.
  - apply recache_idempotent.
Qed.

Lemma vertexAxis_nonzero px : vertexAxis px <> zero.
Proof. unfold vertexAxis, zero. intros E. inversion E. lra. Qed.

Lemma closest_vertex px a b :
  px <= 0 -> placed px a b -> Shape.axisToClosestVertex b a = vertexAxis px.
Proof.
  intros Hpx (Ha & Hea & Hb & Heb). pose proof tol_small as Ht.
  unfold Shape.axisToClosestVertex, Shape.halfDiagonals.
  rewrite Hea, Ha, Hb. unfold thinExt.
  cbv beta iota zeta.
  replace (sub (add (mkVec px 0) (mkVec tol (-1))) (mkVec 1 (1 / 2)))
    with (mkVec (px + tol - 1) (- (3 / 2))) by (apply vec_eq; simpl; lra).
  replace (sub (add (mkVec px 0) (mkVec tol 1)) (mkVec 1 (1 / 2)))
    with (vertexAxis px) by (apply vec_eq; simpl; lra).
  replace (sub (sub (mkVec px 0) (mkVec tol (-1))) (mkVec 1 (1 / 2)))
    with (mkVec (px - tol - 1) (1 / 2)) by (apply vec_eq; simpl; lra).
  replace (sub (sub (mkVec px 0) (mkVec tol 1)) (mkVec 1 (1 / 2)))
    with (mkVec (px - tol - 1) (- (3 / 2))) by (apply vec_eq; simpl; lra).
  unfold Shape.closer at 3.
  rewrite Rltb_intro_true by (unfold magSq, vertexAxis; simpl; nra).
  unfold Shape.closer at 2.
  rewrite Rltb_intro_false by (unfold magSq, vertexAxis; simpl; nra).
  unfold Shape.closer.
  rewrite Rltb_intro_false by (unfold magSq, vertexAxis; simpl; nra).
  reflexivity.
Qed.

Lemma thin_axes px a b :
  px <= 0 -> placed px a b ->
  Shape._getCandidateAxesForShapes a b
  = Shape.deduplicateParallelVectors
      [mkVec (2 * tol) 0; mkVec 0 2; vertexAxis px].
Proof.
  intros Hpx Hp. pose proof (closest_vertex px a b Hpx Hp) as Hu.
  destruct Hp as (Ha & Hea & Hb & Heb). pose proof tol_small as Ht.
  unfold Shape._getCandidateAxesForShapes, Shape._getCandidateAxes.
  rewrite Hea, Heb. unfold thinExt at 1.
  replace (Shape.isBox a) with true by (unfold Shape.isBox; now rewrite Hea).
  rewrite Hu. cbn [app map].
  rewrite !replaceZeroAxis_nonzero_id; [reflexivity | ..].
  - apply vertexAxis_nonzero.
  - intros E; inversion E; lra.
  - intros E; inversion E; lra.
Qed.

Lemma faces_not_parallel :
  isParallel (mkVec (2 * tol) 0) (mkVec 0 2) tol = false.
Proof.
  pose proof tol_small as Ht. apply isParallel_false_intro; simpl.
  - left. rewrite Rabs_pos_eq; lra.
  - right. rewrite Rabs_pos_eq; lra.
  - left. reflexivity.
Qed.

Lemma side_not_parallel px :
  px <= 0 -> isParallel (mkVec 0 2) (vertexAxis px) tol = false.
Proof.
  intros Hpx. pose proof tol_small as Ht.
  apply isParallel_false_intro; simpl.
  - right. rewrite Rabs_left; lra.
  - left. rewrite Rabs_pos_eq; lra.
  - right; right.
    replace (0 / (px + tol - 1) - 2 / (1 / 2)) with (- 4) by (field; lra).
    rewrite Rabs_left; lra.
Qed.

(** The radii and the distance of the centres on the two face normals. *)
Lemma overlap_on_width px a b :
  px <= 0 -> placed px a b ->
  Shape.overlapOnAxis (delta a b) a b (mkVec (2 * tol) 0) = 2 + tol + px.
Proof.
  intros Hpx (Ha & Hea & Hb & Heb). pose proof tol_small as Ht.
  unfold Shape.overlapOnAxis, Shape._getRadiusOnAxis, delta.
  rewrite Hea, Heb, Ha, Hb. unfold thinExt. cbv zeta.
  rewrite !proj_len_x by lra. simpl.
  rewrite (Rabs_pos_eq tol), (Rabs_pos_eq 3), (Rabs_pos_eq (1 - px)) by lra.
  rewrite Rmax_left by lra. ring.
Qed.

Lemma overlap_on_height px a b :
  placed px a b ->
  Shape.overlapOnAxis (delta a b) a b (mkVec 0 2) = 7 / 2.
Proof.
  intros (Ha & Hea & Hb & Heb).
  unfold Shape.overlapOnAxis, Shape._getRadiusOnAxis, delta.
  rewrite Hea, Heb, Ha, Hb. unfold thinExt. cbv zeta.
  rewrite !proj_len_y by lra. simpl.
  rewrite (Rabs_left (-1)), (Rabs_pos_eq 1), (Rabs_pos_eq 3),
    (Rabs_pos_eq (1 / 2 - 0)) by lra.
  rewrite Rmax_left by lra. lra.
Qed.

(** Before the move the vertex axis is kept next to the two face normals,
    and the least overlap is the one across the width of the box. *)
Lemma width_not_parallel_before :
  isParallel (mkVec (2 * tol) 0) (vertexAxis 0) tol = false.
Proof.
  pose proof tol_small as Ht. apply isParallel_false_intro; simpl.
  - left. rewrite Rabs_pos_eq; lra.
  - right. rewrite Rabs_pos_eq; lra.
  - right; right.
    assert (Hq : 0 < 2 * tol / (1 - tol)) by (apply Rdiv_lt_0_compat; lra).
    assert (Eq : 2 * tol / (1 - tol) * (1 - tol) = 2 * tol) by (field; lra).
    replace (2 * tol / (0 + tol - 1) - 0 / (1 / 2))
      with (- (2 * tol / (1 - tol))) by (field; lra).
    rewrite Rabs_Ropp, Rabs_pos_eq by lra. nra.
Qed.

Lemma axes_before a b :
  placed 0 a b ->
  Shape._getCandidateAxesForShapes a b
  = [mkVec (2 * tol) 0; mkVec 0 2; vertexAxis 0].
Proof.
  intros Hp. rewrite (thin_axes 0) by (lra || assumption).
  cbn [Shape.deduplicateParallelVectors existsb].
  rewrite faces_not_parallel, width_not_parallel_before,
    side_not_parallel by lra.
  reflexivity.
Qed.

Lemma overlap_on_vertex_before a b :
  placed 0 a b ->
  2 + tol <= Shape.overlapOnAxis (delta a b) a b (vertexAxis 0).
Proof.
  intros (Ha & Hea & Hb & Heb). pose proof tol_small as Ht.
  unfold Shape.overlapOnAxis, Shape._getRadiusOnAxis, delta.
  rewrite Hea, Heb, Ha, Hb. unfold thinExt. cbv zeta.
  rewrite (Rabs_pos_eq 3) by lra.
  pose proof (mag_ge_x (vertexAxis 0)) as Hm. simpl in Hm.
  rewrite Rabs_left in Hm by lra.
  rewrite (mag_project (sub _ _)) by apply vertexAxis_nonzero.
  set (m := mag (vertexAxis 0)) in *.
  replace (dot (sub (mkVec 1 (1 / 2)) (mkVec 0 0)) (vertexAxis 0))
    with (- (3 / 4 - tol)) by (unfold dot; simpl; lra).
  rewrite Rabs_Ropp, Rabs_pos_eq by lra.
  assert (Hr : 0 <= Rmax (mag (project (mkVec tol (-1)) (vertexAxis 0)))
                         (mag (project (mkVec tol 1) (vertexAxis 0)))).
  { eapply Rle_trans; [apply mag_nonneg | apply Rmax_l]. }
  assert (Hd : (3 / 4 - tol) / m <= 1 - tol).
  { apply (Rmult_le_reg_r m); [lra |].
    replace ((3 / 4 - tol) / m * m) with (3 / 4 - tol) by (field; lra).
    nra. }
  lra.
Qed.

Lemma collide_before a b :
  placed 0 a b -> Shape.collide a b = Some (mkVec (- (2 + tol)) 0).
Proof.
  intros Hp. pose proof tol_small as Ht.
  pose proof (overlap_on_vertex_before a b Hp) as Hv.
  unfold Shape.collide. fold (delta a b). rewrite (axes_before a b Hp).
  cbn [Shape.collideLoop].
  rewrite (overlap_on_width 0), (overlap_on_height 0) by (lra || assumption).
  rewrite (Rleb_intro_false (2 + tol + 0)) by lra.
  cbn [Shape.isSmaller].
  rewrite (Rleb_intro_false (7 / 2)) by lra.
  rewrite (Rltb_intro_false (7 / 2)) by lra.
  rewrite (Rleb_intro_false (Shape.overlapOnAxis _ _ _ _)) by lra.
  rewrite (Rltb_intro_false (Shape.overlapOnAxis _ _ _ _)) by lra.
  destruct Hp as (Ha & Hea & Hb & Heb).
  unfold Shape.directionOnAxis, delta. rewrite Ha, Hb.
  replace (project (sub (mkVec 1 (1 / 2)) (mkVec 0 0)) (mkVec (2 * tol) 0))
    with (mkVec 1 0)
    by (unfold project, dot, mult; apply vec_eq; simpl; field; lra).
  replace (isZero (mkVec 1 0)) with false
    by (symmetry; apply isZero_false; intros E; inversion E; lra).
  rewrite setMag_multiple by (intros E; inversion E; lra).
  rewrite CircleSprites.mag_x, Rabs_pos_eq by lra.
  f_equal. unfold mult. apply vec_eq; simpl; field.
Qed.

(** After the move the vertex axis is within the tolerance of the normal
    across the width, which is dropped; on the two axes that remain the
    projections still overlap. *)
Lemma vertexAxis_after : vertexAxis movedCentre = mkVec (-3) (1 / 2).
Proof. unfold vertexAxis, movedCentre. apply vec_eq; simpl; lra. Qed.

Lemma width_parallel_after :
  isParallel (mkVec (2 * tol) 0) (vertexAxis movedCentre) tol = true.
Proof.
  pose proof tol_small as Ht. rewrite vertexAxis_after.
  apply isParallel_true_ratio; simpl; try lra.
  replace (2 * tol / -3 - 0 / (1 / 2)) with (- (2 * tol / 3)) by (field; lra).
  rewrite Rabs_Ropp, Rabs_pos_eq; lra.
Qed.

Lemma axes_after a b :
  placed movedCentre a b ->
  Shape._getCandidateAxesForShapes a b
  = [mkVec 0 2; vertexAxis movedCentre].
Proof.
  intros Hp. pose proof tol_small as Ht.
  assert (Hneg : movedCentre <= 0) by (unfold movedCentre; lra).
  rewrite (thin_axes movedCentre) by assumption.
  cbn [Shape.deduplicateParallelVectors existsb].
  rewrite width_parallel_after, side_not_parallel by assumption.
  rewrite orb_true_r.
  reflexivity.
Qed.

Lemma overlap_on_vertex_after a b :
  placed movedCentre a b ->
  0 < Shape.overlapOnAxis (delta a b) a b (vertexAxis movedCentre).
Proof.
  intros (Ha & Hea & Hb & Heb). pose proof tol_small as Ht.
  unfold Shape.overlapOnAxis, Shape._getRadiusOnAxis, delta.
  rewrite Hea, Heb, Ha, Hb. unfold thinExt. cbv zeta.
  rewrite (Rabs_pos_eq 3) by lra.
  rewrite vertexAxis_after.
  assert (Hnz : mkVec (-3) (1 / 2) <> zero) by (intros E; inversion E; lra).
  pose proof (mag_sq (mkVec (-3) (1 / 2))) as Hsq.
  pose proof (mag_nonneg (mkVec (-3) (1 / 2))) as Hm0.
  unfold magSq in Hsq; simpl in Hsq.
  rewrite !mag_project by assumption.
  set (m := mag (mkVec (-3) (1 / 2))) in *.
  assert (Hm : 11 / 4 < m) by nra.
  replace (dot (sub (mkVec 1 (1 / 2)) (mkVec movedCentre 0))
               (mkVec (-3) (1 / 2)))
    with (- (35 / 4 + 3 * tol)) by (unfold dot, movedCentre; simpl; lra).
  replace (dot (mkVec tol (-1)) (mkVec (-3) (1 / 2)))
    with (- (3 * tol + 1 / 2)) by (unfold dot; simpl; lra).
  rewrite !Rabs_Ropp, (Rabs_pos_eq (35 / 4 + 3 * tol)),
    (Rabs_pos_eq (3 * tol + 1 / 2)) by lra.
  pose proof (Rmax_l ((3 * tol + 1 / 2) / m)
                (Rabs (dot (mkVec tol 1) (mkVec (-3) (1 / 2))) / m)) as Hl.
  assert (E : (3 * tol + 1 / 2) / m + 3 - (35 / 4 + 3 * tol) / m
              = (3 * m - 33 / 4) / m) by (field; lra).
  assert (Hpos : 0 < (3 * m - 33 / 4) / m)
    by (apply Rdiv_lt_0_compat; lra).
  lra.
Qed.

Lemma collide_after a b :
  placed movedCentre a b ->
  exists v, Shape.collide a b = Some v /\ v <> zero.
Proof.
  intros Hp. pose proof (axes_after a b Hp) as Haxes.
  pose proof (overlap_on_vertex_after a b Hp) as Hv.
  pose proof (overlap_on_height _ a b Hp) as Hh.
  destruct (collide_cases a b) as [[E _] | [[Hex _] | (_ & _ & Hres)]].
  - rewrite Haxes in E. discriminate.
  - exfalso. rewrite Haxes in Hex.
    inversion Hex as [? ? H | ? ? H]; subst; [lra |].
    inversion H as [? ? H' | ? ? H']; subst; [lra | inversion H'].
  - destruct Hres as (ov & ax & Hin & Hov & Hmin & Hc).
    exists (setMag (Shape.directionOnAxis (delta a b) ax) (- ov)).
    split; [assumption |].
    apply mtv_nonzero.
    + now apply (candidateAxes_nonzero a b).
    + rewrite Haxes in Hin. destruct Hin as [<- | [<- | []]]; lra.
Qed.

End ThinBoxFacts.

Import MtvFacts MoveFacts SeparationFacts ThinBoxFacts.

(** C1, at the input on which the program departs from the claim.  The
    oriented box of width [2e-14] and height 2 at the origin overlaps the
    circle of radius 3 at [(1, 1/2)], and [collide] returns the displacement
    [(-(2 + 1e-14), 0)], along the normal of the long sides of the box.
    Once the box is moved by it, the axis from the centre of the circle to
    the closest corner of the box is [(-3, 1/2)]; [isParallel] takes the
    normal [(2e-14, 0)] for parallel to it, the normal is dropped from the
    tested axes, and [overlap] is still true. *)
Theorem displacement_does_not_separate_thin_box :
  Shape.collide thinBox bigCircle
  = Some (mkVec (- (2 + Vector.default_tolerance)) 0)
  /\ mkVec (- (2 + Vector.default_tolerance)) 0 <> Vector.zero
  /\ Shape.overlap thinBox bigCircle = Some true
  /\ Vector.isParallel (mkVec (2 * Vector.default_tolerance) 0)
                       (mkVec (-3) (1 / 2)) Vector.default_tolerance = true
  /\ Shape._getCandidateAxesForShapes
       (Shape.translateBy (mkVec (- (2 + Vector.default_tolerance)) 0) thinBox)
       bigCircle
     = [mkVec 0 2; mkVec (-3) (1 / 2)]
  /\ Shape.overlap
       (Shape.translateBy (mkVec (- (2 + Vector.default_tolerance)) 0) thinBox)
       bigCircle
     = Some true.
Proof.
  pose proof tol_small as Ht.
  destruct thinBox_facts as (Ha & Hea & Hup).
  destruct (newCircleCollider_facts (mkVec 1 (1 / 2)) 3) as (Hb & Heb & _).
  fold bigCircle in Hb, Heb.
  assert (Hp : placed 0 thinBox bigCircle) by (repeat split; assumption).
  pose proof (collide_before _ _ Hp) as Hc.
  assert (Hnz : mkVec (- (2 + default_tolerance)) 0 <> zero)
    by (intros E; inversion E; lra).
  split; [exact Hc |]. split; [exact Hnz |]. split.
  { unfold Shape.overlap. rewrite Hc.
    apply isZero_false in Hnz. now rewrite Hnz. }
  split.
  { rewrite <- vertexAxis_after. exact width_parallel_after. }
  destruct (translateBy_movedBy thinBox (mkVec (- (2 + default_tolerance)) 0) Hup)
    as [Hc' He'].
  assert (Hp' : placed movedCentre
                  (Shape.translateBy (mkVec (- (2 + default_tolerance)) 0) thinBox)
                  bigCircle).
  { split; [| split; [| split]]; try assumption.
    - rewrite Hc', Ha. unfold movedCentre. apply vec_eq; simpl; lra.
    - now rewrite He'. }
  split.
  { rewrite <- vertexAxis_after. exact (axes_after _ _ Hp'). }
  destruct (collide_after _ _ Hp') as (v' & Hv' & Hnz').
  unfold Shape.overlap. rewrite Hv'.
  apply isZero_false in Hnz'. now rewrite Hnz'.
Qed.

(** * Properties of further parts of the library *)

Import FurtherNotions.

(** ** The displacement of the separating-axis test *)

(** X31.  For any two shapes [overlap] is true exactly when [collide]
    returns a displacement that is not zero.  Such a displacement lies
    along one of the tested axes, its length is the overlap of the two
    projections on that axis, and no tested axis has a smaller overlap.
    When no circle meets a box, moving the first shape by the displacement
    leaves the pair not overlapping. *)
Theorem displacement_is_least_overlap_and_separates (a b : CollisionShape) :
  (Shape.overlap a b = Some true
   <-> exists v, Shape.collide a b = Some v /\ v <> Vector.zero)
  /\ forall v,
       Shape.collide a b = Some v -> v <> Vector.zero ->
       let d := Vector.sub (Shape.center b) (Shape.center a) in
       let axes := Shape._getCandidateAxesForShapes a b in
       (exists ax,
           In ax axes
           /\ Vector.mag v = Shape.overlapOnAxis d a b ax
           /\ Vector.cross v ax = 0
           /\ forall ax', In ax' axes ->
                          Vector.mag v <= Shape.overlapOnAxis d a b ax')
       /\ (Shape.upToDate a -> noCircleOnBox a b ->
           Shape.overlap (Shape.translateBy v a) b = Some false).
Proof.
  split.
  - unfold Shape.overlap. destruct (Shape.collide a b) as [v |].
    + split.
      * intros H. exists v. split; [reflexivity |].
        apply isZero_false. inversion H as [E].
        now destruct (isZero v).
      * intros (v' & E & Hnz). inversion E; subst v'.
        apply isZero_false in Hnz. now rewrite Hnz.
    + split; [discriminate | intros (v & E & _); discriminate].
  - intros v Hc Hnz d axes. split.
    + destruct (collide_nonzero_inv a b v Hc Hnz)
        as (ax & Hin & Hax & Hpos & Hmin & Hv).
      fold (delta a b) in d. subst d axes.
      assert (Hmag : mag v = Shape.overlapOnAxis (delta a b) a b ax)
        by (rewrite Hv; now apply mtv_mag).
      exists ax. split; [assumption |]. split; [assumption |]. split.
      * rewrite Hv, setMag_multiple
          by now apply directionOnAxis_nonzero.
        rewrite cross_mult_l. unfold cross.
        rewrite directionOnAxis_parallel. ring.
      * intros ax' Hin'. rewrite Hmag.
        now apply (proj1 (Forall_forall _ _) Hmin).
    + intros Hup Hk.
      pose proof (translateBy_movedBy a v Hup) as Hm.
      unfold Shape.overlap.
      rewrite (separated_after_move a b _ v Hk Hc Hnz Hm).
      replace (isZero zero) with true
        by (symmetry; now apply isZero_true).
      reflexivity.
Qed.

Lemma circles_collide_example :
  Shape.collide circleA circleB = Some (mkVec (-1) 0).
Proof.
  destruct (newCircleCollider_facts (mkVec 0 0) 5) as (Ha & Hea & _).
  destruct (newCircleCollider_facts (mkVec 8 0) 4) as (Hb & Heb & _).
  unfold circleA, circleB.
  rewrite (CircleSprites.collide_placed_circles _ _ 5 4 _ _ Hea Ha Heb Hb).
  replace (sub (mkVec 8 0) (mkVec 0 0)) with (mkVec 8 0)
    by (apply vec_eq; simpl; lra).
  rewrite CircleSprites.mag_x, !Rabs_pos_eq by lra.
  rewrite Rleb_intro_false by lra.
  replace (isZero (mkVec 8 0)) with false
    by (symmetry; apply isZero_false; intros E; inversion E; lra).
  rewrite setMag_multiple by (intros E; inversion E; lra).
  rewrite CircleSprites.mag_x, Rabs_pos_eq by lra.
  f_equal. unfold mult. apply vec_eq; simpl; field.
Qed.

(** The circle of radius 5 at the origin and the circle of radius 4 at
    [(8, 0)]: the displacement is [(-1, 0)], and after the move the circles
    do not overlap. *)
Lemma displacement_witness :
  Shape.collide circleA circleB = Some (mkVec (-1) 0)
  /\ Shape.overlap (Shape.translateBy (mkVec (-1) 0) circleA) circleB
     = Some false.
Proof.
  split; [exact circles_collide_example |].
  refine (proj2 (proj2 (displacement_is_least_overlap_and_separates
                          circleA circleB)
                   (mkVec (-1) 0) circles_collide_example _) _ _).
  - intros E. inversion E. lra.
  - exact (proj2 (proj2 (newCircleCollider_facts (mkVec 0 0) 5))).
  - reflexivity.
Defined.

(** ** Angles *)

Module AngleFacts.

Import SpriteOps.

Lemma norm_factor x y :
  x <> 0 -> sqrt (x * x + y * y) = Rabs x * sqrt (1 + (y / x)²).
Proof.
  intros Hx.
  replace (x * x + y * y) with (x² * (1 + (y / x)²))
    by (unfold Rsqr; field; assumption).
  rewrite sqrt_mult_alt by apply Rle_0_sqr.
  now rewrite sqrt_Rsqr_abs.
Qed.

Lemma norm_factor_pos x y : x <> 0 -> 0 < sqrt (1 + (y / x)²).
Proof.
  intros Hx. apply sqrt_lt_R0. pose proof (Rle_0_sqr (y / x)). lra.
Qed.

Lemma atan2_right y x : 0 < x -> atan2 y x = atan (y / x).
Proof. intros H. unfold atan2. now rewrite Rltb_intro_true. Qed.

Lemma atan2_left y x :
  x < 0 ->
  atan2 y x = if Rleb 0 y then atan (y / x) + PI else atan (y / x) - PI.
Proof.
  intros H. unfold atan2.
  rewrite Rltb_intro_false, Rltb_intro_true by lra. reflexivity.
Qed.

Lemma atan2_up y : 0 < y -> atan2 y 0 = PI / 2.
Proof.
  intros H. unfold atan2.
  rewrite (Rltb_intro_false 0 0) by lra. now rewrite Rltb_intro_true.
Qed.

Lemma atan2_down y : y < 0 -> atan2 y 0 = - PI / 2.
Proof.
  intros H. unfold atan2.
  rewrite (Rltb_intro_false 0 0), (Rltb_intro_false 0 y) by lra.
  now rewrite Rltb_intro_true.
Qed.

Lemma atan2_origin : atan2 0 0 = 0.
Proof. unfold atan2. now rewrite (Rltb_intro_false 0 0) by lra. Qed.

Lemma cos_sub_PI x : cos (x - PI) = - cos x.
Proof. rewrite cos_minus, cos_PI, sin_PI. ring. Qed.

Lemma sin_sub_PI x : sin (x - PI) = - sin x.
Proof. rewrite sin_minus, cos_PI, sin_PI. ring. Qed.

(** The cosine and the sine of [atan2(y, x)] are the coordinates of the
    unit vector along [(x, y)]. *)
Lemma cos_sin_atan2 x y :
  mkVec x y <> Vector.zero ->
  cos (atan2 y x) = x / sqrt (x * x + y * y)
  /\ sin (atan2 y x) = y / sqrt (x * x + y * y).
Proof.
  intros Hnz.
  destruct (Rtotal_order x 0) as [Hx | [Hx | Hx]].
  - assert (Hx0 : x <> 0) by lra.
    pose proof (norm_factor_pos x y Hx0) as Hs.
    rewrite atan2_left, norm_factor, Rabs_left by assumption.
    destruct (Rleb 0 y).
    + rewrite neg_cos, neg_sin, cos_atan, sin_atan. split; field; lra.
    + rewrite cos_sub_PI, sin_sub_PI, cos_atan, sin_atan. split; field; lra.
  - subst x.
    assert (Hy : y <> 0).
    { intros ->. now apply Hnz. }
    replace (0 * 0 + y * y) with (y²) by (unfold Rsqr; ring).
    rewrite sqrt_Rsqr_abs.
    destruct (Rtotal_order y 0) as [Hy' | [Hy' | Hy']]; [| contradiction |].
    + rewrite atan2_down, Rabs_left by assumption.
      replace (- PI / 2) with (- (PI / 2)) by lra.
      rewrite cos_neg, sin_neg, cos_PI2, sin_PI2. split; field; lra.
    + rewrite atan2_up, Rabs_pos_eq by lra.
      rewrite cos_PI2, sin_PI2. split; field; lra.
  - assert (Hx0 : x <> 0) by lra.
    pose proof (norm_factor_pos x y Hx0) as Hs.
    rewrite atan2_right, norm_factor, Rabs_pos_eq by lra.
    rewrite cos_atan, sin_atan. split; field; lra.
Qed.

(** [atan2] gives back the angle of a point of the unit circle. *)
Lemma atan2_polar r : - PI < r <= PI -> atan2 (sin r) (cos r) = r.
Proof.
  intros [Hlo Hhi]. pose proof PI_RGT_0 as Hpi.
  destruct (Rtotal_order r (- (PI / 2))) as [H1 | [H1 | H1]].
  - (* the third quadrant *)
    assert (Hc : cos r < 0).
    { rewrite <- cos_neg. apply cos_lt_0; lra. }
    assert (Hs : sin r < 0).
    { replace r with (- - r) by ring. rewrite sin_neg.
      pose proof (sin_gt_0 (- r)). lra. }
    rewrite atan2_left by assumption. rewrite Rleb_intro_false by assumption.
    replace (sin r / cos r) with (tan (r + PI)).
    + rewrite atan_tan by lra. ring.
    + unfold tan. rewrite neg_sin, neg_cos. field. lra.
  - subst r. rewrite cos_neg, sin_neg, cos_PI2, sin_PI2.
    rewrite atan2_down by lra. lra.
  - destruct (Rtotal_order r (PI / 2)) as [H2 | [H2 | H2]].
    + assert (Hc : 0 < cos r) by (apply cos_gt_0; lra).
      rewrite atan2_right by assumption.
      change (sin r / cos r) with (tan r). apply atan_tan. lra.
    + subst r. rewrite cos_PI2, sin_PI2. apply atan2_up. lra.
    + assert (Hc : cos r < 0) by (apply cos_lt_0; lra).
      assert (Hs : 0 <= sin r) by (apply sin_ge_0; lra).
      rewrite atan2_left by assumption. rewrite Rleb_intro_true by assumption.
      replace (sin r / cos r) with (tan (r - PI)).
      * rewrite atan_tan by lra. ring.
      * unfold tan. rewrite sin_sub_PI, cos_sub_PI. field. lra.
Qed.

End AngleFacts.

(** ** p5.Vector and p5.Transform2D *)

(** X1.  The projection of [a] on the line of a vector [b] that is not zero
    leaves a remainder at a right angle to [b], and it is never longer than
    [a]. *)
Theorem project_is_orthogonal_and_shorter (a b : Vec) :
  b <> Vector.zero ->
  Vector.dot (Vector.sub a (Vector.project a b)) b = 0
  /\ Vector.mag (Vector.project a b) <= Vector.mag a.
Proof.
  intros Hb. pose proof (magSq_pos b Hb) as Hm. unfold magSq in Hm.
  split.
  - unfold Vector.project, Vector.dot, Vector.sub, Vector.mult; simpl.
    field. lra.
  - unfold Vector.mag. apply sqrt_le_1_alt. unfold Vector.project.
    set (k := Vector.dot a b / Vector.dot b b).
    assert (Hk : k * (vx b * vx b + vy b * vy b) = vx a * vx b + vy a * vy b).
    { unfold k, Vector.dot. field. lra. }
    clearbody k. unfold Vector.magSq, Vector.mult; simpl.
    pose proof (Rle_0_sqr (vx a - vx b * k)) as H1.
    pose proof (Rle_0_sqr (vy a - vy b * k)) as H2.
    unfold Rsqr in H1, H2.
    assert (Hk2 : k * k * (vx b * vx b + vy b * vy b)
                  = k * (vx a * vx b + vy a * vy b)) by (rewrite <- Hk; ring).
    lra.
Qed.

Lemma project_witness :
  Vector.dot (Vector.sub (mkVec 3 4) (Vector.project (mkVec 3 4) (mkVec 1 0)))
             (mkVec 1 0) = 0
  /\ Vector.mag (Vector.project (mkVec 3 4) (mkVec 1 0))
     <= Vector.mag (mkVec 3 4).
Proof.
  apply (project_is_orthogonal_and_shorter (mkVec 3 4) (mkVec 1 0)).
  intros E. inversion E. lra.
Defined.

(** X2.  With a positive tolerance [isParallel] accepts every pair of
    vectors that lie exactly on one line, the second of them not zero. *)
Theorem isParallel_accepts_vectors_on_one_line (v w : Vec) (tolerance : R) :
  0 < tolerance -> w <> Vector.zero -> Vector.cross v w = 0 ->
  Vector.isParallel v w tolerance = true.
Proof.
  intros Ht Hw Hc. unfold Vector.cross in Hc. unfold Vector.isParallel.
  destruct (Req_dec_T (vx w) 0) as [Hx | Hx].
  - assert (Hy : vy w <> 0).
    { intros Hy. apply Hw. now apply vec_eq. }
    assert (Hv : vx v = 0).
    { rewrite Hx in Hc. apply (Rmult_eq_reg_r (vy w)); [lra | assumption]. }
    rewrite Hx, Hv, Rabs_R0, Rltb_intro_true by assumption. reflexivity.
  - destruct (Req_dec_T (vy w) 0) as [Hy | Hy].
    + assert (Hv : vy v = 0).
      { rewrite Hy in Hc. apply (Rmult_eq_reg_r (vx w)); [lra | assumption]. }
      rewrite Hy, Hv, Rabs_R0, (Rltb_intro_true 0) by assumption.
      simpl. rewrite orb_true_r. reflexivity.
    + rewrite (Reqb_intro_false _ _ Hx), (Reqb_intro_false _ _ Hy).
      replace (vx v / vx w - vy v / vy w)
        with ((vx v * vy w - vy v * vx w) / (vx w * vy w))
        by (field; split; assumption).
      rewrite Hc. unfold Rdiv. rewrite Rmult_0_l.
      rewrite Rabs_R0, (Rltb_intro_true 0) by assumption.
      simpl. apply orb_true_r.
Qed.

Lemma isParallel_witness :
  Vector.isParallel (mkVec 2 4) (mkVec (-1) (-2)) Vector.default_tolerance
  = true.
Proof.
  apply isParallel_accepts_vectors_on_one_line.
  - apply default_tolerance_pos.
  - intros E. inversion E. lra.
  - unfold Vector.cross; simpl. lra.
Defined.

(** X3.  [mult] composes transforms: applying [mult a b] to a vector is
    applying [b] and then [a]; the product is associative and the identity
    is neutral on both sides. *)
Theorem transform_mult_composes (a b c : Transform2D) (v : Vec) :
  Transform.apply (Transform.mult a b) v
  = Transform.apply a (Transform.apply b v)
  /\ Transform.mult (Transform.mult a b) c
     = Transform.mult a (Transform.mult b c)
  /\ Transform.mult Transform.identity a = a
  /\ Transform.mult a Transform.identity = a.
Proof.
  destruct a, b, c, v. unfold Transform.apply, Transform.mult,
    Transform.identity; simpl.
  repeat split; f_equal; ring.
Qed.

(** X4.  Two rotations applied one after the other are the rotation by the
    sum of the two angles, and a rotation by zero changes nothing. *)
Theorem rotate_adds_angles (r1 r2 : R) (t : Transform2D) :
  Transform.rotate r1 (Transform.rotate r2 t) = Transform.rotate (r1 + r2) t
  /\ Transform.rotate 0 t = t.
Proof.
  destruct t. unfold Transform.rotate, Transform.mult; simpl.
  rewrite cos_plus, sin_plus, cos_0, sin_0.
  split; f_equal; ring.
Qed.

(** [translate] adds its arguments to the translation that
    [getTranslation] reads, and [getScale] reads back the factors of a
    scaling that was translated but not rotated. *)
Lemma translation_and_scale_read_back (x y sx sy : R) (t : Transform2D) :
  Transform.getTranslation (Transform.translate x y t)
  = Vector.add (Transform.getTranslation t) (mkVec x y)
  /\ Transform.getScale
       (Transform.translate x y (Transform.scale sx sy Transform.identity))
     = mkVec sx sy.
Proof.
  split.
  - destruct t. unfold Transform.getTranslation, Transform.translate,
      Transform.mult, Vector.add; simpl. f_equal; ring.
  - replace (Transform.translate x y
               (Transform.scale sx sy Transform.identity))
      with (mkTransform sx 0 x 0 sy y)
      by (unfold Transform.translate, Transform.scale, Transform.mult,
            Transform.identity; simpl; f_equal; ring).
    assert (Hs : forall s, Transform.sign s * sqrt (s * s + 0 * 0) = s).
    { intros s. replace (s * s + 0 * 0) with (s²) by (unfold Rsqr; ring).
      rewrite sqrt_Rsqr_abs. unfold Transform.sign.
      destruct (Reqb s 0) eqn:E0; rbool; [subst; ring |].
      destruct (Rltb 0 s) eqn:E1; rbool.
      - rewrite Rabs_pos_eq; lra.
      - rewrite Rabs_left; lra. }
    unfold Transform.getScale; simpl. f_equal.
    + apply Hs.
    + rewrite Rplus_comm. apply Hs.
Qed.

(** X5.  [getRotation] reads back the angle of a rotation of the identity,
    for an angle in the range of [Math.atan2]. *)
Theorem getRotation_reads_back_rotate (r : R) :
  - PI < r <= PI ->
  TransformMore.getRotation (Transform.rotate r Transform.identity) = r.
Proof.
  intros Hr. unfold TransformMore.getRotation, Transform.rotate,
    Transform.mult, Transform.identity; simpl.
  replace (- (cos r * 0 + - sin r * 1)) with (sin r) by ring.
  replace (cos r * 1 + - sin r * 0) with (cos r) by ring.
  now apply AngleFacts.atan2_polar.
Qed.

Lemma getRotation_witness :
  TransformMore.getRotation (Transform.rotate (PI / 2) Transform.identity)
  = PI / 2.
Proof.
  apply getRotation_reads_back_rotate.
  pose proof PI_RGT_0. lra.
Defined.

(** ** The separating-axis test, further properties *)

Module SatFacts.

Import Vector VectorFacts ShapeFacts CircleFacts MtvFacts MoveFacts
       SeparationFacts.

Lemma collideLoop_ext d a a' b b' axes : forall sm,
  ext a' = ext a -> ext b' = ext b ->
  Shape.collideLoop d a' b' axes sm = Shape.collideLoop d a b axes sm.
Proof.
  induction axes as [| ax rest IH]; intros sm Ha Hb; [reflexivity |].
  cbn [Shape.collideLoop]. unfold Shape.overlapOnAxis.
  rewrite (radius_ext a a' ax Ha), (radius_ext b b' ax Hb).
  rewrite !IH by assumption. reflexivity.
Qed.

Lemma candidateAxes_moved a a' b b' v :
  movedBy v a a' -> movedBy v b b' ->
  Shape._getCandidateAxes a' b' = Shape._getCandidateAxes a b.
Proof.
  intros [Hca Hea] [Hcb Heb]. unfold Shape._getCandidateAxes.
  rewrite Hea, (isBox_ext b b' Heb).
  destruct (ext a); try reflexivity.
  destruct (Shape.isBox b).
  - unfold Shape.axisToClosestVertex, Shape.halfDiagonals.
    rewrite Heb, Hca, Hcb.
    destruct (match ext b with
              | AxisAlignedBoundingBoxCollider _ _ hd0 hd1 => (hd0, hd1)
              | OrientedBoundingBoxCollider _ _ hd0 hd1 _ _ => (hd0, hd1)
              | _ => (zero, zero)
              end) as [hd0 hd1].
    assert (E1 : forall h, sub (add (add (Shape.center b) v) h)
                               (add (Shape.center a) v)
                           = sub (add (Shape.center b) h) (Shape.center a))
      by (intros h; apply vec_eq; simpl; ring).
    assert (E2 : forall h, sub (sub (add (Shape.center b) v) h)
                               (add (Shape.center a) v)
                           = sub (sub (Shape.center b) h) (Shape.center a))
      by (intros h; apply vec_eq; simpl; ring).
    now rewrite !E1, !E2.
  - now rewrite Hca, Hcb, sub_add_same.
Qed.

Lemma collide_moved a a' b b' v :
  movedBy v a a' -> movedBy v b b' ->
  Shape.collide a' b' = Shape.collide a b.
Proof.
  intros Ha Hb. unfold Shape.collide, Shape._getCandidateAxesForShapes.
  rewrite (candidateAxes_moved a a' b b' v Ha Hb).
  rewrite (candidateAxes_moved b b' a a' v Hb Ha).
  destruct Ha as [Hca Hea], Hb as [Hcb Heb].
  rewrite Hca, Hcb, sub_add_same.
  now apply collideLoop_ext.
Qed.

Lemma candidateAxes_empty a b :
  Shape._getCandidateAxes a b = [] <-> ext a = PointCollider.
Proof.
  unfold Shape._getCandidateAxes. destruct (ext a); split; intros H;
    try reflexivity; try discriminate.
  destruct (Shape.isBox b); discriminate.
Qed.

Lemma direction_along_delta d ax :
  ax <> zero -> 0 <= dot (Shape.directionOnAxis d ax) d.
Proof.
  intros Hax. pose proof (magSq_pos ax Hax) as Hm. unfold magSq in Hm.
  unfold Shape.directionOnAxis.
  destruct (isZero (project d ax)) eqn:E.
  - apply isZero_true in E. unfold project in E.
    apply mult_zero_iff in E; [| assumption].
    assert (Hd : dot d ax = 0).
    { unfold dot in *. apply (Rmult_eq_reg_r (/ (vx ax * vx ax + vy ax * vy ax))).
      - unfold Rdiv in E. rewrite E. ring.
      - apply Rinv_neq_0_compat. lra. }
    unfold dot in *. lra.
  - unfold project, dot, mult; simpl.
    replace (vx ax * ((vx d * vx ax + vy d * vy ax)
                      / (vx ax * vx ax + vy ax * vy ax)) * vx d
             + vy ax * ((vx d * vx ax + vy d * vy ax)
                        / (vx ax * vx ax + vy ax * vy ax)) * vy d)
      with ((vx d * vx ax + vy d * vy ax)² / (vx ax * vx ax + vy ax * vy ax))
      by (unfold Rsqr; field; lra).
    apply Rmult_le_pos; [apply Rle_0_sqr |].
    left. now apply Rinv_0_lt_compat.
Qed.

(** The cached values of an axis-aligned box as its constructor leaves
    them. *)
Lemma newAABB_facts c w h :
  Shape.center (Shape.newAxisAlignedBoundingBoxCollider c w h) = c
  /\ ext (Shape.newAxisAlignedBoundingBoxCollider c w h)
     = AxisAlignedBoundingBoxCollider w h
         (mkVec (Rabs w / 2) (- (Rabs h / 2)))
         (mkVec (Rabs w / 2) (Rabs h / 2)).
Proof.
  unfold Shape.newAxisAlignedBoundingBoxCollider, Shape.construct.
  rewrite Reqb_refl.
  split.
  - unfold Shape.center, Shape._onTransformChanged; simpl.
    apply vec_eq; simpl; ring.
  - unfold Shape._onTransformChanged.
    cbn [_localTransform _parentTransform ext].
    cbv beta iota zeta delta [Shape._computeHalfDiagonals Shape.corners].
    assert (Hw : Rabs (w / 2) = Rabs w / 2).
    { unfold Rdiv. rewrite Rabs_mult, (Rabs_pos_eq (/ 2)); lra. }
    assert (Hh : Rabs (h / 2) = Rabs h / 2).
    { unfold Rdiv. rewrite Rabs_mult, (Rabs_pos_eq (/ 2)); lra. }
    f_equal.
    + apply vec_eq; cbn [vx vy].
      * match goal with
        | |- Rmax (Rabs ?e1) (Rabs ?e2) = _ =>
            replace e1 with (w / 2) by (simpl; field);
            replace e2 with (w / 2) by (simpl; field)
        end.
        rewrite Rmax_left, Hw; lra.
      * match goal with
        | |- - Rmax (Rabs ?e1) (Rabs ?e2) = _ =>
            replace e1 with (h / 2) by (simpl; field);
            replace e2 with (h / 2) by (simpl; field)
        end.
        rewrite Rmax_left, Hh; lra.
    + apply vec_eq; cbn [vx vy].
      * match goal with
        | |- Rmax (Rabs ?e1) (Rabs ?e2) = _ =>
            replace e1 with (w / 2) by (simpl; field);
            replace e2 with (w / 2) by (simpl; field)
        end.
        rewrite Rmax_left, Hw; lra.
      * match goal with
        | |- Rmax (Rabs ?e1) (Rabs ?e2) = _ =>
            replace e1 with (h / 2) by (simpl; field);
            replace e2 with (h / 2) by (simpl; field)
        end.
        rewrite Rmax_left, Hh; lra.
Qed.

End SatFacts.

Import SatFacts.

(** X6.  [collide] ends in the error of a missing axis exactly when both
    shapes are points; for every other pair it returns a vector. *)
Theorem collide_fails_only_for_two_points (a b : CollisionShape) :
  Shape.collide a b = None
  <-> ext a = PointCollider /\ ext b = PointCollider.
Proof.
  split.
  - intros H.
    destruct (collide_cases a b)
      as [[E _] | [[_ E] | (_ & _ & ov & ax & _ & _ & _ & E)]];
      try congruence.
    unfold Shape._getCandidateAxesForShapes in E. revert E.
    destruct (Shape._getCandidateAxes a b ++ Shape._getCandidateAxes b a)
      as [| x rest] eqn:Eax; intros E.
    + apply app_eq_nil in Eax. destruct Eax as [Ea Eb].
      split; eapply candidateAxes_empty; eassumption.
    + exfalso. revert E. apply dedup_nonempty. discriminate.
  - intros [Ha Hb]. unfold Shape.collide, Shape._getCandidateAxesForShapes.
    rewrite (proj2 (candidateAxes_empty a b) Ha).
    rewrite (proj2 (candidateAxes_empty b a) Hb).
    reflexivity.
Qed.

(** X7.  The displacement that [collide] returns for the first shape never
    points toward the centre of the second. *)
Theorem displacement_points_away_from_other (a b : CollisionShape) (v : Vec) :
  Shape.collide a b = Some v ->
  Vector.dot v (Vector.sub (Shape.center b) (Shape.center a)) <= 0.
Proof.
  intros Hc. destruct (isZero v) eqn:Ez.
  - apply isZero_true in Ez. subst v. unfold Vector.dot, zero; simpl. lra.
  - apply isZero_false in Ez.
    destruct (collide_nonzero_inv a b v Hc Ez)
      as (ax & _ & Hax & Hpos & _ & Hv).
    fold (delta a b).
    pose proof (directionOnAxis_nonzero (delta a b) ax Hax) as Hdir.
    pose proof (direction_along_delta (delta a b) ax Hax) as Hdot.
    pose proof (mag_pos _ Hdir) as Hm.
    rewrite Hv, setMag_multiple by assumption.
    set (dir := Shape.directionOnAxis (delta a b) ax) in *.
    set (ov := Shape.overlapOnAxis (delta a b) a b ax) in *.
    replace (Vector.dot (Vector.mult dir (- ov / mag dir)) (delta a b))
      with (- (ov / mag dir * Vector.dot dir (delta a b)))
      by (unfold Vector.dot, Vector.mult; simpl; field; lra).
    assert (0 < ov / mag dir) by (now apply Rdiv_lt_0_compat).
    pose proof (Rmult_le_pos (ov / mag dir) (Vector.dot dir (delta a b))).
    lra.
Qed.

Lemma displacement_points_away_witness :
  Vector.dot (mkVec (-1) 0)
             (Vector.sub (Shape.center circleB) (Shape.center circleA)) <= 0.
Proof.
  exact (displacement_points_away_from_other circleA circleB (mkVec (-1) 0)
           circles_collide_example).
Defined.

(** X8.  Moving both shapes by the same vector does not change the result
    of [collide]. *)
Theorem collide_ignores_common_translation (a b : CollisionShape) (v : Vec) :
  Shape.upToDate a -> Shape.upToDate b ->
  Shape.collide (Shape.translateBy v a) (Shape.translateBy v b)
  = Shape.collide a b.
Proof.
  intros Ha Hb. apply (collide_moved a _ b _ v); now apply translateBy_movedBy.
Qed.

Lemma collide_common_translation_witness :
  Shape.collide (Shape.translateBy (mkVec 10 20) circleA)
                (Shape.translateBy (mkVec 10 20) circleB)
  = Shape.collide circleA circleB.
Proof.
  apply collide_ignores_common_translation.
  - exact (proj2 (proj2 (newCircleCollider_facts (mkVec 0 0) 5))).
  - exact (proj2 (proj2 (newCircleCollider_facts (mkVec 8 0) 4))).
Defined.

Module BoxFacts.

Import Vector VectorFacts ShapeFacts CircleFacts MtvFacts SeparationFacts.

Lemma Y_AXIS_nonzero : Shape.Y_AXIS <> zero.
Proof. unfold Shape.Y_AXIS, zero. intros E. inversion E. lra. Qed.

Lemma isParallel_Y_Y :
  isParallel Shape.Y_AXIS Shape.Y_AXIS default_tolerance = true.
Proof.
  unfold isParallel, Shape.Y_AXIS; simpl. pose proof default_tolerance_pos.
  now rewrite Rabs_R0, (Rltb_intro_true 0 _ H).
Qed.

Lemma isParallel_X_Y :
  isParallel Shape.X_AXIS Shape.Y_AXIS default_tolerance = false.
Proof.
  pose proof tol_small. apply isParallel_false_intro; simpl.
  - left. rewrite Rabs_pos_eq; lra.
  - right. rewrite Rabs_pos_eq; lra.
  - left. reflexivity.
Qed.

Lemma isParallel_Y_X :
  isParallel Shape.Y_AXIS Shape.X_AXIS default_tolerance = false.
Proof.
  pose proof tol_small. apply isParallel_false_intro; simpl.
  - right. rewrite Rabs_pos_eq; lra.
  - left. rewrite Rabs_pos_eq; lra.
  - right; left. reflexivity.
Qed.

(** The two world axes are what is left of the axes of two axis-aligned
    boxes. *)
Lemma world_axes_twice :
  Shape.deduplicateParallelVectors
    (map Shape.replaceZeroAxis (Shape.WORLD_AXES ++ Shape.WORLD_AXES))
  = Shape.WORLD_AXES.
Proof.
  unfold Shape.WORLD_AXES. cbn [app map].
  rewrite !(replaceZeroAxis_nonzero_id _ X_AXIS_nonzero),
    !(replaceZeroAxis_nonzero_id _ Y_AXIS_nonzero).
  cbn [Shape.deduplicateParallelVectors existsb].
  rewrite isParallel_X_X, isParallel_Y_Y, isParallel_X_Y, isParallel_Y_X.
  reflexivity.
Qed.

Lemma box_radius_X s hw hh :
  symmetricBox s hw hh -> Shape._getRadiusOnAxis s Shape.X_AXIS = hw.
Proof.
  intros (Hw & Hh & w & h & E). unfold Shape._getRadiusOnAxis, Shape.X_AXIS.
  rewrite E, !proj_len_x by lra. simpl.
  rewrite Rabs_pos_eq by assumption. apply Rmax_left. lra.
Qed.

Lemma box_radius_Y s hw hh :
  symmetricBox s hw hh -> Shape._getRadiusOnAxis s Shape.Y_AXIS = hh.
Proof.
  intros (Hw & Hh & w & h & E). unfold Shape._getRadiusOnAxis, Shape.Y_AXIS.
  rewrite E, !proj_len_y by lra. simpl.
  rewrite Rabs_Ropp, Rabs_pos_eq by assumption. apply Rmax_left. lra.
Qed.

Lemma overlap_of_nonzero v :
  v <> zero -> Some (negb (isZero v)) = Some true.
Proof. intros H. apply isZero_false in H. now rewrite H. Qed.

Lemma len_on_X d : mag (project d Shape.X_AXIS) = Rabs (vx d).
Proof. unfold Shape.X_AXIS. apply proj_len_x. lra. Qed.

Lemma len_on_Y d : mag (project d Shape.Y_AXIS) = Rabs (vy d).
Proof. unfold Shape.Y_AXIS. apply proj_len_y. lra. Qed.

(** The test of two axis-aligned boxes. *)
Lemma overlap_symmetric_boxes a b hw1 hh1 hw2 hh2 :
  symmetricBox a hw1 hh1 -> symmetricBox b hw2 hh2 ->
  let d := sub (Shape.center b) (Shape.center a) in
  Shape.overlap a b
  = Some (Rltb (Rabs (vx d)) (hw1 + hw2) && Rltb (Rabs (vy d)) (hh1 + hh2)).
Proof.
  intros Ha Hb d.
  pose proof (box_radius_X a _ _ Ha) as Xa.
  pose proof (box_radius_Y a _ _ Ha) as Ya.
  pose proof (box_radius_X b _ _ Hb) as Xb.
  pose proof (box_radius_Y b _ _ Hb) as Yb.
  destruct Ha as (_ & _ & wa & ha & Ea), Hb as (_ & _ & wb & hb & Eb).
  unfold Shape.overlap, Shape.collide, Shape._getCandidateAxesForShapes,
    Shape._getCandidateAxes.
  rewrite Ea, Eb, world_axes_twice. fold d.
  unfold Shape.WORLD_AXES. cbn [Shape.collideLoop].
  unfold Shape.overlapOnAxis. rewrite Xa, Xb, Ya, Yb.
  rewrite !len_on_X, !len_on_Y.
  destruct (Rleb (hw1 + hw2 - Rabs (vx d)) 0) eqn:Ex; rbool.
  - rewrite Rltb_intro_false by lra. simpl.
    replace (isZero zero) with true by (symmetry; now apply isZero_true).
    reflexivity.
  - rewrite (Rltb_intro_true (Rabs (vx d))) by lra. cbn [Shape.isSmaller andb].
    destruct (Rleb (hh1 + hh2 - Rabs (vy d)) 0) eqn:Ey; rbool.
    + rewrite Rltb_intro_false by lra.
      replace (isZero zero) with true by (symmetry; now apply isZero_true).
      reflexivity.
    + rewrite (Rltb_intro_true (Rabs (vy d))) by lra.
      destruct (Rltb (hh1 + hh2 - Rabs (vy d)) (hw1 + hw2 - Rabs (vx d)));
        cbn [Shape.collideLoop];
        apply overlap_of_nonzero, mtv_nonzero;
        solve [apply X_AXIS_nonzero | apply Y_AXIS_nonzero | lra].
Qed.

Lemma newAABB_symmetric c w h :
  symmetricBox (Shape.newAxisAlignedBoundingBoxCollider c w h)
               (Rabs w / 2) (Rabs h / 2).
Proof.
  pose proof (Rabs_pos w). pose proof (Rabs_pos h).
  split; [lra |]. split; [lra |]. exists w, h.
  apply newAABB_facts.
Qed.

(** A circle against a point: the only axis is the one through the two
    centres. *)
Lemma project_on_own_axis d :
  mag (project d (Shape.replaceZeroAxis d)) = mag d.
Proof.
  unfold Shape.replaceZeroAxis. destruct (isZero d) eqn:E.
  - apply isZero_true in E. subst d. now rewrite project_zero_l.
  - apply isZero_false in E. rewrite project_parallel; [reflexivity | assumption |].
    unfold cross. ring.
Qed.

Lemma collide_circle_point a b radius r :
  ext a = CircleCollider radius r -> ext b = PointCollider ->
  let d := sub (Shape.center b) (Shape.center a) in
  Shape.collide a b
  = if Rleb (r - mag d) 0 then Some zero
    else Some (setMag (Shape.directionOnAxis d (Shape.replaceZeroAxis d))
                      (- (r - mag d))).
Proof.
  intros Ea Eb d.
  unfold Shape.collide, Shape._getCandidateAxesForShapes,
    Shape._getCandidateAxes.
  rewrite Ea, Eb.
  replace (Shape.isBox b) with false by (unfold Shape.isBox; now rewrite Eb).
  fold d. cbn [app map Shape.deduplicateParallelVectors existsb Shape.collideLoop].
  unfold Shape.overlapOnAxis, Shape._getRadiusOnAxis. rewrite Ea, Eb.
  rewrite project_on_own_axis.
  replace (r + 0 - mag d) with (r - mag d) by ring.
  destruct (Rleb (r - mag d) 0); reflexivity.
Qed.

End BoxFacts.

Import BoxFacts.

(** X9.  Two axis-aligned boxes as their constructor makes them overlap
    exactly when their centres are closer than the sum of the half widths
    along x and closer than the sum of the half heights along y. *)
Theorem aabb_overlap_iff_close_on_both_axes
        (c1 c2 : Vec) (w1 h1 w2 h2 : R) :
  Shape.overlap (Shape.newAxisAlignedBoundingBoxCollider c1 w1 h1)
                (Shape.newAxisAlignedBoundingBoxCollider c2 w2 h2)
  = Some (Rltb (Rabs (vx c2 - vx c1)) ((Rabs w1 + Rabs w2) / 2)
          && Rltb (Rabs (vy c2 - vy c1)) ((Rabs h1 + Rabs h2) / 2)).
Proof.
  rewrite (overlap_symmetric_boxes _ _ _ _ _ _
             (newAABB_symmetric c1 w1 h1) (newAABB_symmetric c2 w2 h2)).
  rewrite (proj1 (newAABB_facts c1 w1 h1)), (proj1 (newAABB_facts c2 w2 h2)).
  cbn [Vector.sub vx vy].
  replace (Rabs w1 / 2 + Rabs w2 / 2) with ((Rabs w1 + Rabs w2) / 2) by field.
  replace (Rabs h1 / 2 + Rabs h2 / 2) with ((Rabs h1 + Rabs h2) / 2) by field.
  reflexivity.
Qed.

(** X10.  A circle collider overlaps a point collider exactly when the
    point is closer to the centre of the circle than the scaled radius. *)
Theorem circle_overlaps_point_iff_inside
        (a b : CollisionShape) (radius r : R) :
  ext a = CircleCollider radius r -> ext b = PointCollider ->
  Shape.overlap a b
  = Some (Rltb (Vector.mag (Vector.sub (Shape.center b) (Shape.center a))) r).
Proof.
  intros Ea Eb. unfold Shape.overlap.
  rewrite (collide_circle_point a b radius r Ea Eb).
  set (d := Vector.sub (Shape.center b) (Shape.center a)).
  destruct (Rleb (r - Vector.mag d) 0) eqn:E; rbool.
  - rewrite Rltb_intro_false by lra.
    replace (isZero zero) with true by (symmetry; now apply isZero_true).
    reflexivity.
  - rewrite Rltb_intro_true by lra.
    apply overlap_of_nonzero, mtv_nonzero; [| lra].
    apply replaceZeroAxis_nonzero.
Qed.

Lemma circle_overlaps_point_witness :
  Shape.overlap circleA (Shape.newPointCollider (mkVec 3 4))
  = Some (Rltb (Vector.mag
                  (Vector.sub (Shape.center (Shape.newPointCollider (mkVec 3 4)))
                              (Shape.center circleA)))
               (Rabs 5)).
Proof.
  apply (circle_overlaps_point_iff_inside circleA _ 5).
  - exact (proj1 (proj2 (newCircleCollider_facts (mkVec 0 0) 5))).
  - reflexivity.
Defined.

(** X11.  The bounding box of a box collider holds the four corners of the
    box: the centre plus or minus either half diagonal. *)
Theorem bounding_box_holds_the_corners (s : CollisionShape) (hd p : Vec) :
  Shape.isBox s = true ->
  hd = fst (Shape.halfDiagonals s) \/ hd = snd (Shape.halfDiagonals s) ->
  p = Vector.add (Shape.center s) hd \/ p = Vector.sub (Shape.center s) hd ->
  let box := Shape.getBoundingBox s in
  Shape.left box <= vx p <= Shape.right box
  /\ Shape.top box <= vy p <= Shape.bottom box.
Proof.
  intros Hbox Hhd Hp box.
  assert (Hr : exists hd0 hd1,
             Shape.halfDiagonals s = (hd0, hd1)
             /\ Shape._getRadiusOnAxis s Shape.X_AXIS
                = Rmax (Rabs (vx hd0)) (Rabs (vx hd1))
             /\ Shape._getRadiusOnAxis s Shape.Y_AXIS
                = Rmax (Rabs (vy hd0)) (Rabs (vy hd1))).
  { unfold Shape.isBox in Hbox.
    unfold Shape.halfDiagonals, Shape._getRadiusOnAxis, Shape.X_AXIS,
      Shape.Y_AXIS.
    destruct (ext s) as [| ? ? | w h hd0 hd1 | w h hd0 hd1 ax0 ax1];
      try discriminate; exists hd0, hd1;
      rewrite !proj_len_x, !proj_len_y by lra; auto. }
  destruct Hr as (hd0 & hd1 & Ehd & Rx & Ry).
  subst box. unfold Shape.getBoundingBox. cbn [Shape.left Shape.right Shape.top Shape.bottom].
  rewrite Rx, Ry. rewrite Ehd in Hhd. cbn [fst snd] in Hhd.
  pose proof (Rmax_l (Rabs (vx hd0)) (Rabs (vx hd1))).
  pose proof (Rmax_r (Rabs (vx hd0)) (Rabs (vx hd1))).
  pose proof (Rmax_l (Rabs (vy hd0)) (Rabs (vy hd1))).
  pose proof (Rmax_r (Rabs (vy hd0)) (Rabs (vy hd1))).
  pose proof (Rle_abs (vx hd)). pose proof (Rle_abs (- vx hd)).
  pose proof (Rle_abs (vy hd)). pose proof (Rle_abs (- vy hd)).
  rewrite Rabs_Ropp in *.
  destruct Hhd; subst hd; destruct Hp; subst p; cbn [Vector.add Vector.sub vx vy];
    lra.
Qed.

Lemma bounding_box_witness :
  let s := Shape.newAxisAlignedBoundingBoxCollider (mkVec 1 2) 4 6 in
  let box := Shape.getBoundingBox s in
  let p := Vector.add (Shape.center s) (fst (Shape.halfDiagonals s)) in
  Shape.left box <= vx p <= Shape.right box
  /\ Shape.top box <= vy p <= Shape.bottom box.
Proof.
  intros s box p.
  apply (bounding_box_holds_the_corners s (fst (Shape.halfDiagonals s)) p).
  - reflexivity.
  - left; reflexivity.
  - left; reflexivity.
Defined.

(** ** Speed and direction of a sprite *)

Module MotionFacts.

Import SpriteOps SpriteMotion AngleFacts.

Lemma atan2_scale k y x : 0 < k -> atan2 (k * y) (k * x) = atan2 y x.
Proof.
  intros Hk. unfold atan2.
  assert (Hq : x <> 0 -> k * y / (k * x) = y / x) by (intros; field; lra).
  destruct (Rtotal_order x 0) as [Hx | [Hx | Hx]].
  - assert (k * x < 0) by nra.
    rewrite (Rltb_intro_false 0 (k * x)), (Rltb_intro_true (k * x) 0),
      (Rltb_intro_false 0 x), (Rltb_intro_true x 0), Hq by lra.
    destruct (Rleb 0 y) eqn:Ey; rbool.
    + rewrite Rleb_intro_true; [reflexivity | nra].
    + rewrite Rleb_intro_false; [reflexivity | nra].
  - subst x. rewrite Rmult_0_r, (Rltb_intro_false 0 0) by lra.
    destruct (Rltb 0 y) eqn:Ey; rbool.
    + rewrite Rltb_intro_true; [reflexivity | nra].
    + rewrite (Rltb_intro_false 0 (k * y)) by nra.
      destruct (Rltb y 0) eqn:Ey'; rbool.
      * rewrite Rltb_intro_true; [reflexivity | nra].
      * rewrite Rltb_intro_false; [reflexivity | nra].
  - assert (0 < k * x) by nra.
    rewrite (Rltb_intro_true 0 (k * x)), (Rltb_intro_true 0 x), Hq by lra.
    reflexivity.
Qed.

Lemma mag_polar a speed :
  Vector.mag (mkVec (cos a * speed) (sin a * speed)) = Rabs speed.
Proof.
  unfold Vector.mag, Vector.magSq; simpl.
  replace (cos a * speed * (cos a * speed) + sin a * speed * (sin a * speed))
    with (speed² * ((sin a)² + (cos a)²)) by (unfold Rsqr; ring).
  rewrite sin2_cos2, Rmult_1_r. apply sqrt_Rsqr_abs.
Qed.

Lemma radians_degrees a : radians (degrees a) = a.
Proof. unfold radians, degrees. field. apply PI_neq0. Qed.

Lemma degrees_radians a : degrees (radians a) = a.
Proof. unfold radians, degrees. field. apply PI_neq0. Qed.

(** The unit vector that [cos] and [sin] of [atan2] make. *)
Lemma polar_of_atan2 d m :
  d <> Vector.zero ->
  mkVec (cos (atan2 (vy d) (vx d)) * m) (sin (atan2 (vy d) (vx d)) * m)
  = Vector.mult d (m / Vector.mag d).
Proof.
  intros Hd. pose proof (mag_pos d Hd) as Hm.
  destruct d as [x y]. cbn [vx vy].
  destruct (cos_sin_atan2 x y Hd) as [Hc Hs].
  rewrite Hc, Hs. unfold Vector.mult, Vector.mag, Vector.magSq in *.
  cbn [vx vy] in *. f_equal; field; lra.
Qed.

Lemma moving_test v :
  negb (Reqb (vx v) 0) || negb (Reqb (vy v) 0) = negb (Vector.isZero v).
Proof.
  unfold Vector.isZero. destruct (Reqb (vx v) 0), (Reqb (vy v) 0); reflexivity.
Qed.

End MotionFacts.

Import SpriteMotion MotionFacts.

(** X12.  For a limit that is not negative [limitSpeed] leaves a sprite
    whose speed is the smaller of its old speed and the limit, moving in the
    direction it had; nothing else of the sprite changes. *)
Theorem limitSpeed_caps_the_speed (max : R) (s : Sprite) :
  0 <= max ->
  exists k,
    0 <= k <= 1
    /\ limitSpeed max s = Done (SpriteOps.setVelocity
                                  (Vector.mult (velocity s) k) s)
    /\ getSpeed (SpriteOps.setVelocity (Vector.mult (velocity s) k) s)
       = Rmin (getSpeed s) max.
Proof.
  intros Hmax. unfold limitSpeed, getSpeed.
  pose proof (mag_nonneg (velocity s)) as Hm.
  rewrite (Rabs_pos_eq _ Hm).
  destruct (Rltb max (Vector.mag (velocity s))) eqn:E; rbool.
  - exists (max / Vector.mag (velocity s)).
    assert (Hpos : 0 < Vector.mag (velocity s)) by lra.
    rewrite Reqb_intro_false by lra.
    split.
    + split.
      * apply Rmult_le_pos; [assumption |].
        left. now apply Rinv_0_lt_compat.
      * apply (Rmult_le_reg_r (Vector.mag (velocity s))); [assumption |].
        replace (max / Vector.mag (velocity s) * Vector.mag (velocity s))
          with max by (field; lra).
        lra.
    + split; [reflexivity |].
      cbn [velocity SpriteOps.setVelocity].
      rewrite mag_mult, Rabs_pos_eq.
      * rewrite Rmin_right by lra. field. lra.
      * apply Rmult_le_pos; [assumption |].
        left. now apply Rinv_0_lt_compat.
  - exists 1. split; [lra |].
    assert (Hv : Vector.mult (velocity s) 1 = velocity s)
      by (apply vec_eq; simpl; ring).
    rewrite Hv. split.
    + f_equal. now destruct s.
    + cbn [velocity SpriteOps.setVelocity]. rewrite Rmin_left; lra.
Qed.

Lemma limitSpeed_witness :
  exists k,
    0 <= k <= 1
    /\ limitSpeed 5 bullet0
       = Done (SpriteOps.setVelocity (Vector.mult (velocity bullet0) k)
                                     bullet0)
    /\ getSpeed (SpriteOps.setVelocity (Vector.mult (velocity bullet0) k)
                                       bullet0)
       = Rmin (getSpeed bullet0) 5.
Proof.
  apply (limitSpeed_caps_the_speed 5 bullet0). lra.
Defined.

(** X13.  After [setSpeed(speed, angle)] with a positive speed and an angle
    between -180 and 180 degrees, [getSpeed] returns that speed and
    [getDirection] that angle. *)
Theorem setSpeed_then_getSpeed_and_getDirection
        (speed angle : R) (s : Sprite) :
  0 < speed -> -180 < angle <= 180 ->
  getSpeed (setSpeed speed (Some angle) s) = speed
  /\ SpriteOps.getDirection (setSpeed speed (Some angle) s) = angle.
Proof.
  intros Hs Ha. unfold getSpeed, SpriteOps.getDirection, setSpeed.
  cbn [velocity SpriteOps.setVelocity vx vy].
  split.
  - rewrite mag_polar. apply Rabs_pos_eq. lra.
  - rewrite (Rmult_comm (sin _)), (Rmult_comm (cos _)).
    rewrite atan2_scale by assumption.
    rewrite AngleFacts.atan2_polar.
    + apply degrees_radians.
    + unfold SpriteOps.radians. pose proof PI_RGT_0.
      split.
      * apply (Rmult_lt_reg_r (180 / PI)).
        -- apply Rdiv_lt_0_compat; lra.
        -- replace (angle * PI / 180 * (180 / PI)) with angle by (field; lra).
           replace (- PI * (180 / PI)) with (-180) by (field; lra).
           lra.
      * apply (Rmult_le_reg_r (180 / PI)).
        -- apply Rdiv_lt_0_compat; lra.
        -- replace (angle * PI / 180 * (180 / PI)) with angle by (field; lra).
           replace (PI * (180 / PI)) with 180 by (field; lra).
           lra.
Qed.

Lemma setSpeed_witness :
  getSpeed (setSpeed 3 (Some 90) bullet0) = 3
  /\ SpriteOps.getDirection (setSpeed 3 (Some 90) bullet0) = 90.
Proof.
  apply setSpeed_then_getSpeed_and_getDirection; lra.
Defined.

(** X14.  [setSpeed(speed)] without an angle on a moving sprite rescales
    the velocity and keeps its line: the new velocity is the old one times
    [speed / getSpeed()]. *)
Theorem setSpeed_keeps_the_direction (speed : R) (s : Sprite) :
  velocity s <> Vector.zero ->
  velocity (setSpeed speed None s)
  = Vector.mult (velocity s) (speed / getSpeed s).
Proof.
  intros Hv. unfold setSpeed, getSpeed.
  rewrite moving_test. apply isZero_false in Hv as Hz. rewrite Hz.
  cbn [negb velocity SpriteOps.setVelocity].
  now apply polar_of_atan2.
Qed.

Lemma setSpeed_keeps_direction_witness :
  velocity (setSpeed 7 None bullet0)
  = Vector.mult (velocity bullet0) (7 / getSpeed bullet0).
Proof.
  apply setSpeed_keeps_the_direction.
  intros E. inversion E. lra.
Defined.

(** X15.  [attractionPoint] adds to the velocity a vector of the given
    magnitude along the line from the sprite to the point, when the point is
    not the position of the sprite. *)
Theorem attractionPoint_pushes_toward_the_point
        (magnitude pointX pointY : R) (s : Sprite) :
  mkVec pointX pointY <> position s ->
  let d := Vector.sub (mkVec pointX pointY) (position s) in
  velocity (attractionPoint magnitude pointX pointY s)
  = Vector.add (velocity s) (Vector.mult d (magnitude / Vector.mag d)).
Proof.
  intros Hp d.
  assert (Hd : d <> Vector.zero).
  { intros E. apply Hp. inversion E as [[E1 E2]].
    apply vec_eq; simpl in *; lra. }
  unfold attractionPoint. cbn [velocity SpriteOps.setVelocity].
  change (pointY - vy (position s)) with (vy d).
  change (pointX - vx (position s)) with (vx d).
  rewrite <- (polar_of_atan2 d magnitude Hd).
  reflexivity.
Qed.

Lemma attractionPoint_witness :
  let d := Vector.sub (mkVec 3 4) (position bullet0) in
  velocity (attractionPoint 2 3 4 bullet0)
  = Vector.add (velocity bullet0) (Vector.mult d (2 / Vector.mag d)).
Proof.
  apply attractionPoint_pushes_toward_the_point.
  intros E. inversion E. lra.
Defined.

(** X16.  A sprite at rest that is pointed to a point other than its
    position and then given a speed without an angle moves along the line
    to that point. *)
Theorem pointTo_then_setSpeed_heads_for_the_point
        (x y speed : R) (s : Sprite) :
  velocity s = Vector.zero ->
  mkVec x y <> position s ->
  let d := Vector.sub (mkVec x y) (position s) in
  velocity (setSpeed speed None (pointTo x y s))
  = Vector.mult d (speed / Vector.mag d).
Proof.
  intros Hv Hp d.
  assert (Hd : d <> Vector.zero).
  { intros E. apply Hp. inversion E as [[E1 E2]].
    apply vec_eq; simpl in *; lra. }
  unfold pointTo.
  change (y - vy (position s)) with (vy d).
  change (x - vx (position s)) with (vx d).
  rewrite moving_test. apply isZero_false in Hd as Hz. rewrite Hz.
  cbn [negb]. unfold setSpeed.
  cbn [velocity rotation setRotation SpriteOps.setVelocity].
  rewrite Hv. cbn [vx vy Vector.zero]. rewrite Reqb_refl. cbn [negb orb].
  replace (SpriteOps.radians (360 * atan2 (vy d) (vx d) / (2 * PI)))
    with (atan2 (vy d) (vx d))
    by (unfold SpriteOps.radians; field; apply PI_neq0).
  now apply polar_of_atan2.
Qed.

Lemma pointTo_witness :
  let d := Vector.sub (mkVec 3 4) (position wall0) in
  velocity (setSpeed 2 None (pointTo 3 4 wall0))
  = Vector.mult d (2 / Vector.mag d).
Proof.
  apply pointTo_then_setSpeed_heads_for_the_point.
  - reflexivity.
  - intros E. inversion E. lra.
Defined.

(** ** A point against the default collider of a sprite *)

Module PointFacts.

Import Vector VectorFacts ShapeFacts CircleFacts MtvFacts SeparationFacts
       SpriteOps Resolver.

(** The test on the two axes [(kx, 0)] and [(0, ky)]. *)
Lemma overlap_on_two_axes a b kx ky rx ry :
  0 < kx -> 0 < ky ->
  Shape._getCandidateAxesForShapes a b = [mkVec kx 0; mkVec 0 ky] ->
  Shape._getRadiusOnAxis a (mkVec kx 0) + Shape._getRadiusOnAxis b (mkVec kx 0)
  = rx ->
  Shape._getRadiusOnAxis a (mkVec 0 ky) + Shape._getRadiusOnAxis b (mkVec 0 ky)
  = ry ->
  let d := sub (Shape.center b) (Shape.center a) in
  Shape.overlap a b
  = Some (Rltb (Rabs (vx d)) rx && Rltb (Rabs (vy d)) ry).
Proof.
  intros Hkx Hky Haxes Hrx Hry d.
  assert (Hx : mkVec kx 0 <> zero) by (intros E; inversion E; lra).
  assert (Hy : mkVec 0 ky <> zero) by (intros E; inversion E; lra).
  unfold Shape.overlap, Shape.collide. rewrite Haxes. fold d.
  cbn [Shape.collideLoop]. unfold Shape.overlapOnAxis.
  rewrite Hrx, Hry, !proj_len_x, !proj_len_y by assumption.
  destruct (Rleb (rx - Rabs (vx d)) 0) eqn:Ex; rbool.
  - rewrite Rltb_intro_false by lra. simpl.
    replace (isZero zero) with true by (symmetry; now apply isZero_true).
    reflexivity.
  - rewrite (Rltb_intro_true (Rabs (vx d))) by lra. cbn [Shape.isSmaller andb].
    destruct (Rleb (ry - Rabs (vy d)) 0) eqn:Ey; rbool.
    + rewrite Rltb_intro_false by lra.
      replace (isZero zero) with true by (symmetry; now apply isZero_true).
      reflexivity.
    + rewrite (Rltb_intro_true (Rabs (vy d))) by lra.
      destruct (Rltb (ry - Rabs (vy d)) (rx - Rabs (vx d)));
        cbn [Shape.collideLoop];
        apply BoxFacts.overlap_of_nonzero, mtv_nonzero; assumption || lra.
Qed.

Lemma newPointCollider_facts c :
  Shape.center (Shape.newPointCollider c) = c
  /\ ext (Shape.newPointCollider c) = PointCollider.
Proof.
  unfold Shape.newPointCollider, Shape.construct. rewrite Reqb_refl.
  split; [| reflexivity].
  unfold Shape.center, Shape._onTransformChanged; simpl.
  apply vec_eq; simpl; ring.
Qed.

Lemma new_box_fields w h :
  _localTransform (Shape.newOrientedBoundingBoxCollider zero w h 0)
  = Transform.translateV zero Transform.identity
  /\ exists hd0 hd1 ax0 ax1,
       ext (Shape.newOrientedBoundingBoxCollider zero w h 0)
       = OrientedBoundingBoxCollider w h hd0 hd1 ax0 ax1.
Proof.
  unfold Shape.newOrientedBoundingBoxCollider, Shape.construct.
  rewrite Reqb_refl. unfold Shape._onTransformChanged.
  cbn [_localTransform _parentTransform ext].
  split; [reflexivity |].
  cbv beta iota zeta delta [Shape.corners]. eauto.
Qed.

(** The box that [setDefaultCollider] gives a sprite without animation,
    rotation or scaling. *)
Lemma default_collider_facts s :
  plainSprite s -> animation s = None ->
  let c := createOBBFromSprite s zero None 0 in
  let w := _internalWidth s in
  let h := _internalHeight s in
  Shape.center c = position s
  /\ ext c = OrientedBoundingBoxCollider w h
               (mkVec (w / 2) (- h / 2)) (mkVec (w / 2) (h / 2))
               (mkVec w 0) (mkVec 0 h).
Proof.
  intros Hs Ha c w h. subst c.
  destruct (new_box_fields 1 1) as (Hl & hd0 & hd1 & ax0 & ax1 & He).
  unfold createOBBFromSprite.
  destruct (Shape.newOrientedBoundingBoxCollider zero 1 1 0)
    as [l p c o sc g e].
  cbn [_localTransform ext] in Hl, He. subst l e.
  unfold updateFromSprite, withGetsDimensions.
  cbn [getsDimensionsFromSprite ext _localTransform _parentTransform _center
       _offset _scale].
  unfold adoptedSize, SpriteOps.width, SpriteOps.height. rewrite Ha. fold w h.
  unfold setParentTransformFromSprite.
  rewrite (CircleSprites.parentTransformOf_plain _ s Hs).
  unfold Shape.setParentTransform, Shape._onTransformChanged, withExt,
    Shape.center.
  cbn [_localTransform _parentTransform _center ext _offset _scale
       getsDimensionsFromSprite].
  cbv beta iota zeta delta [Shape.corners].
  split.
  - apply vec_eq; simpl; ring.
  - f_equal; apply vec_eq; simpl; field.
Qed.

End PointFacts.

Import PointFacts.

(** X18.  For a sprite without collider, animation, rotation or scaling
    whose placeholder is at least [1e-14] wide and high, [overlapPoint]
    gives it its default collider and answers whether the point lies
    strictly inside the rectangle of the sprite's size centred at its
    position. *)
Theorem overlapPoint_tests_the_sprite_rectangle (x y : R) (s : Sprite) :
  plainSprite s -> animation s = None -> collider s = None ->
  Vector.default_tolerance <= _internalWidth s ->
  Vector.default_tolerance <= _internalHeight s ->
  overlapPoint x y s
  = Done (Rltb (Rabs (x - vx (position s))) (_internalWidth s / 2)
          && Rltb (Rabs (y - vy (position s))) (_internalHeight s / 2),
          SpriteOps.setDefaultCollider s).
Proof.
  intros Hs Ha Hc Hw Hh. pose proof tol_small as Ht.
  destruct (default_collider_facts s Hs Ha) as [Hcen Hext].
  destruct (newPointCollider_facts (mkVec x y)) as [Pcen Pext].
  set (w := _internalWidth s) in *. set (h := _internalHeight s) in *.
  unfold overlapPoint, Resolver.withDefaultCollider. rewrite Hc.
  unfold SpriteOps.setDefaultCollider, SpriteOps.animationStillLoading.
  rewrite Ha. cbn [collider SpriteOps.setColliders].
  set (c := SpriteOps.createOBBFromSprite s Vector.zero None 0) in *.
  set (p := Shape.newPointCollider (mkVec x y)) in *.
  assert (Haxes : Shape._getCandidateAxesForShapes c p
                  = [mkVec w 0; mkVec 0 h]).
  { unfold Shape._getCandidateAxesForShapes, Shape._getCandidateAxes.
    rewrite Hext, Pext. cbn [app map].
    rewrite !replaceZeroAxis_nonzero_id
      by (intros E; inversion E; lra).
    cbn [Shape.deduplicateParallelVectors existsb].
    rewrite isParallel_false_intro; [reflexivity | ..]; simpl.
    - left. rewrite Rabs_pos_eq; lra.
    - right. rewrite Rabs_pos_eq; lra.
    - left. reflexivity. }
  assert (Hrx : Shape._getRadiusOnAxis c (mkVec w 0)
                + Shape._getRadiusOnAxis p (mkVec w 0) = w / 2).
  { unfold Shape._getRadiusOnAxis. rewrite Hext, Pext.
    rewrite !proj_len_x by lra. simpl.
    rewrite Rabs_pos_eq, Rmax_left by lra. ring. }
  assert (Hry : Shape._getRadiusOnAxis c (mkVec 0 h)
                + Shape._getRadiusOnAxis p (mkVec 0 h) = h / 2).
  { unfold Shape._getRadiusOnAxis. rewrite Hext, Pext.
    rewrite !proj_len_y by lra. simpl.
    rewrite (Rabs_left (- h / 2)), (Rabs_pos_eq (h / 2)), Rmax_right by lra.
    ring. }
  rewrite (overlap_on_two_axes c p w h (w / 2) (h / 2));
    try assumption; try lra.
  rewrite Hcen, Pcen. reflexivity.
Qed.

Lemma overlapPoint_witness :
  overlapPoint 10 20 (createSprite 0 0)
  = Done (Rltb (Rabs (10 - vx (position (createSprite 0 0))))
               (_internalWidth (createSprite 0 0) / 2)
          && Rltb (Rabs (20 - vy (position (createSprite 0 0))))
                  (_internalHeight (createSprite 0 0) / 2),
          SpriteOps.setDefaultCollider (createSprite 0 0)).
Proof.
  pose proof tol_small as Ht.
  apply overlapPoint_tests_the_sprite_rectangle.
  - repeat split; reflexivity.
  - reflexivity.
  - reflexivity.
  - simpl. lra.
  - simpl. lra.
Defined.

(** ** The collision response *)

Module ResolveFacts.

Import SpriteOps Resolver ResolverFacts ResponseFacts.

Lemma withDefaultCollider_keeps s :
  dynamics (withDefaultCollider s) = dynamics s
  /\ touching (withDefaultCollider s) = touching s.
Proof.
  unfold withDefaultCollider, setDefaultCollider, dynamics.
  destruct (collider s); [tauto |].
  destruct (animationStillLoading s); simpl; tauto.
Qed.

Lemma body_touching s s' : body s' = body s -> touching s' = touching s.
Proof. unfold body. intros H. now inversion H. Qed.

Lemma displaceOut_touching type d this other this' other' :
  displaceOut type d this other = Done (this', other') ->
  touching this' = touching this.
Proof.
  unfold displaceOut. intros H.
  destruct (CollisionType_eqb type displace && negb (immovable other)).
  - now inversion H.
  - destruct (movesCaller type && negb (immovable this)).
    + bind_inv H. inversion H; subst.
      apply refreshCollider_frame in E. destruct E as [E _].
      now apply body_touching in E.
    + now inversion H.
Qed.

Lemma velocityResponse_touching type d this other this' other' :
  velocityResponse type d this other = Done (this', other') ->
  touching this' = touching this.
Proof.
  unfold velocityResponse. intros H.
  destruct type; try (now inversion H);
    bind_inv H; now inversion H.
Qed.

(** What a test of one candidate that found a collision went through. *)
Lemma collideWithOther_true_inv fuel type thisRef otherRef this other callback
      log this' other' log' :
  collideWithOther fuel type thisRef otherRef this other callback log
  = Done (true, this', other', log') ->
  exists n a1 b1,
    n <> Vector.zero
    /\ dynamics a1 = dynamics this /\ dynamics b1 = dynamics other
    /\ touching a1 = touchingAfter n (touching this)
    /\ velocityResponse type n a1 b1 = Done (this', other').
Proof.
  intros H. unfold collideWithOther in H.
  destruct (removed other); [discriminate |].
  destruct (withDefaultCollider_keeps this) as [Da Ta].
  destruct (withDefaultCollider_keeps other) as [Db _].
  destruct (collider (withDefaultCollider this)); [| discriminate].
  destruct (collider (withDefaultCollider other)); [| discriminate].
  bind_step H. destruct a as [[n a] b].
  destruct (Vector.isZero n) eqn:En; [discriminate |].
  apply isZero_false in En.
  bind_step H. destruct a0 as [a1 b1]. bind_step H. destruct a0 as [a2 b2].
  inversion H; subst this' other' log'. clear H.
  apply findDisplacement_frame in E. destruct E as [Fa Fb].
  apply displaceOut_dynamics in E0 as Hd. destruct Hd as [Ga Gb].
  apply displaceOut_touching in E0.
  exists n, a1, b1. cbn [fst snd] in E1.
  split; [exact En |].
  split.
  { rewrite Ga, <- Da. unfold dynamics.
    cbn [velocity mass immovable restitution setTouching].
    apply body_dynamics in Fa. exact Fa. }
  split.
  { rewrite Gb, <- Db. now apply body_dynamics. }
  split.
  { rewrite E0. cbn [touching setTouching]. f_equal.
    rewrite <- Ta. now apply body_touching. }
  exact E1.
Qed.

(** What a test that found no collision leaves of the caller's flags and
    of the two sprites' dynamic attributes. *)
Lemma collideWithOther_false_inv fuel type thisRef otherRef this other callback
      log this' other' log' :
  collideWithOther fuel type thisRef otherRef this other callback log
  = Done (false, this', other', log') ->
  dynamics this' = dynamics this /\ dynamics other' = dynamics other
  /\ touching this' = touching this.
Proof.
  intros H. unfold collideWithOther in H.
  destruct (removed other); [inversion H; subst; auto |].
  destruct (withDefaultCollider_keeps this) as [Da Ta].
  destruct (withDefaultCollider_keeps other) as [Db _].
  destruct (collider (withDefaultCollider this));
    [| inversion H; subst; auto].
  destruct (collider (withDefaultCollider other));
    [| inversion H; subst; auto].
  bind_inv H. destruct a as [[n a] b].
  destruct (Vector.isZero n) eqn:En.
  - inversion H; subst. apply findDisplacement_frame in E.
    destruct E as [Fa Fb].
    rewrite <- Da, <- Db, <- Ta.
    split; [now apply body_dynamics |].
    split; [now apply body_dynamics | now apply body_touching].
  - repeat (bind_inv H); discriminate.
Qed.

(** The two velocities after a bounce. *)
Lemma bounce_restitution n this other oi ore v1 v2 :
  n <> Vector.zero ->
  (immovable this = false -> oi = false -> mass this + mass other <> 0) ->
  bounceVelocities n this other oi ore = Done (v1, v2) ->
  Vector.project (Vector.sub v1 v2) n
  = Vector.mult (Vector.project (Vector.sub (velocity this) (velocity other)) n)
                (- (restitution this * ore)).
Proof.
  intros Hn Hmass H. unfold bounceVelocities in H.
  set (m1 := if immovable this then 1 else if oi then 0 else mass this) in *.
  set (m2 := if immovable this then 0 else if oi then 1 else mass other) in *.
  assert (E : m1 + m2 <> 0).
  { unfold m1, m2. destruct (immovable this); [lra |].
    destruct oi; [lra | now apply Hmass]. }
  unfold Vector.div in H. rewrite !(Reqb_intro_false _ _ E) in H.
  inversion H; subst v1 v2. clear H.
  pose proof (magSq_pos n Hn) as Hm. unfold Vector.magSq in Hm.
  clearbody m1 m2.
  destruct (velocity this) as [a1 a2], (velocity other) as [b1 b2],
    n as [n1 n2].
  cbn [vx vy] in Hm.
  apply vec_eq; unfold Vector.project, Vector.dot, Vector.mult, Vector.add,
    Vector.sub; cbn [vx vy]; field; lra.
Qed.

Lemma bounce_momentum n this other v1 v2 :
  immovable this = false ->
  mass this + mass other <> 0 ->
  bounceVelocities n this other false (restitution other) = Done (v1, v2) ->
  Vector.add (Vector.mult v1 (mass this)) (Vector.mult v2 (mass other))
  = Vector.add (Vector.mult (velocity this) (mass this))
               (Vector.mult (velocity other) (mass other)).
Proof.
  intros Hi E H. unfold bounceVelocities, Vector.div in H. rewrite Hi in H.
  rewrite !(Reqb_intro_false _ _ E) in H.
  set (p := Vector.project (velocity this) n) in H.
  set (q := Vector.project (velocity other) n) in H. clearbody p q.
  injection H as <- <-.
  apply vec_eq; unfold Vector.dot, Vector.mult, Vector.add, Vector.sub;
    simpl; field; lra.
Qed.


End ResolveFacts.

Import ResolveFacts.

(** X19.  When [collide], [bounce] or [bounceOff] finds a collision, the
    velocity of the caller relative to the other sprite, taken along the
    displacement that [_findDisplacement] returned for the pair, is
    reversed and multiplied by the coefficient of restitution: the product
    of the two restitutions, or zero for [collide].  For a [bounce] between
    two sprites that can both move the masses must not add up to zero. *)
Theorem relative_velocity_follows_restitution
        (fuel : nat) (type : CollisionType) (thisRef otherRef : nat)
        (this other : Sprite) (callback : bool) (log : Resolver.CallLog)
        (this' other' : Sprite) (log' : Resolver.CallLog) :
  Resolver.movesCaller type = true ->
  (type = bounce -> immovable this = false -> immovable other = false ->
   mass this + mass other <> 0) ->
  Resolver.collideWithOther fuel type thisRef otherRef this other callback log
  = Done (true, this', other', log') ->
  exists n a b,
    Resolver._findDisplacement fuel (Resolver.withDefaultCollider this)
                               (Resolver.withDefaultCollider other)
    = Done (n, a, b)
    /\ n <> Vector.zero
    /\ Vector.project (Vector.sub (velocity this') (velocity other')) n
       = Vector.mult
           (Vector.project (Vector.sub (velocity this) (velocity other)) n)
           (- coefficientOf type this other).
Proof.
  intros Ht Hmass H.
  destruct (collideWithOther_found _ _ _ _ _ _ _ _ _ _ _ H)
    as (n & a & b & a1 & b1 & Hf & Hn & Da & Db & Hv).
  destruct (dynamics_inv _ _ Da) as (Av & Am & Ai & Ar).
  destruct (dynamics_inv _ _ Db) as (Bv & Bm & Bi & Br).
  exists n, a, b. split; [exact Hf |]. split; [exact Hn |].
  unfold Resolver.velocityResponse in Hv.
  destruct type; try discriminate; bind_inv Hv; destruct a0 as [v1 v2];
    inversion Hv; subst this' other';
    cbn [velocity SpriteOps.setVelocity fst snd coefficientOf].
  - rewrite (bounce_restitution n a1 b1 true 0 v1 v2 Hn) by
      (intros; assumption || discriminate).
    rewrite Av, Bv, Ar. f_equal; ring.
  - rewrite (bounce_restitution n a1 b1 (immovable b1) (restitution b1)
               v1 v2 Hn) by
      (assumption || (rewrite Ai, Bi, Am, Bm; now apply Hmass)).
    now rewrite Av, Bv, Ar, Br.
  - rewrite (bounce_restitution n a1 b1 true (restitution b1) v1 v2 Hn) by
      (intros; assumption || discriminate).
    now rewrite Av, Bv, Ar, Br.
Qed.

(** The theorem on the first query of a sprite that was just created and
    set in motion. *)
Lemma relative_velocity_witness :
  exists this' other' log' n a b,
    Resolver.collideWithOther Resolver.maxSubSteps bounce 0 1 newcomer host
                              false []
    = Done (true, this', other', log')
    /\ Resolver._findDisplacement Resolver.maxSubSteps
         (Resolver.withDefaultCollider newcomer)
         (Resolver.withDefaultCollider host) = Done (n, a, b)
    /\ n <> Vector.zero
    /\ Vector.project (Vector.sub (velocity this') (velocity other')) n
       = Vector.mult
           (Vector.project (Vector.sub (velocity newcomer) (velocity host)) n)
           (- coefficientOf bounce newcomer host).
Proof.
  destruct (FirstQuery.first_query_resolves bounce 0 1 false [])
    as (a' & b' & log' & H).
  assert (Hm : bounce = bounce -> immovable newcomer = false ->
               immovable host = false -> mass newcomer + mass host <> 0).
  { intros _ _ _. change (mass newcomer) with 1. change (mass host) with 1.
    lra. }
  destruct (relative_velocity_follows_restitution
              Resolver.maxSubSteps bounce 0 1 newcomer host false [] a' b' log'
              eq_refl Hm H) as (n & a & b & Hf & Hn & Hp).
  exists a', b', log', n, a, b. auto.
Defined.

(** X20.  A [bounce] between two sprites that can both move and whose
    masses do not add up to zero keeps the total momentum: the sum of mass
    times velocity of the two sprites is the same before and after. *)
Theorem bounce_conserves_momentum
        (fuel : nat) (thisRef otherRef : nat)
        (this other : Sprite) (callback : bool) (log : Resolver.CallLog)
        (this' other' : Sprite) (log' : Resolver.CallLog) :
  immovable this = false -> immovable other = false ->
  mass this + mass other <> 0 ->
  Resolver.collideWithOther fuel bounce thisRef otherRef this other callback
                            log
  = Done (true, this', other', log') ->
  Vector.add (Vector.mult (velocity this') (mass this))
             (Vector.mult (velocity other') (mass other))
  = Vector.add (Vector.mult (velocity this) (mass this))
               (Vector.mult (velocity other) (mass other)).
Proof.
  intros Hi1 Hi2 Hmass H.
  destruct (collideWithOther_true_inv _ _ _ _ _ _ _ _ _ _ _ H)
    as (n & a1 & b1 & Hn & Da & Db & _ & Hv).
  destruct (dynamics_inv _ _ Da) as (Av & Am & Ai & Ar).
  destruct (dynamics_inv _ _ Db) as (Bv & Bm & Bi & Br).
  unfold Resolver.velocityResponse in Hv. rewrite Bi, Hi2 in Hv.
  bind_inv Hv. destruct a as [v1 v2]. inversion Hv; subst this' other'.
  cbn [velocity SpriteOps.setVelocity fst snd].
  rewrite <- Am, <- Bm, <- Av, <- Bv.
  apply (bounce_momentum n a1 b1 v1 v2);
    [congruence | now rewrite Am, Bm | exact E].
Qed.

Lemma bounce_momentum_witness :
  exists this' other' log',
    Resolver.collideWithOther Resolver.maxSubSteps bounce 0 1 newcomer host
                              false []
    = Done (true, this', other', log')
    /\ Vector.add (Vector.mult (velocity this') (mass newcomer))
               (Vector.mult (velocity other') (mass host))
    = Vector.add (Vector.mult (velocity newcomer) (mass newcomer))
                 (Vector.mult (velocity host) (mass host)).
Proof.
  destruct (FirstQuery.first_query_resolves bounce 0 1 false [])
    as (a' & b' & log' & H).
  assert (Hm : mass newcomer + mass host <> 0).
  { change (mass newcomer) with 1. change (mass host) with 1. lra. }
  exists a', b', log'. split; [exact H |].
  exact (bounce_conserves_momentum Resolver.maxSubSteps 0 1 newcomer host
           false [] a' b' log' eq_refl eq_refl Hm H).
Defined.



(** ** Queries on the sprites of the sketch *)

Module WorldFacts.

Import SpriteOps Resolver ResolverFacts ResponseFacts ResolveFacts.

Lemma store_eq ref s f : store ref s f ref = s.
Proof. unfold store. now rewrite Nat.eqb_refl. Qed.

Lemma store_neq ref s f r : r <> ref -> store ref s f r = f r.
Proof.
  intros H. unfold store. apply Nat.eqb_neq in H. now rewrite H.
Qed.

(** The two ways a test of one candidate ends. *)
Lemma collideWithOne_inv fuel type this other callback w r w' :
  _collideWithOne fuel type this other callback w = Done (r, w') ->
  (other = this /\ r = false /\ w' = w)
  \/ (other <> this
      /\ exists this' other' log',
           collideWithOther fuel type this other (sprites w this)
                            (sprites w other) callback (calls w)
           = Done (r, this', other', log')
           /\ w' = mkWorld (store other other' (store this this' (sprites w)))
                           log').
Proof.
  unfold _collideWithOne. intros H.
  destruct (Nat.eqb other this) eqn:En.
  - apply Nat.eqb_eq in En. inversion H; subst. now left.
  - apply Nat.eqb_neq in En. right. split; [exact En |].
    bind_inv H. destruct a as [[[res t'] o'] l']. inversion H; subst.
    eauto.
Qed.

(** Tests that are not bounces leave the dynamic attributes alone. *)
Lemma collideWithOther_quiet fuel type thisRef otherRef this other callback
      log r this' other' log' :
  movesCaller type = false ->
  collideWithOther fuel type thisRef otherRef this other callback log
  = Done (r, this', other', log') ->
  dynamics this' = dynamics this /\ dynamics other' = dynamics other.
Proof.
  intros Ht H. destruct r.
  - destruct (collideWithOther_true_inv _ _ _ _ _ _ _ _ _ _ _ H)
      as (n & a1 & b1 & _ & Da & Db & _ & Hv).
    unfold velocityResponse in Hv.
    destruct type; try discriminate; inversion Hv; subst; auto.
  - destruct (collideWithOther_false_inv _ _ _ _ _ _ _ _ _ _ _ H)
      as (Da & Db & _). auto.
Qed.

Lemma collideWithOne_quiet fuel type this other callback w r w' ref :
  movesCaller type = false ->
  _collideWithOne fuel type this other callback w = Done (r, w') ->
  dynamics (sprites w' ref) = dynamics (sprites w ref).
Proof.
  intros Ht H. apply collideWithOne_inv in H.
  destruct H as [(_ & _ & ->) | (Hne & t' & o' & l' & Hc & ->)];
    [reflexivity |].
  apply (collideWithOther_quiet _ _ _ _ _ _ _ _ _ _ _ _ Ht) in Hc.
  destruct Hc as [Da Db]. cbn [sprites].
  destruct (Nat.eq_dec ref other) as [-> | H1].
  - now rewrite store_eq.
  - rewrite store_neq by assumption.
    destruct (Nat.eq_dec ref this) as [-> | H2].
    + now rewrite store_eq.
    + now rewrite store_neq.
Qed.

Lemma collideWithAll_quiet fuel type this callback ref :
  movesCaller type = false ->
  forall others r0 w r w',
    collideWithAll fuel type this others callback r0 w = Done (r, w') ->
    dynamics (sprites w' ref) = dynamics (sprites w ref).
Proof.
  intros Ht. induction others as [| other rest IH]; intros r0 w r w' H;
    simpl in H.
  - now inversion H.
  - bind_inv H. destruct a as [r1 w1]. cbn [fst snd] in H.
    rewrite (IH _ _ _ _ H).
    exact (collideWithOne_quiet _ _ _ _ _ _ _ _ _ Ht E).
Qed.

(** The flags of the caller and the answer. *)
Lemma anyFlag_touchingAfter n t :
  n <> Vector.zero -> anyFlag (touchingAfter n t) = true.
Proof.
  intros Hn. unfold anyFlag, touchingAfter. cbn [t_left t_right t_top t_bottom].
  destruct (Rltb 0 (vx n)) eqn:E1; [reflexivity |].
  destruct (Rltb (vx n) 0) eqn:E2; [now rewrite orb_true_r |].
  destruct (Rltb 0 (vy n)) eqn:E3; [now rewrite !orb_true_r |].
  destruct (Rltb (vy n) 0) eqn:E4; [now rewrite !orb_true_r |].
  rbool. exfalso. apply Hn. apply vec_eq; simpl; lra.
Qed.

Lemma collideWithOne_flags fuel type this other callback w r w' :
  _collideWithOne fuel type this other callback w = Done (r, w') ->
  anyFlag (touching (sprites w' this))
  = r || anyFlag (touching (sprites w this)).
Proof.
  intros H. apply collideWithOne_inv in H.
  destruct H as [(_ & -> & ->) | (Hne & t' & o' & l' & Hc & ->)];
    [reflexivity |].
  cbn [sprites]. rewrite store_neq by congruence. rewrite store_eq.
  destruct r.
  - destruct (collideWithOther_true_inv _ _ _ _ _ _ _ _ _ _ _ Hc)
      as (n & a1 & b1 & Hn & _ & _ & Ht & Hv).
    apply velocityResponse_touching in Hv. rewrite Hv, Ht.
    now rewrite anyFlag_touchingAfter.
  - destruct (collideWithOther_false_inv _ _ _ _ _ _ _ _ _ _ _ Hc)
      as (_ & _ & Ht).
    now rewrite Ht.
Qed.

Lemma collideWithAll_flags fuel type this callback :
  forall others r0 w r w',
    collideWithAll fuel type this others callback r0 w = Done (r, w') ->
    anyFlag (touching (sprites w this)) = r0 ->
    anyFlag (touching (sprites w' this)) = r.
Proof.
  induction others as [| other rest IH]; intros r0 w r w' H H0; simpl in H.
  - inversion H; subst. reflexivity.
  - bind_inv H. destruct a as [r1 w1]. cbn [fst snd] in H.
    apply (IH _ _ _ _ H).
    rewrite (collideWithOne_flags _ _ _ _ _ _ _ _ E). now rewrite H0.
Qed.

End WorldFacts.

Import WorldFacts.

(** X22.  [overlap], [isTouching] and [displace] never change the velocity,
    the mass, the immovable flag or the restitution of any sprite of the
    sketch. *)
Theorem overlap_and_displace_keep_every_velocity
        (fuel : nat) (type : CollisionType) (this : nat)
        (target : Resolver.Target) (callback : bool) (w : Resolver.World)
        (r : bool) (w' : Resolver.World) (ref : nat) :
  Resolver.movesCaller type = false ->
  Resolver._collideWith fuel type this target callback w = Done (r, w') ->
  velocity (Resolver.sprites w' ref) = velocity (Resolver.sprites w ref)
  /\ mass (Resolver.sprites w' ref) = mass (Resolver.sprites w ref)
  /\ immovable (Resolver.sprites w' ref) = immovable (Resolver.sprites w ref)
  /\ restitution (Resolver.sprites w' ref)
     = restitution (Resolver.sprites w ref).
Proof.
  intros Ht H. unfold Resolver._collideWith in H.
  assert (Hd : dynamics (Resolver.sprites w' ref)
               = dynamics (Resolver.sprites w ref)).
  { assert (H1 : dynamics
                   (Resolver.store this
                      (Resolver.clearTouching (Resolver.sprites w this))
                      (Resolver.sprites w) ref)
                 = dynamics (Resolver.sprites w ref)).
    { destruct (Nat.eq_dec ref this) as [-> | Hne].
      - now rewrite store_eq.
      - now rewrite store_neq. }
    destruct (removed (Resolver.sprites w this)).
    - inversion H; subst. exact H1.
    - apply (collideWithAll_quiet _ _ _ _ ref Ht) in H.
      rewrite H. exact H1. }
  unfold dynamics in Hd. inversion Hd. auto.
Qed.

Lemma overlap_keeps_velocity_witness :
  exists w',
    Resolver.Sprite_overlap Resolver.maxSubSteps 0 (Resolver.TargetSprite 1)
                            false (twoSprites newcomer host)
    = Done (true, w')
    /\ velocity (Resolver.sprites w' 0%nat)
       = velocity (Resolver.sprites (twoSprites newcomer host) 0%nat).
Proof.
  destruct (FirstQuery.first_query_world false) as (w' & H & _).
  exists w'. split; [exact H |].
  exact (proj1 (overlap_and_displace_keep_every_velocity
                  Resolver.maxSubSteps overlap 0 (Resolver.TargetSprite 1)
                  false (twoSprites newcomer host) true w' 0%nat eq_refl H)).
Defined.

(** X24.  A query answers true exactly when it leaves one of the four
    [touching] flags of the caller set. *)
Theorem query_answer_is_the_touching_flags
        (fuel : nat) (type : CollisionType) (this : nat)
        (target : Resolver.Target) (callback : bool) (w : Resolver.World)
        (r : bool) (w' : Resolver.World) :
  Resolver._collideWith fuel type this target callback w = Done (r, w') ->
  anyFlag (touching (Resolver.sprites w' this)) = r.
Proof.
  intros H. unfold Resolver._collideWith in H.
  assert (H0 : anyFlag
                 (touching
                    (Resolver.sprites
                       (Resolver.mkWorld
                          (Resolver.store this
                             (Resolver.clearTouching (Resolver.sprites w this))
                             (Resolver.sprites w))
                          (Resolver.calls w)) this)) = false).
  { cbn [Resolver.sprites]. now rewrite store_eq. }
  destruct (removed (Resolver.sprites w this)).
  - inversion H; subst. exact H0.
  - exact (collideWithAll_flags _ _ _ _ _ _ _ _ _ H H0).
Qed.

Lemma query_answer_witness :
  exists w',
    Resolver.Sprite_overlap Resolver.maxSubSteps 0 (Resolver.TargetSprite 1)
                            false (twoSprites newcomer host)
    = Done (true, w')
    /\ anyFlag (touching (Resolver.sprites w' 0%nat)) = true.
Proof.
  destruct (FirstQuery.first_query_world false) as (w' & H & _).
  exists w'. split; [exact H |].
  exact (query_answer_is_the_touching_flags
           Resolver.maxSubSteps overlap 0 (Resolver.TargetSprite 1)
           false (twoSprites newcomer host) true w' H).
Defined.

(** ** Groups *)

Module GroupFacts.

Import Groups SceneNotions.

Lemma update_eq {A} key (v : A) f : update key v f key = v.
Proof. unfold update. now rewrite Nat.eqb_refl. Qed.

Lemma update_neq {A} key (v : A) f k : k <> key -> update key v f k = f k.
Proof. intros H. unfold update. apply Nat.eqb_neq in H. now rewrite H. Qed.

Lemma indexOf_spec item l :
  (-1 <= indexOf item l)%Z
  /\ (indexOf item l = (-1)%Z <-> ~ In item l).
Proof.
  induction l as [| x rest [IH1 IH2]]; simpl.
  - split; [lia | tauto].
  - destruct (Nat.eqb item x) eqn:E.
    + apply Nat.eqb_eq in E. subst. split; [lia |].
      split; [discriminate | intros H; exfalso; apply H; now left].
    + apply Nat.eqb_neq in E.
      destruct (Z.eqb (indexOf item rest) (-1)) eqn:E1.
      * apply Z.eqb_eq in E1. split; [lia |].
        split; [| reflexivity].
        intros _ [H | H]; [congruence | now apply IH2].
      * apply Z.eqb_neq in E1. split; [lia |].
        split; [lia |].
        intros H. exfalso. apply E1, IH2. intros Hin. apply H. now right.
Qed.

Lemma contains_iff g s sc : contains g s sc = true <-> In s (members sc g).
Proof.
  unfold contains. destruct (indexOf_spec s (members sc g)) as [H1 H2].
  rewrite Z.ltb_lt. split.
  - intros H. destruct (in_dec Nat.eq_dec s (members sc g)) as [Hin | Hn];
      [assumption |].
    apply H2 in Hn. lia.
  - intros Hin. assert (indexOf s (members sc g) <> (-1)%Z) by tauto. lia.
Qed.

Lemma existsb_eqb item l : existsb (Nat.eqb item) l = true <-> In item l.
Proof.
  rewrite existsb_exists. split.
  - intros (x & Hin & E). apply Nat.eqb_eq in E. now subst.
  - intros H. exists item. split; [assumption | apply Nat.eqb_refl].
Qed.

Lemma in_without item l x :
  In x (filter (fun y => negb (Nat.eqb y item)) l) <-> In x l /\ x <> item.
Proof.
  rewrite filter_In, negb_true_iff, Nat.eqb_neq. tauto.
Qed.

Lemma without_absent item l :
  ~ In item l -> filter (fun y => negb (Nat.eqb y item)) l = l.
Proof.
  induction l as [| x rest IH]; intros H; [reflexivity |]. simpl.
  destruct (Nat.eqb x item) eqn:E.
  - apply Nat.eqb_eq in E. subst. exfalso. apply H. now left.
  - simpl. f_equal. apply IH. intros Hin. apply H. now right.
Qed.

(** The members after [add] and after [remove]. *)
Lemma members_add g s sc g' s' :
  In s' (members (add g s sc) g')
  <-> In s' (members sc g') \/ (g' = g /\ s' = s).
Proof.
  unfold add. destruct (indexOf_spec s (members sc g)) as [_ H].
  destruct (Z.eqb (indexOf s (members sc g)) (-1)) eqn:E.
  - cbn [members]. destruct (Nat.eq_dec g' g) as [-> | Hne].
    + rewrite update_eq, in_app_iff. simpl. intuition.
    + rewrite update_neq by assumption. intuition.
  - apply Z.eqb_neq in E.
    assert (Hin : In s (members sc g)).
    { destruct (in_dec Nat.eq_dec s (members sc g)); [assumption | tauto]. }
    split; [tauto |]. intros [H1 | [-> ->]]; assumption.
Qed.

Lemma groups_add g s sc g' s' :
  (In s (members sc g) <-> In g (groupsOf sc s)) ->
  In g' (groupsOf (add g s sc) s')
  <-> In g' (groupsOf sc s') \/ (g' = g /\ s' = s).
Proof.
  intros Hc. unfold add. destruct (indexOf_spec s (members sc g)) as [_ H].
  destruct (Z.eqb (indexOf s (members sc g)) (-1)) eqn:E.
  - cbn [groupsOf]. destruct (Nat.eq_dec s' s) as [-> | Hne].
    + rewrite update_eq, in_app_iff. simpl. intuition.
    + rewrite update_neq by assumption. intuition.
  - apply Z.eqb_neq in E.
    assert (Hin : In s (members sc g)).
    { destruct (in_dec Nat.eq_dec s (members sc g)); [assumption | tauto]. }
    split; [tauto |]. intros [H1 | [-> ->]]; [assumption | tauto].
Qed.

Lemma members_remove g s sc g' s' :
  In s' (members (snd (remove g s sc)) g')
  <-> In s' (members sc g') /\ ~ (g' = g /\ s' = s).
Proof.
  unfold remove. destruct (existsb (Nat.eqb s) (members sc g)) eqn:E.
  - cbn [snd members]. destruct (Nat.eq_dec g' g) as [-> | Hne].
    + rewrite update_eq, in_without. tauto.
    + rewrite update_neq by assumption. tauto.
  - cbn [snd].
    assert (Hn : ~ In s (members sc g)).
    { intros Hin. apply existsb_eqb in Hin. congruence. }
    split; [| tauto]. intros H. split; [assumption |].
    intros [-> ->]. contradiction.
Qed.

Lemma groups_remove g s sc g' s' :
  (In s (members sc g) <-> In g (groupsOf sc s)) ->
  In g' (groupsOf (snd (remove g s sc)) s')
  <-> In g' (groupsOf sc s') /\ ~ (g' = g /\ s' = s).
Proof.
  intros Hc. unfold remove.
  destruct (existsb (Nat.eqb s) (members sc g)) eqn:E.
  - cbn [snd groupsOf]. destruct (Nat.eq_dec s' s) as [-> | Hne].
    + rewrite update_eq, in_without. tauto.
    + rewrite update_neq by assumption. tauto.
  - cbn [snd].
    assert (Hn : ~ In s (members sc g)).
    { intros Hin. apply existsb_eqb in Hin. congruence. }
    split; [| tauto]. intros H. split; [assumption |].
    intros [-> ->]. tauto.
Qed.

Lemma NoDup_snoc (l : list nat) x : NoDup l -> ~ In x l -> NoDup (l ++ [x]).
Proof.
  intros Hl Hx. apply NoDup_app; [assumption | repeat constructor; easy |].
  intros y Hy [<- | []]. contradiction.
Qed.

Lemma add_consistent g s sc : consistent sc -> consistent (add g s sc).
Proof.
  intros (Hc & Hm & Hg).
  split; [| split].
  - intros g' s'. rewrite groups_add by (symmetry; apply Hc).
    rewrite members_add, Hc. tauto.
  - intros g'. unfold add.
    destruct (indexOf_spec s (members sc g)) as [_ H].
    destruct (Z.eqb (indexOf s (members sc g)) (-1)) eqn:E; [| apply Hm].
    apply Z.eqb_eq in E. cbn [members].
    destruct (Nat.eq_dec g' g) as [-> | Hne].
    + rewrite update_eq. apply NoDup_snoc; [apply Hm | tauto].
    + rewrite update_neq by assumption. apply Hm.
  - intros s'. unfold add.
    destruct (indexOf_spec s (members sc g)) as [_ H].
    destruct (Z.eqb (indexOf s (members sc g)) (-1)) eqn:E; [| apply Hg].
    apply Z.eqb_eq in E. cbn [groupsOf].
    destruct (Nat.eq_dec s' s) as [-> | Hne].
    + rewrite update_eq. apply NoDup_snoc; [apply Hg |].
      rewrite Hc. tauto.
    + rewrite update_neq by assumption. apply Hg.
Qed.

Lemma remove_consistent g s sc :
  consistent sc -> consistent (snd (remove g s sc)).
Proof.
  intros (Hc & Hm & Hg).
  split; [| split].
  - intros g' s'. rewrite groups_remove by (symmetry; apply Hc).
    rewrite members_remove, Hc. tauto.
  - intros g'. unfold remove.
    destruct (existsb (Nat.eqb s) (members sc g)); cbn [snd members];
      [| apply Hm].
    destruct (Nat.eq_dec g' g) as [-> | Hne].
    + rewrite update_eq. apply NoDup_filter, Hm.
    + rewrite update_neq by assumption. apply Hm.
  - intros s'. unfold remove.
    destruct (existsb (Nat.eqb s) (members sc g)); cbn [snd groupsOf];
      [| apply Hg].
    destruct (Nat.eq_dec s' s) as [-> | Hne].
    + rewrite update_eq. apply NoDup_filter, Hg.
    + rewrite update_neq by assumption. apply Hg.
Qed.

Lemma remove_answer g s sc : fst (remove g s sc) = contains g s sc.
Proof.
  unfold remove. destruct (existsb (Nat.eqb s) (members sc g)) eqn:E.
  - symmetry. apply contains_iff. now apply existsb_eqb.
  - cbn [fst]. destruct (contains g s sc) eqn:C; [| reflexivity].
    apply contains_iff, existsb_eqb in C. congruence.
Qed.

(** One round of the loop of [Sprite.remove] in a consistent scene takes
    the first group off the sprite's list. *)
Lemma remove_first_group g rest s sc :
  consistent sc -> groupsOf sc s = g :: rest ->
  groupsOf (snd (remove g s sc)) s = rest
  /\ sprites (snd (remove g s sc)) = sprites sc
  /\ quadTree (snd (remove g s sc)) = quadTree sc.
Proof.
  intros (Hc & Hm & Hg) E.
  assert (Hin : In s (members sc g)).
  { apply Hc. rewrite E. now left. }
  unfold remove. rewrite (proj2 (existsb_eqb s (members sc g)) Hin).
  cbn [snd groupsOf sprites quadTree]. rewrite update_eq, E.
  split; [| split; reflexivity].
  simpl. rewrite Nat.eqb_refl. simpl.
  apply without_absent.
  specialize (Hg s). rewrite E in Hg. now inversion Hg.
Qed.

Lemma leaveGroups_spec s : forall n sc,
  consistent sc -> length (groupsOf sc s) = n ->
  exists sc',
    leaveGroups (S n) s sc = Done sc'
    /\ consistent sc'
    /\ groupsOf sc' s = []
    /\ sprites sc' = sprites sc /\ quadTree sc' = quadTree sc
    /\ (forall g s', s' <> s ->
                     (In s' (members sc' g) <-> In s' (members sc g))).
Proof.
  induction n as [| n IH]; intros sc Hc Hlen.
  - destruct (groupsOf sc s) as [| g rest] eqn:E; [| discriminate].
    exists sc. cbn [leaveGroups]. rewrite E.
    split; [reflexivity |]. split; [exact Hc |]. split; [reflexivity |].
    split; [reflexivity |]. split; [reflexivity |]. tauto.
  - destruct (groupsOf sc s) as [| g rest] eqn:E; [discriminate |].
    destruct (remove_first_group g rest s sc Hc E) as (Hr & Hs & Hq).
    destruct (IH (snd (remove g s sc)))
      as (sc' & Hrun & Hc' & Hg' & Hs' & Hq' & Hmem).
    { now apply remove_consistent. }
    { rewrite Hr. simpl in Hlen. lia. }
    exists sc'. split.
    { change (leaveGroups (S (S n)) s sc)
        with (match groupsOf sc s with
              | [] => Done sc
              | group :: _ => leaveGroups (S n) s (snd (remove group s sc))
              end).
      rewrite E. exact Hrun. }
    split; [exact Hc' |]. split; [exact Hg' |].
    split; [congruence |]. split; [congruence |].
    intros g' s' Hne. rewrite (Hmem g' s' Hne), members_remove.
    split; [tauto |]. intros H. split; [assumption |]. intros [_ ->].
    congruence.
Qed.

(** A group that the sprite lists but that does not hold it stays so. *)
Lemma stale_group_stays g s g0 sc :
  In g (groupsOf sc s) -> ~ In s (members sc g) ->
  In g (groupsOf (snd (remove g0 s sc)) s)
  /\ ~ In s (members (snd (remove g0 s sc)) g).
Proof.
  intros Hg Hm. unfold remove.
  destruct (existsb (Nat.eqb s) (members sc g0)) eqn:E; cbn [snd];
    [| tauto].
  assert (Hne : g <> g0).
  { intros ->. apply existsb_eqb in E. contradiction. }
  cbn [groupsOf members]. rewrite update_eq, update_neq by assumption.
  split; [| assumption].
  apply in_without. tauto.
Qed.

Lemma leaveGroups_stuck g s : forall fuel sc,
  In g (groupsOf sc s) -> ~ In s (members sc g) ->
  leaveGroups fuel s sc = OutOfFuel.
Proof.
  induction fuel as [| fuel IH]; intros sc Hg Hm; [reflexivity |].
  cbn [leaveGroups].
  destruct (groupsOf sc s) as [| g0 rest] eqn:E; [contradiction |].
  destruct (stale_group_stays g s g0 sc) as [H1 H2];
    [rewrite E; assumption | assumption |].
  now apply IH.
Qed.

End GroupFacts.

Import Groups SceneNotions GroupFacts.

(** X25.  [add] puts the sprite in the group and [remove] takes it out,
    without touching any other membership; [remove] answers whether the
    sprite was in the group; both keep the arrays of the groups and of the
    sprites in agreement and free of duplicates. *)
Theorem group_add_and_remove (g s : nat) (sc : Scene) :
  consistent sc ->
  (forall g' s', In s' (members (add g s sc) g')
                 <-> In s' (members sc g') \/ (g' = g /\ s' = s))
  /\ (forall g' s', In s' (members (snd (remove g s sc)) g')
                    <-> In s' (members sc g') /\ ~ (g' = g /\ s' = s))
  /\ fst (remove g s sc) = contains g s sc
  /\ consistent (add g s sc)
  /\ consistent (snd (remove g s sc)).
Proof.
  intros Hc.
  split; [intros; apply members_add |].
  split; [intros; apply members_remove |].
  split; [apply remove_answer |].
  split; [now apply add_consistent | now apply remove_consistent].
Qed.

Lemma emptyScene_consistent : consistent emptyScene.
Proof.
  unfold consistent, emptyScene; simpl.
  split; [tauto |]. split; intros; constructor.
Qed.

Lemma group_add_and_remove_witness :
  consistent (add 1 7 emptyScene)
  /\ fst (remove 1 7 (add 1 7 emptyScene))
     = contains 1 7 (add 1 7 emptyScene)
  /\ consistent (snd (remove 1 7 (add 1 7 emptyScene))).
Proof.
  destruct (group_add_and_remove 1 7 emptyScene emptyScene_consistent)
    as (_ & _ & _ & Hc & _).
  destruct (group_add_and_remove 1 7 (add 1 7 emptyScene) Hc)
    as (_ & _ & Ha & _ & Hr).
  split; [exact Hc |]. split; [exact Ha | exact Hr].
Defined.

(** X26.  In a scene whose groups and sprites agree, [remove] of a sprite
    ends after one round per group of the sprite: the sprite is flagged as
    removed, it is in no group any more, and the other sprites are in the
    groups they were in. *)
Theorem sprite_remove_leaves_every_group (s : nat) (sc : Scene) :
  consistent sc ->
  exists sc',
    Sprite_remove (S (length (groupsOf sc s))) s sc = Done sc'
    /\ removed (sprites sc' s) = true
    /\ groupsOf sc' s = []
    /\ (forall g, ~ In s (members sc' g))
    /\ (forall g s', s' <> s ->
                     (In s' (members sc' g) <-> In s' (members sc g)))
    /\ consistent sc'.
Proof.
  intros Hc. unfold Sprite_remove.
  set (sc1 := mkScene (update s (setRemoved (sprites sc s)) (sprites sc))
                      (members sc) (groupsOf sc)
                      (QuadtreeRemoval.removeObject (boxOf sc) (quadTree sc) s)).
  assert (Hc1 : consistent sc1) by exact Hc.
  destruct (leaveGroups_spec s (length (groupsOf sc s)) sc1 Hc1 eq_refl)
    as (sc' & Hrun & Hc' & Hg' & Hs' & _ & Hmem).
  exists sc'. split; [exact Hrun |].
  split.
  { rewrite Hs'. unfold sc1. cbn [sprites]. now rewrite update_eq. }
  split; [exact Hg' |].
  split.
  { intros g Hin. apply (proj1 Hc') in Hin. rewrite Hg' in Hin. contradiction. }
  split; [exact Hmem | exact Hc'].
Qed.

Lemma sprite_remove_witness :
  exists sc',
    Sprite_remove 2 7 (add 1 7 emptyScene) = Done sc'
    /\ removed (sprites sc' 7%nat) = true
    /\ groupsOf sc' 7%nat = [].
Proof.
  pose proof (add_consistent 1 7 emptyScene emptyScene_consistent) as Hc.
  destruct (sprite_remove_leaves_every_group 7 (add 1 7 emptyScene) Hc)
    as (sc' & Hrun & Hr & Hg & _).
  exists sc'. auto.
Defined.

(** X27.  If the list of a sprite names a group that does not hold the
    sprite, as it does after [clear] of that group, [remove] of the sprite
    never ends: whatever the bound on its rounds, the loop over the groups
    of the sprite uses it up. *)
Theorem sprite_remove_hangs_after_clear (g s : nat) (sc : Scene) (fuel : nat) :
  In g (groupsOf sc s) -> ~ In s (members sc g) ->
  Sprite_remove fuel s sc = OutOfFuel.
Proof.
  intros Hg Hm. unfold Sprite_remove.
  apply (leaveGroups_stuck g s); assumption.
Qed.

Lemma sprite_remove_hangs_witness :
  Sprite_remove 1000 7 (clear 1 (add 1 7 emptyScene)) = OutOfFuel.
Proof.
  apply (sprite_remove_hangs_after_clear 1 7).
  - simpl. now left.
  - simpl. tauto.
Defined.

(** ** Key states *)

Module KeyFacts.

Import Keys.

Lemma readPresses_tracked d ks key st :
  ks key = Some st -> readPresses d ks key = Some (nextState (d key) st).
Proof. intros H. unfold readPresses. now rewrite H. Qed.

Lemma query_tracked d key state ks st :
  ks key = Some st ->
  _isKeyInState d key state ks = (KeyState_eqb st state, ks).
Proof. intros H. unfold _isKeyInState. rewrite H. now rewrite H. Qed.

End KeyFacts.

Import Keys KeyFacts.

(** X28.  For a tracked key over consecutive rounds of [readPresses]:
    [keyWentDown] is reported only for a key that is down and was up in the
    round before, never in two rounds running, and always when the key is
    down after two rounds up. *)
Theorem keyWentDown_marks_a_fresh_press
        (d1 d2 d3 : nat -> bool) (key : nat) (st : KeyState)
        (keyStates : KeyStates) :
  keyStates key = Some st ->
  let ks1 := readPresses d1 keyStates in
  let ks2 := readPresses d2 ks1 in
  let ks3 := readPresses d3 ks2 in
  (fst (keyWentDown d2 key ks2) = true ->
   d2 key = true /\ d1 key = false
   /\ fst (keyWentDown d1 key ks1) = false)
  /\ (d1 key = false -> d2 key = false -> d3 key = true ->
      fst (keyWentDown d3 key ks3) = true)
  /\ snd (keyWentDown d3 key ks3) = ks3.
Proof.
  intros Hst ks1 ks2 ks3.
  pose proof (readPresses_tracked d1 _ _ _ Hst) as H1. fold ks1 in H1.
  pose proof (readPresses_tracked d2 _ _ _ H1) as H2. fold ks2 in H2.
  pose proof (readPresses_tracked d3 _ _ _ H2) as H3. fold ks3 in H3.
  unfold keyWentDown.
  rewrite (query_tracked d2 key _ ks2 _ H2), (query_tracked d1 key _ ks1 _ H1),
    (query_tracked d3 key _ ks3 _ H3).
  cbn [fst snd].
  split; [| split; [| reflexivity]].
  - destruct (d1 key), (d2 key), st; simpl; intros H; try discriminate;
      auto.
  - intros -> -> ->. destruct st; reflexivity.
Qed.

Lemma keyWentDown_witness :
  let keyStates : KeyStates :=
    fun k => if Nat.eqb k 32 then Some KEY_IS_DOWN else None in
  let up : nat -> bool := fun _ => false in
  let down : nat -> bool := fun _ => true in
  fst (keyWentDown down 32
         (readPresses down (readPresses up (readPresses up keyStates))))
  = true.
Proof.
  intros keyStates up down.
  exact (proj1 (proj2 (keyWentDown_marks_a_fresh_press
                         up up down 32 KEY_IS_DOWN keyStates eq_refl))
           eq_refl eq_refl eq_refl).
Defined.

(** ** The quadtree, further properties *)

Module QuadtreeMore.

Import Quadtree QuadtreeInvariant QuadtreeFacts QuadtreeRemoval.

Section More.

Variable boxOf : nat -> option Shape.BoundingBox.

Lemma nodeAt_cases k ns :
  nodeAt k ns = node0 ns \/ nodeAt k ns = node1 ns
  \/ nodeAt k ns = node2 ns \/ nodeAt k ns = node3 ns.
Proof.
  unfold nodeAt. destruct k as [| p | p]; auto.
  destruct p as [p | p |]; auto. destruct p; auto.
Qed.

Lemma retrieve_sound t e x :
  In x (retrieve boxOf t e) -> In x (getAll t).
Proof.
  induction t as [| b mo ml l objs n0 IH0 n1 IH1 n2 IH2 n3 IH3];
    [easy |].
  cbn [retrieve getAll].
  destruct (Z.eqb (getIndex boxOf b e) (-1)).
  - rewrite !in_app_iff. intuition.
  - rewrite !in_app_iff. intros [H | H]; [tauto |].
    destruct (nodeAt_cases (getIndex boxOf b e) (mkNodes n0 n1 n2 n3))
      as [E | [E | [E | E]]]; rewrite E in H;
      cbn [node0 node1 node2 node3] in H;
      [apply IH0 in H | apply IH1 in H | apply IH2 in H | apply IH3 in H];
      tauto.
Qed.

Lemma spliceFirst_count obj l x :
  count_occ Nat.eq_dec l x
  = (count_occ Nat.eq_dec (spliceFirst obj l) x
     + (if indexOf obj l && Nat.eqb x obj then 1 else 0))%nat.
Proof.
  unfold indexOf. induction l as [| y rest IH]; [reflexivity |].
  cbn [spliceFirst existsb].
  destruct (Nat.eqb obj y) eqn:E.
  - apply Nat.eqb_eq in E. subst y. cbn [orb andb count_occ].
    destruct (Nat.eq_dec obj x) as [-> | Hne].
    + rewrite Nat.eqb_refl. lia.
    + assert (Nat.eqb x obj = false) as -> by (apply Nat.eqb_neq; congruence).
      lia.
  - cbn [orb count_occ]. destruct (Nat.eq_dec y x); rewrite IH; lia.
Qed.

Lemma count_getAll_Branch b mo ml l objs n0 n1 n2 n3 x :
  count_occ Nat.eq_dec (getAll (Branch b mo ml l objs n0 n1 n2 n3)) x
  = (count_occ Nat.eq_dec objs x
     + (count_occ Nat.eq_dec (getAll n0) x + count_occ Nat.eq_dec (getAll n1) x
        + count_occ Nat.eq_dec (getAll n2) x
        + count_occ Nat.eq_dec (getAll n3) x))%nat.
Proof. cbn [getAll]. rewrite !count_occ_app. lia. Qed.

End More.

End QuadtreeMore.

Import QuadtreeMore.

(** X29.  [retrieve] returns only entries that are stored in the tree, and
    [retrieveFromGroup] exactly those of them that are in the group. *)
Theorem retrieve_returns_only_stored_entries
        (boxOf : nat -> option Shape.BoundingBox) (t : Quadtree.Quadtree)
        (e : nat) (group : list nat) (x : nat) :
  (In x (Quadtree.retrieve boxOf t e) -> In x (Quadtree.getAll t))
  /\ (In x (Quadtree.retrieveFromGroup boxOf t e group)
      <-> In x (Quadtree.retrieve boxOf t e) /\ In x group).
Proof.
  split.
  - apply retrieve_sound.
  - unfold Quadtree.retrieveFromGroup.
    rewrite filter_In, QuadtreeFacts.indexOf_true. tauto.
Qed.

(** X30.  [removeObject] takes exactly one occurrence of the object out of
    the tree when the object is in the list of the node that
    [getObjectNode] gives, and leaves the tree as it is otherwise; no other
    entry is ever removed. *)
Theorem removeObject_takes_out_one_entry
        (boxOf : nat -> option Shape.BoundingBox) (t : Quadtree.Quadtree)
        (obj x : nat) :
  count_occ Nat.eq_dec (Quadtree.getAll t) x
  = (count_occ Nat.eq_dec
       (Quadtree.getAll (QuadtreeRemoval.removeObject boxOf t obj)) x
     + (if Quadtree.indexOf obj
             (Quadtree.objects (QuadtreeRemoval.getObjectNode boxOf t obj))
           && Nat.eqb x obj
        then 1 else 0))%nat.
Proof.
  induction t as [| b mo ml l objs n0 IH0 n1 IH1 n2 IH2 n3 IH3].
  - cbn [QuadtreeRemoval.removeObject QuadtreeRemoval.getObjectNode
         Quadtree.getAll Quadtree.objects]. apply spliceFirst_count.
  - cbn [QuadtreeRemoval.removeObject QuadtreeRemoval.getObjectNode].
    destruct (Z.eqb (Quadtree.getIndex boxOf b obj) (-1)).
    + cbn [Quadtree.objects]. rewrite !count_getAll_Branch.
      rewrite (spliceFirst_count obj objs x). lia.
    + set (k := Quadtree.getIndex boxOf b obj).
      assert (Hk : (k = 0 \/ k = 1 \/ k = 2
                    \/ (Quadtree.nodeAt k (Quadtree.mkNodes n0 n1 n2 n3) = n3
                        /\ forall n, Quadtree.setNodeAt k n
                                       (Quadtree.mkNodes n0 n1 n2 n3)
                                     = Quadtree.mkNodes n0 n1 n2 n))%Z).
      { destruct k as [| p | p]; auto.
        destruct p as [p | p |]; auto. destruct p; auto. }
      destruct Hk as [-> | [-> | [-> | [E1 E2]]]];
        [| | | rewrite E1, E2];
        cbn [Quadtree.nodeAt Quadtree.setNodeAt Quadtree.node0 Quadtree.node1
             Quadtree.node2 Quadtree.node3];
        rewrite !count_getAll_Branch;
        [rewrite IH0 at 1 | rewrite IH1 at 1 | rewrite IH2 at 1
         | rewrite IH3 at 1]; lia.
Qed.
